(** * Reading Companion: quote anchoring, highlighting and progress tracking

  A shallow embedding of the content script (progress tracker, Locator,
  Highlighter, selection capture), of the service worker's message handlers
  for pages, materials and chapters, and of the popup's escaping, with the
  properties of the specification and further properties of the code proved
  about them.

  Conventions of the embedding:
  - a JavaScript number is the rational value of a double, an infinity or
    NaN; the sign of a zero is left out, nothing here depends on it. The
    arithmetic of the progress tracker rounds every result to a double as
    IEEE 754 does (module [Double]); the differences and the successor of
    the chapter orders, which are small whole numbers, are exact;
  - a JavaScript object used as a record or a dictionary is a [gmap] from
    property names to values;
  - page text is a list of code units restricted to the Latin-1 range, on
    which [toLowerCase] keeps the length and [trim] strips the code units
    9-13, 32 and 160;
  - the live DOM below [document.body] is a finite tree of text nodes and
    elements; a text node is identified by its rank in document order, the
    order in which the [TreeWalker] visits it. *)

From Stdlib Require Import ZArith QArith Qround Qpower List Ascii String Bool Arith Lia Lqa.
From Stdlib Require Import Permutation Sorted DecimalString.
From Stdlib Require SpecFloat.
From stdpp Require Import gmap strings.

Import ListNotations.

(** ** JavaScript values *)

Module Js.

Inductive number :=
| Fin (q : Q)
| PosInf
| NegInf
| NaN.

Inductive value :=
| VUndefined
| VNull
| VBool (b : bool)
| VNum (n : number)
| VStr (s : string).

(** [Boolean(v)], the test behind [||], [?:] and [if]. *)
Definition truthy (v : value) : bool :=
  match v with
  | VUndefined | VNull => false
  | VBool b => b
  | VNum (Fin q) => negb (Qeq_bool q 0)
  | VNum NaN => false
  | VNum _ => true
  | VStr s => negb (String.eqb s EmptyString)
  end.

(** [Math.round] on a finite number: the nearest integer, halves going up. *)
Definition round (q : Q) : Z := Qfloor (q + (1 # 2)).

(** [clampProgress(p)] of background.js and popup.js (the same text in both):
    [if (typeof p !== "number" || Number.isNaN(p)) return 0;
     return Math.max(0, Math.min(100, Math.round(p)));] *)
Definition clampProgress (p : value) : Z :=
  match p with
  | VNum (Fin q) => Z.max 0 (Z.min 100 (round q))
  | VNum PosInf => 100
  | VNum NegInf => 0
  | _ => 0
  end.

Definition ofZ (z : Z) : value := VNum (Fin (inject_Z z)).

End Js.

(** ** The arithmetic of doubles *)

Module Double.
Import Js.
Local Open Scope Q_scope.

(** [2^e], for an exponent of either sign. *)
Definition pow2 (e : Z) : Q := 2 ^ e.

(** The binary exponent of a positive rational: the whole part of its
    binary logarithm, found from the lengths of numerator and
    denominator. *)
Definition ilog2 (q : Q) : Z :=
  let k := (Z.log2 (Qnum q) - Z.log2 (Zpos (Qden q)))%Z in
  if Qle_bool (pow2 k) q then k else (k - 1)%Z.

(** The nearest whole number, the even one of two that are as near. *)
Definition roundEven (q : Q) : Z :=
  let f := Qfloor q in
  match Qcompare (q - inject_Z f) (1 # 2) with
  | Lt => f
  | Gt => (f + 1)%Z
  | Eq => if Z.even f then f else (f + 1)%Z
  end.

(** The unit in the last place of the doubles around a positive [q]: 53
    significant bits, and 2^-1074 for the subnormal numbers. *)
Definition ulp (q : Q) : Q := pow2 (Z.max (ilog2 q - 52) (-1074)).

(** The multiple of that unit nearest to a positive [q], ties to even. *)
Definition nearest (q : Q) : Q := inject_Z (roundEven (q / ulp q)) * ulp q.

(** The double that an operation returns when its exact result is [q]:
    round to nearest, ties to even, and an infinity from 2^1024 on. *)
Definition double (q : Q) : number :=
  match Qcompare q 0 with
  | Eq => Fin 0
  | Gt => let r := nearest q in if Qle_bool (pow2 1024) r then PosInf else Fin r
  | Lt => let r := nearest (- q) in if Qle_bool (pow2 1024) r then NegInf else Fin (- r)
  end.

(** [a - b] *)
Definition sub (a b : number) : number :=
  match a, b with
  | NaN, _ | _, NaN => NaN
  | Fin x, Fin y => double (x - y)
  | PosInf, PosInf | NegInf, NegInf => NaN
  | PosInf, _ | _, NegInf => PosInf
  | NegInf, _ | _, PosInf => NegInf
  end.

(** [Math.max(a, b)] *)
Definition max (a b : number) : number :=
  match a, b with
  | NaN, _ | _, NaN => NaN
  | PosInf, _ | _, PosInf => PosInf
  | NegInf, x | x, NegInf => x
  | Fin x, Fin y => if Qle_bool x y then Fin y else Fin x
  end.

(** [Math.round(a)]: exact, halves going up. *)
Definition mathRound (a : number) : number :=
  match a with
  | Fin q => Fin (inject_Z (round q))
  | _ => a
  end.

(** [a / b]; a zero that divides counts as +0. *)
Definition div (a b : number) : number :=
  match a, b with
  | NaN, _ | _, NaN => NaN
  | Fin x, Fin y =>
      match Qcompare y 0 with
      | Eq => match Qcompare x 0 with Eq => NaN | Gt => PosInf | Lt => NegInf end
      | _ => double (x / y)
      end
  | Fin _, _ => Fin 0
  | PosInf, Fin y => if Qle_bool 0 y then PosInf else NegInf
  | NegInf, Fin y => if Qle_bool 0 y then NegInf else PosInf
  | _, _ => NaN
  end.

(** [a * b] *)
Definition mul (a b : number) : number :=
  match a, b with
  | NaN, _ | _, NaN => NaN
  | Fin x, Fin y => double (x * y)
  | Fin x, PosInf | PosInf, Fin x =>
      match Qcompare x 0 with Eq => NaN | Gt => PosInf | Lt => NegInf end
  | Fin x, NegInf | NegInf, Fin x =>
      match Qcompare x 0 with Eq => NaN | Gt => NegInf | Lt => PosInf end
  | PosInf, PosInf | NegInf, NegInf => PosInf
  | PosInf, NegInf | NegInf, PosInf => NegInf
  end.
End Double.

(** ** The service worker: the [pageProgress] message *)

Module Background.
Import Js.

(** A stored page record, [data.pages[url]], is a plain object:
    [gmap string value]. *)

(** A chapter [{ url, order, progress, title }]: its [url] is always written
    as a normalized URL string; the other properties are kept as an object. *)
Record chapter := { c_url : string; c_props : gmap string value }.

Record material := { chapters : list chapter; m_props : gmap string value }.

Record data := {
  materials : gmap string material;
  pages : gmap string (gmap string value);
  collections : gmap string value }.

Record message := { msg_url : value; msg_progress : value; msg_title : value }.

Inductive response := Ok | Error (e : string).

(** [typeof p?.progress === "number" ? p.progress : c.progress], then
    [{ ...c, progress: clampProgress(progress) }]. *)
Definition syncChapter (pgs : gmap string (gmap string value)) (c : chapter) : chapter :=
  let stored := match pgs !! c_url c with
                | Some p => p !! "progress"%string
                | None => None
                end in
  let progress := match stored with
                  | Some (VNum n) => VNum n
                  | _ => default VUndefined (c_props c !! "progress"%string)
                  end in
  {| c_url := c_url c;
     c_props := <["progress"%string := ofZ (clampProgress progress)]> (c_props c) |}.

Definition updateMaterialChapterProgressFromPages
    (m : material) (pgs : gmap string (gmap string value)) : material :=
  match chapters m with
  | [] => m
  | _ => {| chapters := map (syncChapter pgs) (chapters m); m_props := m_props m |}
  end.

Section Handler.
(** [normalizeUrl] wraps the platform's URL parser; [now] is the value of
    [nowUnixSeconds()] when the message is handled. *)
Variable normalizeUrl : value -> option string.
Variable now : Z.

(** The record written to [data.pages[url]]:
    [{ ...existing, ...(ignoreScrollProgress ? {} : { progress }),
       title: title || existing.title || "", updatedAt: nowUnixSeconds() }]. *)
Definition nextRecord (existing : gmap string value) (msg : message) : gmap string value :=
  let progress := clampProgress (msg_progress msg) in
  let title := match msg_title msg with VStr s => s | _ => EmptyString end in
  let ignoreScrollProgress :=
    match existing !! "ignoreScrollProgress"%string with
    | Some (VBool true) => true
    | _ => false
    end in
  let withProgress :=
    if ignoreScrollProgress then existing
    else <["progress"%string := ofZ progress]> existing in
  let oldTitle := default VUndefined (existing !! "title"%string) in
  let newTitle :=
    if truthy (VStr title) then VStr title
    else if truthy oldTitle then oldTitle
    else VStr EmptyString in
  <["updatedAt"%string := ofZ now]> (<["title"%string := newTitle]> withProgress).

Definition hasChapter (url : string) (m : material) : bool :=
  existsb (fun c => String.eqb (c_url c) url) (chapters m).

Definition pageProgress (msg : message) (d : data) : data * response :=
  match normalizeUrl (msg_url msg) with
  | None => (d, Error "invalid_url")
  | Some url =>
      let existing := default ∅ (pages d !! url) in
      let pages' := <[url := nextRecord existing msg]> (pages d) in
      let sync (m : material) :=
        if hasChapter url m
        then updateMaterialChapterProgressFromPages m pages'
        else m in
      ({| materials := sync <$> materials d;
          pages := pages';
          collections := collections d |}, Ok)
  end.
End Handler.

End Background.

(** ** Page text *)

Module Text.

(** A JavaScript string of Latin-1 code units. *)
Definition text := list ascii.

Definition lit (s : string) : text := list_ascii_of_string s.

Definition code (c : ascii) : N := N_of_ascii c.

(** White space and line terminators of [String.prototype.trim] below 256:
    TAB, LF, VT, FF, CR, SPACE and NO-BREAK SPACE. *)
Definition isSpace (c : ascii) : bool :=
  let n := code c in
  ((9 <=? n) && (n <=? 13) || (n =? 32) || (n =? 160))%N.

(** [toLowerCase] on one Latin-1 code unit: A-Z and the accented capitals
    U+00C0-U+00DE (but not the multiplication sign U+00D7) move up by 32.
    On Latin-1 text [toLowerCase] works code unit by code unit and keeps
    the length. Beyond Latin-1 it need not (U+0130 becomes two code units):
    there the offsets that the Locator finds in [value.toLowerCase()] are
    offsets of the lower-cased string and not of [nodeValue]. *)
Definition lowerChar (c : ascii) : ascii :=
  let n := code c in
  if ((65 <=? n) && (n <=? 90) || (192 <=? n) && (n <=? 222) && negb (n =? 215))%N
  then ascii_of_N (n + 32)
  else c.

Definition toLowerCase (s : text) : text := map lowerChar s.

Fixpoint trimStart (s : text) : text :=
  match s with
  | c :: s' => if isSpace c then trimStart s' else s
  | [] => []
  end.

Definition trimEnd (s : text) : text := rev (trimStart (rev s)).

Definition trim (s : text) : text := trimEnd (trimStart s).

(** [!s] on a string: the empty string is the only falsy one. *)
Definition isEmpty (s : text) : bool :=
  match s with [] => true | _ => false end.

(** [a === b] on strings. *)
Fixpoint eqb (a b : text) : bool :=
  match a, b with
  | [], [] => true
  | x :: a', y :: b' => Ascii.eqb x y && eqb a' b'
  | _, _ => false
  end.

(** [s.startsWith(p)]. *)
Fixpoint startsWith (s p : text) {struct p} : bool :=
  match p, s with
  | [], _ => true
  | y :: p', x :: s' => Ascii.eqb x y && startsWith s' p'
  | _ :: _, [] => false
  end.

(** [s.endsWith(p)]: read from the last code unit backwards. *)
Definition endsWith (s p : text) : bool := startsWith (rev s) (rev p).

(** [commonPrefixLength(a, b)]: the loop stops at the first index where the
    two strings differ or where the shorter one ends. *)
Fixpoint commonPrefixLength (a b : text) : nat :=
  match a, b with
  | x :: a', y :: b' => if Ascii.eqb x y then S (commonPrefixLength a' b') else 0
  | _, _ => 0
  end.

(** [commonSuffixLength(a, b)] compares [a[a.length - 1 - i]] with
    [b[b.length - 1 - i]] for i = 0, 1, ...: the same loop on the two
    strings read backwards. *)
Definition commonSuffixLength (a b : text) : nat :=
  commonPrefixLength (rev a) (rev b).

(** [s.slice(from, to)] and [s.slice(from)] for [0 <= from]. *)
Definition slice (s : text) (from to : nat) : text :=
  firstn (to - from) (skipn from s).

Definition sliceFrom (s : text) (from : nat) : text := skipn from s.

(** The search of [indexOf]: [s] is what is left of the string from
    position [pos] on. *)
Fixpoint search (needle s : text) (pos : nat) : option nat :=
  if startsWith s needle then Some pos
  else match s with
       | [] => None
       | _ :: s' => search needle s' (S pos)
       end.

(** [s.indexOf(needle, from)], with [None] for -1. *)
Definition indexOf (s needle : text) (from : nat) : option nat :=
  let from' := Nat.min from (length s) in
  search needle (skipn from' s) from'.

(** [String(n)] for a natural number. *)
Definition ofNat (n : nat) : text :=
  lit (NilEmpty.string_of_uint (Nat.to_uint n)).

End Text.

(** ** The Locator *)

Module Locator.
Import Text.

(** A quote, as stored and as sent in a [scrollToQuote] message. *)
Record entry := {
  id : text;
  text_ : text;
  contextBefore : text;
  contextAfter : text }.

(** What the tree walk sees of a text node: whether [isSkippableNode] holds
    of it, and its [nodeValue]. *)
Record textNode := { skippable : bool; nodeValue : text }.

(** [{ node, start, end }]; [m_node] is the rank of the text node in
    document order. *)
Record found := { m_node : nat; m_start : nat; m_end : nat }.

Inductive outcome :=
| Return (m : found)
| Continue (best : option found) (bestScore : Z).

Section Scan.
Variable needle needleLower before after : text.

(** The score of the occurrence at [idx] in [lower]. *)
Definition beforeScore (pre : text) : Z :=
  if isEmpty before then 0
  else Z.of_nat (commonSuffixLength pre before)
       + (if endsWith pre before then 50 else 0).

Definition afterScore (post : text) : Z :=
  if isEmpty after then 0
  else Z.of_nat (commonPrefixLength post after)
       + (if startsWith post after then 50 else 0).

Definition scoreAt (lower : text) (idx : nat) : Z :=
  let end_ := idx + length needle in
  beforeScore (slice lower 0 idx) + afterScore (sliceFrom lower end_).

(** [(before && pre.endsWith(before)) && (after && post.startsWith(after))] *)
Definition perfectAt (lower : text) (idx : nat) : bool :=
  let end_ := idx + length needle in
  (negb (isEmpty before) && endsWith (slice lower 0 idx) before)
  && (negb (isEmpty after) && startsWith (sliceFrom lower end_) after).

(** The inner [while (true)] loop over one text node. [budget] is
    [250 - matchCounter]: the occurrence found when it is 0 is the one
    that makes [matchCounter > 250]. *)
Fixpoint scanNode (budget : nat) (node : nat) (lower : text)
    (fromIndex : nat) (best : option found) (bestScore : Z) : outcome :=
  match indexOf lower needleLower fromIndex with
  | None => Continue best bestScore
  | Some idx =>
      match budget with
      | O => Continue best bestScore
      | S budget' =>
          let end_ := idx + length needle in
          let score := scoreAt lower idx in
          let here := {| m_node := node; m_start := idx; m_end := end_ |} in
          let improves := (bestScore <? score)%Z in
          if improves && perfectAt lower idx then Return here
          else
            let best' := if improves then Some here else best in
            let bestScore' := if improves then score else bestScore in
            let fromIndex' := idx + Nat.max 1 (length needleLower) in
            if length lower <=? fromIndex' then Continue best' bestScore'
            else scanNode budget' node lower fromIndex' best' bestScore'
      end
  end.

(** The outer [while ((node = walker.nextNode()))] loop; [visited] is the
    value of [safetyCounter] before the increment, which is also the rank
    of the node at the head of [nodes]. *)
Fixpoint walk (nodes : list textNode) (visited : nat)
    (best : option found) (bestScore : Z) : option found :=
  match nodes with
  | [] => best
  | n :: rest =>
      if (25000 <? N.of_nat (S visited))%N then best
      else if skippable n then walk rest (S visited) best bestScore
      else if length (nodeValue n) <? 3 then walk rest (S visited) best bestScore
      else
        match scanNode 250 visited (toLowerCase (nodeValue n)) 0 best bestScore with
        | Return m => Some m
        | Continue best' bestScore' => walk rest (S visited) best' bestScore'
        end
  end.
End Scan.

Definition findBestMatchInDocument (e : entry) (nodes : list textNode) : option found :=
  let needle := trim (text_ e) in
  if isEmpty needle || (length needle <? 3) then None
  else
    let needleLower := toLowerCase needle in
    let before := toLowerCase (contextBefore e) in
    let after := toLowerCase (contextAfter e) in
    walk needle needleLower before after nodes 0 None (-1).

End Locator.

(** ** The document tree *)

Module Dom.
Import Text Locator.

(** What the content script reads of an element: its tag name, whether its
    class list holds [rc-highlight], and its [data-rc-quote-id] attribute. *)
Record attrs := {
  tag : string;
  highlightClass : bool;
  quoteId : option text }.

#[warnings="-register-all"]
Inductive node :=
| TextNode (value : text)
| Elem (a : attrs) (children : list node).

(** The children of [document.body], in document order. *)
Definition document := list node.

(** [parent.closest("script, style, textarea, input, select, option, noscript")]
    at one element. *)
Definition forbiddenTag (a : attrs) : bool :=
  existsb (String.eqb (tag a))
    ["script"; "style"; "textarea"; "input"; "select"; "option"; "noscript"]%string.

(** The element stops [isSkippableNode] for every text node below it. *)
Definition blocks (a : attrs) : bool := forbiddenTag a || highlightClass a.

(** A highlight marker: [span.rc-highlight]. *)
Definition isMarker (a : attrs) : bool :=
  highlightClass a && String.eqb (tag a) "span"%string.

Definition isMarkerNode (n : node) : bool :=
  match n with
  | TextNode _ => false
  | Elem a _ => isMarker a
  end.

(** The text nodes below a node in document order, each with the answer of
    [isSkippableNode]; [skip] tells whether an ancestor already blocks. *)
Fixpoint textsOf (skip : bool) (n : node) : list textNode :=
  match n with
  | TextNode v => [{| skippable := skip; nodeValue := v |}]
  | Elem a cs => flat_map (textsOf (skip || blocks a)) cs
  end.

Definition textNodes (d : document) : list textNode := flat_map (textsOf false) d.

Fixpoint countText (n : node) : nat :=
  match n with
  | TextNode _ => 1
  | Elem _ cs => list_sum (map countText cs)
  end.

Fixpoint textContent (n : node) : text :=
  match n with
  | TextNode v => v
  | Elem _ cs => flat_map textContent cs
  end.

(** The fragment that [wrapTextMatch] puts in the place of the text node. *)
Definition wrapTextMatch (start end_ : nat) (qid : text) (v : text) : list node :=
  let before := slice v 0 start in
  let matched := slice v start end_ in
  let after := sliceFrom v end_ in
  let span := Elem {| tag := "span"; highlightClass := true;
                      quoteId := if isEmpty qid then None else Some qid |}
                   (if isEmpty matched then [] else [TextNode matched]) in
  (if isEmpty before then [] else [TextNode before])
  ++ span :: (if isEmpty after then [] else [TextNode after]).

(** [parent.replaceChild(frag, textNode)] for the text node of rank [k]
    below [n]: the node list that stands for [n] afterwards. *)
Fixpoint replaceText (f : text -> list node) (k : nat) (n : node) : list node :=
  match n with
  | TextNode v => match k with O => f v | S _ => [n] end
  | Elem a cs =>
      [Elem a ((fix inChildren (k : nat) (cs : list node) : list node :=
                  match cs with
                  | [] => []
                  | c :: cs' =>
                      if k <? countText c then replaceText f k c ++ cs'
                      else c :: inChildren (k - countText c) cs'
                  end) k cs)]
  end.

Fixpoint replaceIn (f : text -> list node) (k : nat) (cs : list node) : list node :=
  match cs with
  | [] => []
  | c :: cs' =>
      if k <? countText c then replaceText f k c ++ cs'
      else c :: replaceIn f (k - countText c) cs'
  end.

(** [Node.normalize()] on one child list: every run of adjacent text nodes
    becomes one text node, and an empty one is removed. *)
Fixpoint normalizeTexts (cs : list node) : list node :=
  match cs with
  | [] => []
  | TextNode v :: rest =>
      match normalizeTexts rest with
      | TextNode w :: rest' => TextNode (v ++ w) :: rest'
      | rest' => if isEmpty v then rest' else TextNode v :: rest'
      end
  | e :: rest => e :: normalizeTexts rest
  end.

(** The document after the loop of [clearHighlights]. Every marker that is
    not inside another marker is replaced by a text node holding its
    [textContent]; [parent.normalize()] then normalizes the whole subtree
    of the marker's parent, so a child list ends up normalized when its
    element, or an ancestor of it, had a marker child ([norm]). *)
Fixpoint clearNode (norm : bool) (n : node) : node :=
  match n with
  | TextNode v => TextNode v
  | Elem a cs =>
      if isMarker a then TextNode (textContent n)
      else
        let norm' := norm || existsb isMarkerNode cs in
        let cs' := map (clearNode norm') cs in
        Elem a (if norm' then normalizeTexts cs' else cs')
  end.

Definition clearHighlights (d : document) : document :=
  let norm := existsb isMarkerNode d in
  let d' := map (clearNode norm) d in
  if norm then normalizeTexts d' else d'.

(** The elements matched by [.rc-highlight], in document order, each with
    its [data-rc-quote-id] and its [textContent]. *)
Fixpoint highlightsOf (n : node) : list (option text * text) :=
  match n with
  | TextNode _ => []
  | Elem a cs =>
      (if highlightClass a then [(quoteId a, textContent n)] else [])
      ++ flat_map highlightsOf cs
  end.

Definition highlights (d : document) : list (option text * text) :=
  flat_map highlightsOf d.

(** The markers ([span.rc-highlight]) of the document, in document order. *)
Fixpoint markersOf (n : node) : list (option text * text) :=
  match n with
  | TextNode _ => []
  | Elem a cs =>
      (if isMarker a then [(quoteId a, textContent n)] else [])
      ++ flat_map markersOf cs
  end.

Definition markers (d : document) : list (option text * text) :=
  flat_map markersOf d.

(** The rank of the first element of [l] that satisfies [p]. *)
Fixpoint findIndex {A : Type} (p : A -> bool) (l : list A) : option nat :=
  match l with
  | [] => None
  | x :: l' => if p x then Some 0 else option_map S (findIndex p l')
  end.

(** [findHighlightSpanById(id)]: the element is named by its rank among the
    [.rc-highlight] elements. *)
Definition findHighlightSpanById (qid : text) (d : document) : option nat :=
  let q := trim qid in
  if isEmpty q then None
  else findIndex (fun h => match fst h with
                           | Some i => eqb i q
                           | None => false
                           end) (highlights d).

(** [findHighlightSpanForText(text)]. *)
Definition findHighlightSpanForText (t : text) (d : document) : option nat :=
  let needle := toLowerCase (trim t) in
  if isEmpty needle then None
  else findIndex (fun h => eqb (toLowerCase (trim (snd h))) needle) (highlights d).

End Dom.

(** ** The Highlighter *)

Module Highlighter.
Import Text Locator Dom.

(** [highlightEntry(entry)]: the document afterwards and the element
    returned. *)
Definition highlightEntry (e : entry) (d : document) : document * option nat :=
  match findBestMatchInDocument e (textNodes d) with
  | None => (d, None)
  | Some m =>
      let d' := replaceIn (wrapTextMatch (m_start m) (m_end m) (id e)) (m_node m) d in
      (d', if isEmpty (id e) then findHighlightSpanForText (text_ e) d'
           else findHighlightSpanById (id e) d')
  end.

(** [Array.prototype.sort] with [(a, b) => b.text.length - a.text.length]:
    the sort is stable, so its result is the one of this insertion sort. *)
Fixpoint insertByLength (x : entry) (l : list entry) : list entry :=
  match l with
  | [] => [x]
  | y :: l' =>
      if length (text_ x) <? length (text_ y) then y :: insertByLength x l'
      else x :: l
  end.

Definition sortByLength (l : list entry) : list entry :=
  fold_right insertByLength [] l.

Definition normalizeQuote (q : entry) : entry :=
  {| id := id q; text_ := trim (text_ q);
     contextBefore := contextBefore q; contextAfter := contextAfter q |}.

(** The [normalized] array of [applyHighlights]. *)
Definition normalized (quotes : list entry) : list entry :=
  firstn 50
    (sortByLength
       (List.filter (fun q => 3 <=? length (text_ q)) (map normalizeQuote quotes))).

Definition applyHighlights (quotes : list entry) (d : document) : document :=
  fold_left (fun d e => fst (highlightEntry e d)) (normalized quotes)
    (clearHighlights d).

(** The state of the content script that the Highlighter reads and writes. *)
Record page := {
  lastHighlightUrl : text;
  lastHighlightSignature : text;
  dom : document }.

(** [ `${String(q?.id || "")}:${String(q?.text || "").length}` ] joined
    with ["|"]. *)
Definition signaturePart (q : entry) : text :=
  id q ++ lit ":" ++ ofNat (length (text_ q)).

Fixpoint join (sep : text) (parts : list text) : text :=
  match parts with
  | [] => []
  | [p] => p
  | p :: rest => p ++ sep ++ join sep rest
  end.

Definition signature (quotes : list entry) : text :=
  join (lit "|") (map signaturePart quotes).

(** [refreshHighlights()]. [url] is [normalizeUrl(location.href)]; [res] is
    the answer to [getQuotesForUrl]: [None] when the message fails or the
    answer is not [ok], the quotes otherwise. *)
Definition refreshHighlights (url : option text) (res : option (list entry))
    (st : page) : page :=
  match url with
  | None => st
  | Some u =>
      match res with
      | None => st
      | Some quotes =>
          let sig := signature quotes in
          if eqb (lastHighlightUrl st) u && eqb (lastHighlightSignature st) sig
          then st
          else {| lastHighlightUrl := u;
                  lastHighlightSignature := sig;
                  dom := applyHighlights quotes (dom st) |}
      end
  end.

(** [scrollToQuote(payload)]: the state afterwards and the element that is
    scrolled into view, if any. *)
Definition scrollToQuote (url : option text) (res : option (list entry))
    (payload : entry) (st : page) : page * option nat :=
  let qid := id payload in
  let needle := trim (text_ payload) in
  if isEmpty needle then (st, None)
  else
    let byId (s : page) :=
      if isEmpty qid then None else findHighlightSpanById qid (dom s) in
    let '(st1, el1) :=
      match byId st with
      | Some el => (st, Some el)
      | None => let st' := refreshHighlights url res st in (st', byId st')
      end in
    let el2 :=
      match el1 with
      | Some el => Some el
      | None => findHighlightSpanForText needle (dom st1)
      end in
    match el2 with
    | Some el => (st1, Some el)
    | None =>
        let '(d', el3) := highlightEntry payload (dom st1) in
        ({| lastHighlightUrl := lastHighlightUrl st1;
            lastHighlightSignature := lastHighlightSignature st1;
            dom := d' |}, el3)
    end.




End Highlighter.

(** ** The progress tracker *)

Module Progress.
Import Js Double.
Local Open Scope Q_scope.

(** The layout numbers the tracker reads. *)
Record layout := {
  scrollY : Q;
  docScrollTop : Q;
  scrollHeight : Q;
  innerHeight : Q;
  clientHeight : Q }.

(** [a || b] on numbers: 0 is the falsy one. *)
Definition orElse (a b : Q) : Q := if Qeq_bool a 0 then b else a.

(** [Math.max(1, scrollHeight - clientHeight)] *)
Definition denominator (l : layout) : number :=
  let sh := orElse (scrollHeight l) 0 in
  let ch := orElse (innerHeight l) (orElse (clientHeight l) 0) in
  max (Fin 1) (sub (Fin sh) (Fin ch)).

Definition scrollTop (l : layout) : Q :=
  orElse (scrollY l) (orElse (docScrollTop l) 0).

(** [const raw = (scrollTop / denom) * 100; return clampProgress(raw);] *)
Definition computeScrollProgressPercent (l : layout) : Z :=
  let raw := mul (div (Fin (scrollTop l)) (denominator l)) (Fin 100) in
  clampProgress (VNum raw).

(** The [top] of the [scrollToProgress] handler:
    [Math.round((progress / 100) * denom)]. *)
Definition scrollTarget (progress : value) (l : layout) : number :=
  let p := clampProgress progress in
  mathRound (mul (div (Fin (inject_Z p)) (Fin 100)) (denominator l)).

(** [window.scrollTo({ top, left: 0 })], on a page that scrolls that far;
    a [top] that is not finite counts as 0. *)
Definition scrollTo (top : number) (l : layout) : layout :=
  let y := match top with Fin q => q | _ => 0 end in
  {| scrollY := y;
     docScrollTop := y;
     scrollHeight := scrollHeight l;
     innerHeight := innerHeight l;
     clientHeight := clientHeight l |}.

Definition scrollToProgress (progress : value) (l : layout) : layout :=
  scrollTo (scrollTarget progress l) l.

End Progress.

(** ** The service worker: the page, chapter and material messages *)

Module Worker.
Import Js Background.

(** What a handler passes to [sendResponse]: [{ ok: true }],
    [{ ok: true, already: true }], [{ ok: true, removedQuotesCount }],
    [{ ok: true, materialId }] or [{ ok: false, error }]. *)
Inductive reply :=
| Done
| Already
| Removed (removedQuotesCount : nat)
| Created (materialId : string)
| Failed (error : string).

(** [v === true]. *)
Definition isTrue (v : value) : bool :=
  match v with VBool true => true | _ => false end.

(** [typeof v === "string" ? v.trim() : ""]. *)
Definition trimmedString (v : value) : string :=
  match v with
  | VStr s => string_of_list_ascii (Text.trim (list_ascii_of_string s))
  | _ => EmptyString
  end.

(** *** Numbers *)

(** [a - b], of which the sort reads the sign alone: the exact difference,
    whose sign the rounding to a double keeps. *)
Definition sub (a b : number) : number :=
  match a, b with
  | NaN, _ | _, NaN => NaN
  | Fin x, Fin y => Fin (x - y)
  | PosInf, PosInf | NegInf, NegInf => NaN
  | PosInf, _ | _, NegInf => PosInf
  | NegInf, _ | _, PosInf => NegInf
  end.

(** [n > 0]: what tells [Array.prototype.sort] to put the second argument
    of the comparison first. *)
Definition positive (n : number) : bool :=
  match n with
  | Fin q => negb (Qle_bool q 0)
  | PosInf => true
  | _ => false
  end.

(** [Math.max(a, b)]. *)
Definition maxNumber (a b : number) : number :=
  match a, b with
  | NaN, _ | _, NaN => NaN
  | PosInf, _ | _, PosInf => PosInf
  | NegInf, x | x, NegInf => x
  | Fin x, Fin y => if Qle_bool x y then Fin y else Fin x
  end.

(** [n + 1], exact for the whole numbers below 2^53. *)
Definition succ (n : number) : number :=
  match n with
  | Fin q => Fin (q + 1)
  | _ => n
  end.

(** [n || 0]. *)
Definition orZero (n : number) : number :=
  if truthy (VNum n) then n else Fin 0.

Section Handlers.
(** [normalizeUrl], [Number] on a string and the conversion of a number to
    a property key are the platform's; [now] is the value of
    [nowUnixSeconds()] when the message is handled. *)
Variable normalizeUrl : value -> option string.
Variable now : Z.
Variable stringToNumber : string -> number.
Variable numberToString : number -> string.

(** [Number(v)]. *)
Definition toNumber (v : value) : number :=
  match v with
  | VUndefined => NaN
  | VNull => Fin 0
  | VBool b => Fin (if b then 1 else 0)
  | VNum n => n
  | VStr s => stringToNumber s
  end.

(** The key of [data.materials[materialId]]. *)
Definition propertyKey (v : value) : string :=
  match v with
  | VStr s => s
  | VBool true => "true"
  | VBool false => "false"
  | VNull => "null"
  | VUndefined => "undefined"
  | VNum n => numberToString n
  end.

(** *** The page messages *)

Definition withPages (d : data) (pgs : gmap string (gmap string value)) : data :=
  {| materials := materials d; pages := pgs; collections := collections d |}.

(** [["to_read", "reading", "finished"].includes(status)] *)
Definition validStatus (status : value) : bool :=
  match status with
  | VStr s => existsb (String.eqb s) ["to_read"; "reading"; "finished"]%string
  | _ => false
  end.

(** [{ ...existing, status, updatedAt: nowUnixSeconds() }] *)
Definition setPageStatus (url status : value) (d : data) : data * reply :=
  match normalizeUrl url with
  | None => (d, Failed "invalid_url")
  | Some u =>
      if validStatus status then
        let existing := default ∅ (pages d !! u) in
        (withPages d
           (<[u := <["updatedAt"%string := ofZ now]>
                     (<["status"%string := status]> existing)]> (pages d)), Done)
      else (d, Failed "invalid_status")
  end.

(** [{ ...existing, ignoreScrollProgress, updatedAt: nowUnixSeconds() }] *)
Definition setIgnoreScrollProgress (url ignore : value) (d : data) : data * reply :=
  match normalizeUrl url with
  | None => (d, Failed "invalid_url")
  | Some u =>
      let existing := default ∅ (pages d !! u) in
      (withPages d
         (<[u := <["updatedAt"%string := ofZ now]>
                   (<["ignoreScrollProgress"%string := VBool (isTrue ignore)]> existing)]>
            (pages d)), Done)
  end.

(** The record that [setPageFinished] writes: marked finished at 100, or
    with [status] deleted and the scroll progress followed again. *)
Definition finishedRecord (finished : bool) (existing : gmap string value)
    : gmap string value :=
  if finished then
    <["updatedAt"%string := ofZ now]>
      (<["ignoreScrollProgress"%string := VBool true]>
         (<["progress"%string := ofZ 100]>
            (<["status"%string := VStr "finished"]> existing)))
  else
    <["updatedAt"%string := ofZ now]>
      (<["ignoreScrollProgress"%string := VBool false]>
         (delete "status"%string existing)).

Definition setPageFinished (url finished : value) (d : data) : data * reply :=
  match normalizeUrl url with
  | None => (d, Failed "invalid_url")
  | Some u =>
      let existing := default ∅ (pages d !! u) in
      (withPages d (<[u := finishedRecord (isTrue finished) existing]> (pages d)), Done)
  end.

(** *** Chapters *)

(** [Number(c.order) || 0] *)
Definition orderOf (c : chapter) : number :=
  orZero (toNumber (default VUndefined (c_props c !! "order"%string))).

(** [[...chapters].sort((a, b) => (Number(a.order) || 0) - (Number(b.order) || 0))]
    of [normalizeChapters], and of [sortChapters] in the popup: the sort is
    stable, so its result is the one of this insertion sort. *)
Fixpoint insertByOrder (x : chapter) (l : list chapter) : list chapter :=
  match l with
  | [] => [x]
  | y :: l' =>
      if positive (sub (orderOf x) (orderOf y)) then y :: insertByOrder x l'
      else x :: l
  end.

Definition sortChapters (l : list chapter) : list chapter :=
  fold_right insertByOrder [] l.

(** [{ ...c, order: idx + 1 }] *)
Definition setOrder (idx : nat) (c : chapter) : chapter :=
  {| c_url := c_url c;
     c_props := <["order"%string := ofZ (Z.of_nat idx + 1)]> (c_props c) |}.

(** [sorted.map((c, idx) => ({ ...c, order: idx + 1 }))], from index [idx] on. *)
Fixpoint renumber (idx : nat) (l : list chapter) : list chapter :=
  match l with
  | [] => []
  | c :: l' => setOrder idx c :: renumber (S idx) l'
  end.

Definition normalizeChapters (l : list chapter) : list chapter :=
  renumber 0 (sortChapters l).

Definition chapterExists (m : material) (url : string) : bool :=
  existsb (fun c => String.eqb (c_url c) url) (chapters m).

(** [(orders.length ? Math.max(...orders) : 0) + 1] *)
Definition nextChapterOrder (m : material) : number :=
  let orders := map orderOf (chapters m) in
  succ (match orders with
        | [] => Fin 0
        | _ => fold_right maxNumber NegInf orders
        end).

(** *** The store with the quotes *)

(** [material.bookmarks], the quotes of each material, by material id; a
    quote is a plain object [{ id, text, url, timestamp, type }]. *)
Record library := {
  store : data;
  bookmarks : gmap string (list (gmap string value)) }.

Definition withMaterial (l : library) (key : string) (m : material) : library :=
  {| store := {| materials := <[key := m]> (materials (store l));
                 pages := pages (store l);
                 collections := collections (store l) |};
     bookmarks := bookmarks l |}.

Definition withChapters (m : material) (cs : list chapter) : material :=
  {| chapters := cs; m_props := m_props m |}.

(** [if (!materialId || !url)]: the key of the material and the normalized
    URL when both are there. *)
Definition arguments (materialId url : value) : option (string * string) :=
  match normalizeUrl url with
  | Some u => if truthy materialId then Some (propertyKey materialId, u) else None
  | None => None
  end.

(** [{ url, order, progress: clampProgress(pageProgress ?? 0),
       ...(pageTitle ? { title: pageTitle } : {}) }] *)
Definition newChapter (u : string) (order : number)
    (page : option (gmap string value)) : chapter :=
  let pageProgress :=
    match page ≫= (fun p => p !! "progress"%string) with
    | None | Some VUndefined | Some VNull => ofZ 0
    | Some v => v
    end in
  let pageTitle :=
    match page ≫= (fun p => p !! "title"%string) with
    | Some (VStr s) => s
    | _ => EmptyString
    end in
  let base : gmap string value :=
    <["progress"%string := ofZ (clampProgress pageProgress)]>
      (<["order"%string := VNum order]> ∅) in
  {| c_url := u;
     c_props := if truthy (VStr pageTitle)
                then <["title"%string := VStr pageTitle]> base
                else base |}.

(** The material with the page appended as its next chapter, as the
    [addChapter] message and the notification button both build it. *)
Definition appendChapter (m : material) (u : string)
    (pgs : gmap string (gmap string value)) : material :=
  withChapters m (chapters m ++ [newChapter u (nextChapterOrder m) (pgs !! u)]).

Definition addChapter (materialId url : value) (l : library) : library * reply :=
  match arguments materialId url with
  | None => (l, Failed "invalid_args")
  | Some (key, u) =>
      match materials (store l) !! key with
      | None => (l, Failed "material_not_found")
      | Some m =>
          if chapterExists m u then (l, Already)
          else (withMaterial l key (appendChapter m u (pages (store l))), Done)
      end
  end.

(** [normalizeUrl(b?.url) === url] *)
Definition savedOn (u : string) (b : gmap string value) : bool :=
  match normalizeUrl (default VUndefined (b !! "url"%string)) with
  | Some bUrl => String.eqb bUrl u
  | None => false
  end.

Definition deleteChapter (materialId url : value) (l : library) : library * reply :=
  match arguments materialId url with
  | None => (l, Failed "invalid_args")
  | Some (key, u) =>
      match materials (store l) !! key with
      | None => (l, Failed "material_not_found")
      | Some m =>
          let existing := chapters m in
          let filtered := List.filter (fun c => negb (String.eqb (c_url c) u)) existing in
          if length filtered =? length existing then (l, Failed "chapter_not_found")
          else
            let existingBookmarks := default [] (bookmarks l !! key) in
            let nextBookmarks :=
              List.filter (fun b => negb (savedOn u b)) existingBookmarks in
            let removedQuotesCount :=
              length (List.filter (savedOn u) existingBookmarks) in
            ({| store := store (withMaterial l key
                                  (withChapters m (normalizeChapters filtered)));
                bookmarks := <[key := nextBookmarks]> (bookmarks l) |},
             Removed removedQuotesCount)
      end
  end.

(** [if (title) base.title = title; else delete base.title;] *)
Definition retitle (title : string) (c : chapter) : chapter :=
  {| c_url := c_url c;
     c_props := if truthy (VStr title)
                then <["title"%string := VStr title]> (c_props c)
                else delete "title"%string (c_props c) |}.

Definition renameChapter (materialId url title : value) (l : library)
    : library * reply :=
  let title' := trimmedString title in
  match arguments materialId url with
  | None => (l, Failed "invalid_args")
  | Some (key, u) =>
      match materials (store l) !! key with
      | None => (l, Failed "material_not_found")
      | Some m =>
          let existing := chapters m in
          let found := existsb (fun c => String.eqb (c_url c) u) existing in
          let next := map (fun c => if String.eqb (c_url c) u then retitle title' c else c)
                          existing in
          if found
          then (withMaterial l key (withChapters m (normalizeChapters next)), Done)
          else (l, Failed "chapter_not_found")
      end
  end.

(** [['up', 'down'].includes(direction)] *)
Definition validDirection (direction : value) : bool :=
  match direction with
  | VStr s => existsb (String.eqb s) ["up"; "down"]%string
  | _ => false
  end.

(** [direction === 'up' ? idx - 1 : idx + 1] *)
Definition swapWith (direction : value) (idx : nat) : Z :=
  match direction with
  | VStr s => if String.eqb s "up" then Z.of_nat idx - 1 else Z.of_nat idx + 1
  | _ => Z.of_nat idx + 1
  end.

(** [next[idx] = next[swapWith]; next[swapWith] = tmp;] for two indices
    inside the list. *)
Definition swap (i j : nat) (l : list chapter) : list chapter :=
  match l !! i, l !! j with
  | Some tmp, Some other => <[j := tmp]> (<[i := other]> l)
  | _, _ => l
  end.

Definition moveChapter (materialId url direction : value) (l : library)
    : library * reply :=
  match arguments materialId url with
  | None => (l, Failed "invalid_args")
  | Some (key, u) =>
      if validDirection direction then
        match materials (store l) !! key with
        | None => (l, Failed "material_not_found")
        | Some m =>
            let sorted := normalizeChapters (chapters m) in
            match Dom.findIndex (fun c => String.eqb (c_url c) u) sorted with
            | None => (l, Failed "chapter_not_found")
            | Some idx =>
                let j := swapWith direction idx in
                if (j <? 0)%Z || (Z.of_nat (length sorted) <=? j)%Z then (l, Done)
                else
                  let next := swap idx (Z.to_nat j) sorted in
                  (withMaterial l key (withChapters m (normalizeChapters next)), Done)
            end
        end
      else (l, Failed "invalid_direction")
  end.

(** [createMaterial]; [newId] is the value of [makeId("material")]. *)
Definition createMaterial (newId : string) (indexUrl title kind : value)
    (l : library) : library * reply :=
  match normalizeUrl indexUrl with
  | None => (l, Failed "invalid_index_url")
  | Some u =>
      let validKind :=
        match kind with
        | VStr s => existsb (String.eqb s) ["multi"; "single"]%string
        | _ => false
        end in
      if truthy kind && negb validKind then (l, Failed "invalid_kind")
      else
        let title' := trimmedString title in
        let props : gmap string value :=
          <["kind"%string := if truthy kind then kind else VStr "multi"]>
            (<["indexUrl"%string := VStr u]>
               (<["title"%string :=
                    if truthy (VStr title') then VStr title'
                    else VStr "Untitled material"]> ∅)) in
        ({| store := store (withMaterial l newId {| chapters := []; m_props := props |});
            bookmarks := <[newId := []]> (bookmarks l) |}, Created newId)
  end.

Definition deleteMaterial (materialId : value) (l : library) : library * reply :=
  if truthy materialId then
    let key := propertyKey materialId in
    match materials (store l) !! key with
    | None => (l, Failed "material_not_found")
    | Some _ =>
        ({| store := {| materials := delete key (materials (store l));
                        pages := pages (store l);
                        collections := collections (store l) |};
            bookmarks := delete key (bookmarks l) |}, Done)
    end
  else (l, Failed "invalid_args").

(** *** The material a URL belongs to *)

Definition indexUrlOf (m : material) : value :=
  default VUndefined (m_props m !! "indexUrl"%string).

(** [getMaterialUrlScopePrefix(indexUrl)]: the index URL without its
    fragment, the same text as [normalizeUrl]. *)
Definition getMaterialUrlScopePrefix (indexUrl : value) : option string :=
  normalizeUrl indexUrl.

(** [if (!url || !prefix) return false; return url.startsWith(prefix);] *)
Definition isUrlUnderPrefix (url prefix : string) : bool :=
  truthy (VStr url) && truthy (VStr prefix) && String.prefix prefix url.

(** [.sort((a, b) => b.prefix.length - a.prefix.length)], a stable sort. *)
Fixpoint insertByPrefix (x : string * string) (l : list (string * string))
    : list (string * string) :=
  match l with
  | [] => [x]
  | y :: l' =>
      if String.length (snd x) <? String.length (snd y)
      then y :: insertByPrefix x l'
      else x :: l
  end.

(** The [candidates] of [findMatchingMaterial]: the materials whose scope
    prefix the URL starts with, each with its prefix. [entries] is
    [Object.entries(materials)]. *)
Definition matching (entries : list (string * material)) (url : string)
    : list (string * string) :=
  omap (fun e =>
          match getMaterialUrlScopePrefix (indexUrlOf (snd e)) with
          | Some prefix =>
              if truthy (VStr prefix) && isUrlUnderPrefix url prefix
              then Some (fst e, prefix)
              else None
          | None => None
          end) entries.

(** [candidates[0]?.materialId || null] *)
Definition findMatchingMaterial (entries : list (string * material)) (url : string)
    : option string :=
  match fold_right insertByPrefix [] (matching entries url) with
  | [] => None
  | (materialId, _) :: _ => if truthy (VStr materialId) then Some materialId else None
  end.

(** *** The message listener *)

Inductive request :=
| PageProgress (msg : message)
| SetPageStatus (url status : value)
| SetIgnoreScrollProgress (url ignore : value)
| SetPageFinished (url finished : value)
| CreateMaterial (newId : string) (indexUrl title kind : value)
| DeleteMaterial (materialId : value)
| AddChapter (materialId url : value)
| DeleteChapter (materialId url : value)
| RenameChapter (materialId url title : value)
| MoveChapter (materialId url direction : value).

Definition ofResponse (r : response) : reply :=
  match r with
  | Ok => Done
  | Error e => Failed e
  end.

(** A handler that reads and writes [data.pages] and the chapters only. *)
Definition onStore {R : Type} (h : data -> data * R) (l : library) : library * R :=
  ({| store := fst (h (store l)); bookmarks := bookmarks l |}, snd (h (store l))).

Definition handle (r : request) (l : library) : library * reply :=
  match r with
  | PageProgress msg =>
      let '(l', res) := onStore (pageProgress normalizeUrl now msg) l in
      (l', ofResponse res)
  | SetPageStatus url status => onStore (setPageStatus url status) l
  | SetIgnoreScrollProgress url ignore => onStore (setIgnoreScrollProgress url ignore) l
  | SetPageFinished url finished => onStore (setPageFinished url finished) l
  | CreateMaterial newId indexUrl title kind => createMaterial newId indexUrl title kind l
  | DeleteMaterial materialId => deleteMaterial materialId l
  | AddChapter materialId url => addChapter materialId url l
  | DeleteChapter materialId url => deleteChapter materialId url l
  | RenameChapter materialId url title => renameChapter materialId url title l
  | MoveChapter materialId url direction => moveChapter materialId url direction l
  end.

End Handlers.

(** The store after a sequence of messages, each with the time at which it
    is handled. *)
Definition run (normalizeUrl : value -> option string)
    (stringToNumber : string -> number) (numberToString : number -> string)
    (rs : list (Z * request)) (l : library) : library :=
  fold_left
    (fun l r => fst (handle normalizeUrl (fst r) stringToNumber numberToString (snd r) l))
    rs l.

End Worker.

(** ** The content script: reporting the progress, capturing a selection *)

Module Tracker.
Import Js Background Text Locator Progress.

(** [lastSentProgress], and whether [sendTimer] holds a timer. *)
Record tracker := { lastSentProgress : Z; sendTimer : bool }.

(** [let lastSentProgress = -1; let sendTimer = null;] *)
Definition start : tracker := {| lastSentProgress := -1; sendTimer := false |}.

(** [scheduleSendProgress()] up to the timer it sets:
    [if (sendTimer) return; sendTimer = setTimeout(..., 750);] *)
Definition scheduleSendProgress (t : tracker) : tracker :=
  if sendTimer t then t
  else {| lastSentProgress := lastSentProgress t; sendTimer := true |}.

(** The callback of the timer. [url] is [normalizeUrl(location.href)], [l]
    the layout and [title] the [document.title] at that time; the result is
    the state afterwards and the [pageProgress] message sent, if any. *)
Definition timerFires (url : option string) (l : layout) (title : string)
    (t : tracker) : tracker * option message :=
  let idle := {| lastSentProgress := lastSentProgress t; sendTimer := false |} in
  match url with
  | None => (idle, None)
  | Some u =>
      let progress := computeScrollProgressPercent l in
      if (Z.abs (progress - lastSentProgress t) <? 2)%Z then (idle, None)
      else ({| lastSentProgress := progress; sendTimer := false |},
            Some {| msg_url := VStr u;
                    msg_progress := ofZ progress;
                    msg_title := VStr title |})
  end.

(** What happens to the tracker: a call of [scheduleSendProgress] (a scroll
    or resize event, or one of the calls scheduled at load and after
    [scrollToProgress]), or the timer firing; it fires only when set. *)
Inductive event :=
| Scheduled
| TimerFired (url : option string) (l : layout) (title : string).

Definition step (t : tracker) (e : event) : tracker * option message :=
  match e with
  | Scheduled => (scheduleSendProgress t, None)
  | TimerFired url l title =>
      if sendTimer t then timerFires url l title t else (t, None)
  end.

(** The state after a sequence of events, and the messages sent. *)
Fixpoint run (es : list event) (t : tracker) : tracker * list message :=
  match es with
  | [] => (t, [])
  | e :: es' =>
      let '(t', sent) := step t e in
      let '(t'', rest) := run es' t' in
      (t'', match sent with Some m => m :: rest | None => rest end)
  end.

(** What [getSelectedPayload] reads of the selection: its string, and of
    its first range the two boundary points, each with the [nodeValue] of
    its container when that is a text node. *)
Record range := {
  startContainer : option text;
  startOffset : nat;
  endContainer : option text;
  endOffset : nat }.

Record selection := { selectedText : text; firstRange : range }.

(** [getSelectedPayload()]; [None] is for no selection or no range. The
    payload has no id. *)
Definition getSelectedPayload (sel : option selection) : entry :=
  let empty := {| id := []; text_ := []; contextBefore := []; contextAfter := [] |} in
  match sel with
  | None => empty
  | Some s =>
      let text := trim (selectedText s) in
      if isEmpty text then empty
      else
        let r := firstRange s in
        let max := 120 in
        {| id := [];
           text_ := text;
           contextBefore :=
             match startContainer r with
             | Some v => slice v (startOffset r - max) (startOffset r)
             | None => []
             end;
           contextAfter :=
             match endContainer r with
             | Some v => slice v (endOffset r) (Nat.min (length v) (endOffset r + max))
             | None => []
             end |}
  end.

End Tracker.

(** ** The popup: text put into markup *)

Module Popup.
Import Text.

(** [s.replaceAll(c, by)] for a pattern [c] of one code unit. *)
Definition replaceAll (c : ascii) (by_ : text) (s : text) : text :=
  flat_map (fun x => if Ascii.eqb x c then by_ else [x]) s.

(** The five code units that [escapeHtml] replaces; the fourth is the
    double quote. *)
Definition ampersand : ascii := "&"%char.
Definition lessThan : ascii := "<"%char.
Definition greaterThan : ascii := ">"%char.
Definition doubleQuote : ascii := ascii_of_N 34.
Definition apostrophe : ascii := "'"%char.

(** [escapeHtml(str)], on the string that [String(str)] gives. *)
Definition escapeHtml (str : text) : text :=
  replaceAll apostrophe (lit "&#39;")
    (replaceAll doubleQuote (lit "&quot;")
       (replaceAll greaterThan (lit "&gt;")
          (replaceAll lessThan (lit "&lt;")
             (replaceAll ampersand (lit "&amp;") str)))).

End Popup.

(** * Properties *)

(** ** The [pageProgress] handler *)

Module BackgroundSpec.
Import Js Background.

(** The title written by the handler: the incoming one when it is a
    non-empty string, else the stored one when it is truthy, else [""]. *)
Definition writtenTitle (existing : gmap string value) (msg : message) : value :=
  let kept :=
    match existing !! "title"%string with
    | Some old => if truthy old then old else VStr EmptyString
    | None => VStr EmptyString
    end in
  match msg_title msg with
  | VStr s => if String.eqb s EmptyString then kept else VStr s
  | _ => kept
  end.

Definition ignoresScroll (existing : gmap string value) : bool :=
  match existing !! "ignoreScrollProgress"%string with
  | Some (VBool true) => true
  | _ => false
  end.

Lemma nextRecord_frame now existing msg (k : string) :
  k ≠ "progress"%string -> k ≠ "title"%string -> k ≠ "updatedAt"%string ->
  nextRecord now existing msg !! k = existing !! k.
Proof.
  intros Hp Ht Hu. unfold nextRecord.
  rewrite lookup_insert_ne by congruence.
  rewrite lookup_insert_ne by congruence.
  destruct (match existing !! "ignoreScrollProgress"%string with
            | Some (VBool true) => true | _ => false end); [reflexivity|].
  rewrite lookup_insert_ne by congruence. reflexivity.
Qed.

Lemma nextRecord_progress now existing msg :
  nextRecord now existing msg !! "progress"%string =
  if ignoresScroll existing then existing !! "progress"%string
  else Some (ofZ (clampProgress (msg_progress msg))).
Proof.
  unfold nextRecord, ignoresScroll.
  rewrite lookup_insert_ne by discriminate.
  rewrite lookup_insert_ne by discriminate.
  destruct (match existing !! "ignoreScrollProgress"%string with
            | Some (VBool true) => true | _ => false end); [reflexivity|].
  apply lookup_insert_eq.
Qed.

Lemma nextRecord_title now existing msg :
  nextRecord now existing msg !! "title"%string = Some (writtenTitle existing msg).
Proof.
  unfold nextRecord, writtenTitle.
  rewrite lookup_insert_ne by discriminate.
  rewrite lookup_insert_eq. f_equal.
  destruct (msg_title msg) as [| |b|n|s]; simpl;
    try (destruct (existing !! "title"%string) as [old|]; simpl; reflexivity).
  destruct (String.eqb s EmptyString); simpl; [|reflexivity].
  destruct (existing !! "title"%string) as [old|]; reflexivity.
Qed.

Lemma nextRecord_updatedAt now existing msg :
  nextRecord now existing msg !! "updatedAt"%string = Some (ofZ now).
Proof. unfold nextRecord. apply lookup_insert_eq. Qed.

(** C10. For a [pageProgress] message whose URL normalizes to [url], the
    record stored under [url] afterwards keeps the stored progress when the
    stored [ignoreScrollProgress] is [true] and otherwise holds the clamped
    incoming progress; its title and [updatedAt] are written in both cases,
    every other property of the record is the stored one, and the records
    of the other pages are untouched. *)
Theorem pageProgress_record normalizeUrl now msg d url :
  normalizeUrl (msg_url msg) = Some url ->
  let existing := default ∅ (pages d !! url) in
  let d' := fst (pageProgress normalizeUrl now msg d) in
  snd (pageProgress normalizeUrl now msg d) = Ok /\
  (forall other : string, other ≠ url -> pages d' !! other = pages d !! other) /\
  exists r : gmap string value,
    pages d' !! url = Some r /\
    (ignoresScroll existing = true ->
       r !! "progress"%string = existing !! "progress"%string) /\
    (ignoresScroll existing = false ->
       r !! "progress"%string = Some (ofZ (clampProgress (msg_progress msg)))) /\
    r !! "title"%string = Some (writtenTitle existing msg) /\
    r !! "updatedAt"%string = Some (ofZ now) /\
    (forall k : string,
       k ≠ "progress"%string -> k ≠ "title"%string -> k ≠ "updatedAt"%string ->
       r !! k = existing !! k).
Proof.
  intros Hurl existing d'. subst d'. unfold pageProgress. rewrite Hurl. simpl.
  split; [reflexivity|]. split.
  - intros other Hne. apply lookup_insert_ne. congruence.
  - exists (nextRecord now existing msg). split; [apply lookup_insert_eq|].
    split; [|split; [|split; [|split]]].
    + intros Hi. rewrite nextRecord_progress, Hi. reflexivity.
    + intros Hi. rewrite nextRecord_progress, Hi. reflexivity.
    + apply nextRecord_title.
    + apply nextRecord_updatedAt.
    + intros k. apply nextRecord_frame.
Qed.

(** A page finished by the user ([ignoreScrollProgress] set, progress 100,
    a status) receives a scroll report of 37 percent. *)
Definition finishedPage : gmap string value :=
  <["status"%string := VStr "finished"]>
    (<["progress"%string := ofZ 100]>
       (<["ignoreScrollProgress"%string := VBool true]> ∅)).

Definition demoData : data :=
  {| materials := ∅;
     pages := <["https://example.org/a"%string := finishedPage]> ∅;
     collections := ∅ |}.

Definition demoMessage : message :=
  {| msg_url := VStr "https://example.org/a";
     msg_progress := VNum (Fin (37 # 1));
     msg_title := VStr "Chapter A" |}.

Definition demoNormalize (v : value) : option string :=
  match v with VStr s => Some s | _ => None end.

Lemma pageProgress_record_witness :
  demoNormalize (msg_url demoMessage) = Some "https://example.org/a"%string /\
  let d' := fst (pageProgress demoNormalize 1700000000 demoMessage demoData) in
  exists r : gmap string value,
    pages d' !! "https://example.org/a"%string = Some r /\
    r !! "progress"%string = Some (ofZ 100) /\
    r !! "title"%string = Some (VStr "Chapter A") /\
    r !! "status"%string = Some (VStr "finished").
Proof.
  split; [reflexivity|].
  destruct (pageProgress_record demoNormalize 1700000000 demoMessage demoData
              "https://example.org/a" eq_refl)
    as (_ & _ & r & Hr & Hkeep & _ & Htitle & _ & Hframe).
  exists r. split; [exact Hr|]. split; [|split].
  - rewrite Hkeep by reflexivity. reflexivity.
  - rewrite Htitle. reflexivity.
  - rewrite Hframe by discriminate. reflexivity.
Defined.

End BackgroundSpec.


(** ** Page text *)

Module TextSpec.
Import Text.

Lemma eqb_eq (a b : text) : eqb a b = true <-> a = b.
Proof.
  revert b. induction a as [|x a IH]; intros [|y b]; simpl; split;
    try discriminate; try reflexivity.
  - intros H. apply andb_true_iff in H as [Hx Hab].
    apply Ascii.eqb_eq in Hx. apply IH in Hab. congruence.
  - intros H. injection H as -> ->. apply andb_true_iff. split.
    + apply Ascii.eqb_refl.
    + apply IH. reflexivity.
Qed.

Lemma eqb_refl (a : text) : eqb a a = true.
Proof. apply eqb_eq. reflexivity. Qed.

Lemma isEmpty_true (s : text) : isEmpty s = true <-> s = [].
Proof. destruct s; simpl; split; congruence. Qed.

Lemma isEmpty_length (s : text) : isEmpty s = true <-> length s = 0.
Proof. destruct s; simpl; split; congruence. Qed.

Lemma toLowerCase_length (s : text) : length (toLowerCase s) = length s.
Proof. apply length_map. Qed.

(** [startsWith] is the prefix relation. *)
Lemma startsWith_spec (s p : text) :
  startsWith s p = true <-> exists r, s = p ++ r.
Proof.
  revert s. induction p as [|y p IH]; intros s; simpl.
  - split; [intros _; exists s; reflexivity | reflexivity].
  - destruct s as [|x s].
    + split; [discriminate | intros [r Hr]; discriminate].
    + rewrite andb_true_iff, Ascii.eqb_eq, IH. split.
      * intros [-> [r ->]]. exists r. reflexivity.
      * intros [r Hr]. injection Hr as -> ->. split; [reflexivity | exists r; reflexivity].
Qed.

Lemma startsWith_firstn (s p : text) :
  startsWith s p = true <-> firstn (length p) s = p.
Proof.
  rewrite startsWith_spec. split.
  - intros [r ->]. rewrite firstn_app, Nat.sub_diag, firstn_all. simpl.
    apply app_nil_r.
  - intros H. exists (skipn (length p) s). rewrite <- H at 1.
    symmetry. apply firstn_skipn.
Qed.

(** [endsWith] is the suffix relation. *)
Lemma endsWith_spec (s p : text) :
  endsWith s p = true <-> exists r, s = r ++ p.
Proof.
  unfold endsWith. rewrite startsWith_spec. split.
  - intros [r Hr]. exists (rev r).
    rewrite <- (rev_involutive s), Hr, rev_app_distr, rev_involutive. reflexivity.
  - intros [r ->]. exists (rev r). apply rev_app_distr.
Qed.

Lemma commonPrefixLength_le_r (a b : text) : commonPrefixLength a b <= length b.
Proof.
  revert b. induction a as [|x a IH]; intros [|y b]; simpl; try lia.
  destruct (Ascii.eqb x y); [specialize (IH b)|]; lia.
Qed.

(** The common prefix is all of [b] exactly when [a] starts with [b]. *)
Lemma commonPrefixLength_full (a b : text) :
  commonPrefixLength a b = length b <-> startsWith a b = true.
Proof.
  revert b. induction a as [|x a IH]; intros [|y b]; simpl;
    try (split; (reflexivity || discriminate)).
  destruct (Ascii.eqb x y); simpl.
  - rewrite <- IH. split; lia.
  - split; discriminate.
Qed.

Lemma commonSuffixLength_le_r (a b : text) : commonSuffixLength a b <= length b.
Proof.
  unfold commonSuffixLength. rewrite <- (length_rev b). apply commonPrefixLength_le_r.
Qed.

Lemma commonSuffixLength_full (a b : text) :
  commonSuffixLength a b = length b <-> endsWith a b = true.
Proof.
  unfold commonSuffixLength, endsWith. rewrite <- (length_rev b).
  apply commonPrefixLength_full.
Qed.

(** [needle] occurs in [s] at position [k]. *)
Definition occursAt (needle s : text) (k : nat) : Prop :=
  firstn (length needle) (skipn k s) = needle.

Lemma occursAt_bound (needle s : text) (k : nat) :
  needle <> [] -> occursAt needle s k -> k + length needle <= length s.
Proof.
  unfold occursAt. intros Hne H. apply (f_equal (@length ascii)) in H.
  rewrite length_firstn, length_skipn in H.
  assert (1 <= length needle) by (destruct needle; [congruence | simpl; lia]).
  lia.
Qed.

Lemma search_sound (needle s : text) (pos k : nat) :
  search needle s pos = Some k ->
  pos <= k /\ occursAt needle s (k - pos) /\
  forall j, pos <= j < k -> ~ occursAt needle s (j - pos).
Proof.
  revert pos. induction s as [|c s IH]; intros pos; simpl.
  - destruct (startsWith [] needle) eqn:E; [|discriminate].
    intros [= <-]. rewrite Nat.sub_diag. split; [lia|]. split.
    + apply startsWith_firstn in E. exact E.
    + intros j Hj. lia.
  - destruct (startsWith (c :: s) needle) eqn:E.
    + intros [= <-]. rewrite Nat.sub_diag. split; [lia|]. split.
      * apply startsWith_firstn in E. exact E.
      * intros j Hj. lia.
    + intros H. apply IH in H as (Hle & Hocc & Hmin). split; [lia|]. split.
      * unfold occursAt in *. replace (k - pos) with (S (k - S pos)) by lia. exact Hocc.
      * intros j Hj Hj'. destruct (Nat.eq_dec j pos) as [->|Hne].
        -- rewrite Nat.sub_diag in Hj'. unfold occursAt in Hj'. simpl skipn in Hj'.
           apply startsWith_firstn in Hj'. congruence.
        -- apply (Hmin j); [lia|]. unfold occursAt in *.
           replace (j - pos) with (S (j - S pos)) in Hj' by lia. exact Hj'.
Qed.

Lemma search_none (needle s : text) (pos : nat) :
  search needle s pos = None -> forall j, ~ occursAt needle s j.
Proof.
  revert pos. induction s as [|c s IH]; intros pos; simpl.
  - destruct (startsWith [] needle) eqn:E; [discriminate|]. intros _ j Hj.
    unfold occursAt in Hj. rewrite skipn_nil in Hj.
    apply startsWith_firstn in Hj. congruence.
  - destruct (startsWith (c :: s) needle) eqn:E; [discriminate|].
    intros H j Hj. destruct j as [|j].
    + unfold occursAt in Hj. simpl skipn in Hj.
      apply startsWith_firstn in Hj. congruence.
    + apply (IH _ H j). exact Hj.
Qed.

(** [indexOf] returns the first occurrence at or after [from]. *)
Lemma indexOf_some (s needle : text) (from k : nat) :
  needle <> [] ->
  indexOf s needle from = Some k ->
  from <= k /\ occursAt needle s k /\
  forall j, from <= j < k -> ~ occursAt needle s j.
Proof.
  unfold indexOf. intros Hne H. apply search_sound in H as (Hle & Hocc & Hmin).
  set (f := Nat.min from (length s)) in *.
  assert (Hskip : forall j, f <= j ->
            occursAt needle (skipn f s) (j - f) <-> occursAt needle s j).
  { intros j Hj. unfold occursAt. rewrite skipn_skipn.
    replace (j - f + f) with j by lia. reflexivity. }
  apply Hskip in Hocc; [|lia].
  assert (Hb := occursAt_bound _ _ _ Hne Hocc).
  assert (Hlen : 1 <= length needle) by (destruct needle; [congruence | simpl; lia]).
  assert (Hf : f = from) by lia.
  rewrite Hf in *. split; [lia|]. split; [exact Hocc|].
  intros j Hj Hj'. apply (Hmin j Hj). apply Hskip; [lia | exact Hj'].
Qed.

Lemma indexOf_none (s needle : text) (from : nat) :
  needle <> [] ->
  indexOf s needle from = None ->
  forall j, from <= j -> ~ occursAt needle s j.
Proof.
  unfold indexOf. intros Hne H j Hj Hocc.
  assert (Hb := occursAt_bound _ _ _ Hne Hocc).
  set (f := Nat.min from (length s)) in *.
  apply (search_none _ _ _ H (j - f)). unfold occursAt.
  rewrite skipn_skipn. replace (j - f + f) with j by lia. exact Hocc.
Qed.

(** *** Trimming *)

Lemma trimStart_fixed (t : text) :
  match t with [] => True | c :: _ => isSpace c = false end -> trimStart t = t.
Proof. destruct t as [|c r]; [reflexivity|]. cbn. intros ->. reflexivity. Qed.

Lemma trimStart_head (s : text) :
  match trimStart s with [] => True | c :: _ => isSpace c = false end.
Proof.
  induction s as [|c s IH]; [exact I|]. cbn.
  destruct (isSpace c) eqn:E; [exact IH|exact E].
Qed.

Lemma trimStart_split (s : text) :
  exists w, s = w ++ trimStart s /\ forallb isSpace w = true.
Proof.
  induction s as [|c s (w & Hw & Hsp)].
  - exists []. split; reflexivity.
  - cbn. destruct (isSpace c) eqn:E.
    + exists (c :: w). cbn. rewrite E, Hsp. split; [f_equal; exact Hw|reflexivity].
    + exists []. split; reflexivity.
Qed.

(** Trimming at the start keeps a last code unit that is no white space. *)
Lemma trimStart_last (r : text) (c : ascii) :
  isSpace c = false -> exists r', trimStart (r ++ [c]) = r' ++ [c].
Proof.
  intros Hc. induction r as [|x r (r' & IH)].
  - exists []. cbn. rewrite Hc. reflexivity.
  - cbn. destruct (isSpace x).
    + exists r'. exact IH.
    + exists (x :: r). reflexivity.
Qed.

Lemma trim_head (s : text) :
  match trim s with [] => True | c :: _ => isSpace c = false end /\
  match rev (trim s) with [] => True | c :: _ => isSpace c = false end.
Proof.
  unfold trim, trimEnd. rewrite rev_involutive. split; [|apply trimStart_head].
  assert (Ha := trimStart_head s). destruct (trimStart s) as [|c r]; [exact I|].
  cbn [rev]. destruct (trimStart_last (rev r) c Ha) as (r' & ->).
  rewrite rev_app_distr. cbn. exact Ha.
Qed.

Lemma trim_trim (s : text) : trim (trim s) = trim s.
Proof.
  destruct (trim_head s) as [H1 H2].
  unfold trim at 1. rewrite (trimStart_fixed _ H1).
  unfold trimEnd. rewrite (trimStart_fixed _ H2). apply rev_involutive.
Qed.

(** The trimmed string, inside the string: what is cut off at the two ends
    is white space. *)
Lemma trim_split (s : text) :
  exists w1 w2,
    s = w1 ++ trim s ++ w2 /\
    length w1 = length s - length (trimStart s) /\
    forallb isSpace w1 = true /\ forallb isSpace w2 = true.
Proof.
  destruct (trimStart_split s) as (w1 & Hs & Hw1).
  destruct (trimStart_split (rev (trimStart s))) as (w2 & Hr & Hw2).
  exists w1, (rev w2). split; [|split; [|split]].
  - rewrite Hs at 1. f_equal. unfold trim, trimEnd.
    rewrite <- rev_app_distr, <- Hr, rev_involutive. reflexivity.
  - apply (f_equal (@length ascii)) in Hs. rewrite length_app in Hs. lia.
  - exact Hw1.
  - rewrite forallb_forall in *. intros x Hx. apply Hw2, in_rev. exact Hx.
Qed.

End TextSpec.


(** ** The Locator *)

Module LocatorSpec.
Import Text TextSpec Locator.

(** An occurrence scored by the scan: the match it would return, its score,
    whether it is a perfect context hit for the early return, and whether
    both context comparisons are exact (an empty context is trivially so). *)
Record candidate := {
  c_found : found;
  c_score : Z;
  c_perfect : bool;
  c_exact : bool }.

(** Keeping the best: [if (score > bestScore) { ...; if (perfect) return best; }]
    over a list of scored occurrences. *)
Fixpoint pick (l : list candidate) (best : option found) (bestScore : Z) : outcome :=
  match l with
  | [] => Continue best bestScore
  | c :: l' =>
      let improves := (bestScore <? c_score c)%Z in
      if improves && c_perfect c then Return (c_found c)
      else pick l' (if improves then Some (c_found c) else best)
                   (if improves then c_score c else bestScore)
  end.

Definition finish (o : outcome) : option found :=
  match o with
  | Return m => Some m
  | Continue best _ => best
  end.

Section Scan.
Variable needle needleLower before after : text.

(** The positions at which the inner loop scores an occurrence: the same
    stepping through [indexOf] as [scanNode], without the best-so-far. *)
Fixpoint scored (budget : nat) (lower : text) (fromIndex : nat) : list nat :=
  match indexOf lower needleLower fromIndex with
  | None => []
  | Some idx =>
      match budget with
      | O => []
      | S budget' =>
          let fromIndex' := idx + Nat.max 1 (length needleLower) in
          idx :: (if length lower <=? fromIndex' then []
                  else scored budget' lower fromIndex')
      end
  end.

Definition exactAt (lower : text) (idx : nat) : bool :=
  endsWith (slice lower 0 idx) before
  && startsWith (sliceFrom lower (idx + length needle)) after.

Definition candidateAt (node : nat) (lower : text) (idx : nat) : candidate :=
  {| c_found := {| m_node := node; m_start := idx; m_end := idx + length needle |};
     c_score := scoreAt needle before after lower idx;
     c_perfect := perfectAt needle before after lower idx;
     c_exact := exactAt lower idx |}.

(** The candidates of one text node, and of the walk from the node of rank
    [visited] on. *)
Definition nodeCandidates (rank : nat) (n : textNode) : list candidate :=
  if skippable n || (length (nodeValue n) <? 3) then []
  else map (candidateAt rank (toLowerCase (nodeValue n)))
           (scored 250 (toLowerCase (nodeValue n)) 0).

Fixpoint candidatesFrom (visited : nat) (nodes : list textNode) : list candidate :=
  match nodes with
  | [] => []
  | n :: rest =>
      if (25000 <? N.of_nat (S visited))%N then []
      else nodeCandidates visited n ++ candidatesFrom (S visited) rest
  end.

(** The largest score an occurrence can reach. *)
Definition maxScore : Z :=
  (if isEmpty before then 0 else Z.of_nat (length before) + 50)
  + (if isEmpty after then 0 else Z.of_nat (length after) + 50).

Definition wellScored (c : candidate) : Prop :=
  (0 <= c_score c <= maxScore)%Z /\
  (c_exact c = true -> c_score c = maxScore) /\
  (c_exact c = false -> (c_score c < maxScore)%Z) /\
  (c_perfect c = true -> c_exact c = true).

Lemma scanNode_pick budget node lower from best bs :
  scanNode needle needleLower before after budget node lower from best bs
  = pick (map (candidateAt node lower) (scored budget lower from)) best bs.
Proof.
  revert from best bs. induction budget as [|b IH]; intros from best bs; simpl.
  - destruct (indexOf lower needleLower from); reflexivity.
  - destruct (indexOf lower needleLower from) as [idx|]; [|reflexivity].
    simpl. destruct ((bs <? scoreAt needle before after lower idx)%Z
                     && perfectAt needle before after lower idx); [reflexivity|].
    destruct (length lower <=? idx + Nat.max 1 (length needleLower)); [reflexivity|].
    apply IH.
Qed.

Lemma pick_app l1 l2 best bs :
  pick (l1 ++ l2) best bs =
  match pick l1 best bs with
  | Return m => Return m
  | Continue best' bs' => pick l2 best' bs'
  end.
Proof.
  revert best bs. induction l1 as [|c l1 IH]; intros best bs; simpl; [reflexivity|].
  destruct ((bs <? c_score c)%Z && c_perfect c); [reflexivity|]. apply IH.
Qed.

Lemma walk_pick nodes visited best bs :
  walk needle needleLower before after nodes visited best bs
  = finish (pick (candidatesFrom visited nodes) best bs).
Proof.
  revert visited best bs.
  induction nodes as [|n rest IH]; intros visited best bs; cbn [walk candidatesFrom].
  - reflexivity.
  - destruct (25000 <? N.of_nat (S visited))%N; [reflexivity|].
    unfold nodeCandidates. destruct (skippable n); cbn [orb app]; [apply IH|].
    destruct (length (nodeValue n) <? 3); cbn [app]; [apply IH|].
    rewrite pick_app, scanNode_pick.
    destruct (pick _ best bs) as [m|best' bs']; [reflexivity | apply IH].
Qed.

Lemma scored_length budget lower from : length (scored budget lower from) <= budget.
Proof.
  revert from. induction budget as [|b IH]; intros from; simpl.
  - destruct (indexOf lower needleLower from); simpl; lia.
  - destruct (indexOf lower needleLower from) as [idx|]; simpl; [|lia].
    destruct (length lower <=? idx + Nat.max 1 (length needleLower)); simpl.
    + lia.
    + specialize (IH (idx + Nat.max 1 (length needleLower))). lia.
Qed.

Lemma nodeCandidates_length rank n : length (nodeCandidates rank n) <= 250.
Proof.
  unfold nodeCandidates. destruct (skippable n || (length (nodeValue n) <? 3)).
  - simpl. lia.
  - rewrite length_map. apply scored_length.
Qed.

(** Every scored position is an occurrence of the needle. *)
Lemma scored_sound budget lower from k :
  needleLower <> [] ->
  In k (scored budget lower from) -> from <= k /\ occursAt needleLower lower k.
Proof.
  intros Hne. revert from. induction budget as [|b IH]; intros from; simpl.
  - destruct (indexOf lower needleLower from); intros [].
  - destruct (indexOf lower needleLower from) as [idx|] eqn:E; [|intros []].
    apply indexOf_some in E as (Hle & Hocc & _); [|exact Hne].
    intros [<-|Hin]; [split; assumption|].
    destruct (length lower <=? idx + Nat.max 1 (length needleLower)); [destruct Hin|].
    apply IH in Hin as [Hle' Hocc']. split; [lia | exact Hocc'].
Qed.

(** *** Scores *)

Lemma beforeScore_bounds pre :
  let top := (if isEmpty before then 0 else Z.of_nat (length before) + 50)%Z in
  (0 <= beforeScore before pre <= top)%Z /\
  (endsWith pre before = true -> beforeScore before pre = top) /\
  (endsWith pre before = false -> (beforeScore before pre < top)%Z).
Proof.
  unfold beforeScore. destruct (isEmpty before) eqn:E; simpl.
  - apply isEmpty_true in E. subst before. unfold endsWith. simpl.
    repeat split; first [lia | discriminate].
  - assert (Hle := commonSuffixLength_le_r pre before).
    assert (Hfull := commonSuffixLength_full pre before).
    destruct (endsWith pre before).
    + assert (commonSuffixLength pre before = length before) by (apply Hfull; reflexivity).
      repeat split; first [lia | discriminate].
    + repeat split; first [lia | discriminate].
Qed.

Lemma afterScore_bounds post :
  let top := (if isEmpty after then 0 else Z.of_nat (length after) + 50)%Z in
  (0 <= afterScore after post <= top)%Z /\
  (startsWith post after = true -> afterScore after post = top) /\
  (startsWith post after = false -> (afterScore after post < top)%Z).
Proof.
  unfold afterScore. destruct (isEmpty after) eqn:E; simpl.
  - apply isEmpty_true in E. subst after. simpl.
    repeat split; first [lia | discriminate].
  - assert (Hle := commonPrefixLength_le_r post after).
    assert (Hfull := commonPrefixLength_full post after).
    destruct (startsWith post after).
    + assert (commonPrefixLength post after = length after) by (apply Hfull; reflexivity).
      repeat split; first [lia | discriminate].
    + repeat split; first [lia | discriminate].
Qed.

Lemma candidateAt_wellScored node lower idx : wellScored (candidateAt node lower idx).
Proof.
  unfold wellScored, candidateAt, scoreAt, perfectAt, exactAt, maxScore. simpl.
  destruct (beforeScore_bounds (slice lower 0 idx)) as (Hb & Hbt & Hbf).
  destruct (afterScore_bounds (sliceFrom lower (idx + length needle))) as (Ha & Hat & Haf).
  simpl in *.
  destruct (endsWith (slice lower 0 idx) before);
    destruct (startsWith (sliceFrom lower (idx + length needle)) after); simpl;
    repeat split; intros; try discriminate; try lia;
    try (rewrite ?andb_false_r in *; simpl in *; discriminate).
Qed.

Lemma nodeCandidates_wellScored rank n : Forall wellScored (nodeCandidates rank n).
Proof.
  unfold nodeCandidates. destruct (skippable n || (length (nodeValue n) <? 3)).
  - constructor.
  - apply List.Forall_forall. intros c Hc. apply in_map_iff in Hc as (k & <- & _).
    apply candidateAt_wellScored.
Qed.

Lemma candidatesFrom_wellScored visited nodes :
  Forall wellScored (candidatesFrom visited nodes).
Proof.
  revert visited. induction nodes as [|n rest IH]; intros visited; simpl.
  - constructor.
  - destruct (25000 <? N.of_nat (S visited))%N; [constructor|].
    apply Forall_app. split; [apply nodeCandidates_wellScored | apply IH].
Qed.

(** *** Keeping the best *)

(** With nothing above the current best score, the current best stays. *)
Lemma pick_keeps l best bs :
  Forall (fun c => (c_score c <= bs)%Z) l -> pick l best bs = Continue best bs.
Proof.
  induction 1 as [|c l Hc _ IH]; simpl; [reflexivity|].
  replace (bs <? c_score c)%Z with false by (symmetry; apply Z.ltb_ge; exact Hc).
  simpl. exact IH.
Qed.

(** The result is the first candidate of maximal score, when one beats the
    current best. *)
Lemma pick_first_max l best bs :
  Forall wellScored l ->
  (finish (pick l best bs) = best /\ Forall (fun c => (c_score c <= bs)%Z) l) \/
  (exists l1 c l2,
      l = l1 ++ c :: l2 /\
      finish (pick l best bs) = Some (c_found c) /\
      (bs < c_score c)%Z /\
      Forall (fun x => (c_score x < c_score c)%Z) l1 /\
      Forall (fun x => (c_score x <= c_score c)%Z) l2).
Proof.
  intros Hwf. revert best bs. induction Hwf as [|c l Hc Hl IH]; intros best bs; simpl.
  - left. split; [reflexivity | constructor].
  - destruct (bs <? c_score c)%Z eqn:Himp; simpl.
    + apply Z.ltb_lt in Himp. right.
      assert (Hstay : forall l2 : list candidate, Forall wellScored l2 ->
                c_score c = maxScore ->
                Forall (fun x => (c_score x <= c_score c)%Z) l2).
      { intros l2 H2 Hmax. eapply List.Forall_impl; [|exact H2].
        intros x (Hx & _). simpl. lia. }
      destruct (c_perfect c) eqn:Hperf.
      * exists [], c, l. simpl. repeat split; try assumption; try constructor.
        apply Hstay; [exact Hl|]. destruct Hc as (_ & He & _ & Hp).
        apply He, Hp, Hperf.
      * destruct (IH (Some (c_found c)) (c_score c)) as [[Hres Hall]|(l1 & c' & l2 & -> & Hres & Hlt & H1 & H2)].
        -- exists [], c, l. simpl. repeat split; try assumption; constructor.
        -- exists (c :: l1), c', l2. simpl. repeat split; try assumption; try lia.
           constructor; assumption.
    + apply Z.ltb_ge in Himp.
      destruct (IH best bs) as [[Hres Hall]|(l1 & c' & l2 & -> & Hres & Hlt & H1 & H2)].
      * left. split; [exact Hres | constructor; assumption].
      * right. exists (c :: l1), c', l2. simpl. repeat split; try assumption.
        constructor; [lia | assumption].
Qed.

(** The first candidate with both contexts exact is returned. *)
Lemma pick_first_exact l1 c l2 best bs :
  Forall wellScored (l1 ++ c :: l2) ->
  Forall (fun x => c_exact x = false) l1 ->
  c_exact c = true ->
  (bs < maxScore)%Z ->
  finish (pick (l1 ++ c :: l2) best bs) = Some (c_found c).
Proof.
  revert best bs. induction l1 as [|x l1 IH]; intros best bs Hwf Hno Hex Hbs; simpl.
  - inversion Hwf as [|? ? Hc Hl]; subst.
    destruct Hc as (Hrange & Hmax & _ & _). specialize (Hmax Hex).
    replace (bs <? c_score c)%Z with true by (symmetry; apply Z.ltb_lt; lia).
    simpl. destruct (c_perfect c); [reflexivity|].
    rewrite pick_keeps; [reflexivity|].
    eapply List.Forall_impl; [|exact Hl]. intros y (Hy & _). simpl. lia.
  - inversion Hwf as [|? ? Hx Hl]; subst. inversion Hno as [|? ? Hxe Hno']; subst.
    destruct Hx as (Hrange & _ & Hlt & Hp).
    specialize (Hlt Hxe).
    assert (Hnp : c_perfect x = false).
    { destruct (c_perfect x); [|reflexivity]. specialize (Hp eq_refl). congruence. }
    rewrite Hnp, andb_false_r. apply IH; try assumption.
    destruct (bs <? c_score x)%Z; lia.
Qed.

(** *** The early return *)

(** A scored occurrence with both contexts exact, the contexts being there,
    ends the inner loop at once when it beats the best score so far. *)
Lemma scanNode_returns budget node lower from best bs idx :
  before <> [] -> after <> [] ->
  indexOf lower needleLower from = Some idx ->
  endsWith (slice lower 0 idx) before = true ->
  startsWith (sliceFrom lower (idx + length needle)) after = true ->
  (bs < maxScore)%Z ->
  scanNode needle needleLower before after (S budget) node lower from best bs
  = Return {| m_node := node; m_start := idx; m_end := idx + length needle |}.
Proof.
  intros Hb Ha Hidx Hpre Hpost Hbs. cbn [scanNode]. rewrite Hidx. cbv zeta.
  destruct (candidateAt_wellScored node lower idx) as (_ & Hmax & _).
  unfold candidateAt, exactAt in Hmax. cbn [c_exact c_score] in Hmax.
  rewrite Hpre, Hpost in Hmax. rewrite (Hmax eq_refl).
  replace (bs <? maxScore)%Z with true by (symmetry; apply Z.ltb_lt; exact Hbs).
  unfold perfectAt. rewrite Hpre, Hpost.
  destruct before; [congruence|]. destruct after; [congruence|]. reflexivity.
Qed.

(** While the loop goes on, the best score is below the maximal one. *)
Lemma pick_below l best bs best' bs' :
  Forall wellScored l ->
  Forall (fun c => c_exact c = true -> c_perfect c = true) l ->
  (bs < maxScore)%Z ->
  pick l best bs = Continue best' bs' -> (bs' < maxScore)%Z.
Proof.
  intros Hwf. revert best bs. induction Hwf as [|c l Hc _ IH]; intros best bs Hp Hbs; cbn.
  - intros [= _ <-]. exact Hbs.
  - apply Forall_inv_tail in Hp as Hl. apply Forall_inv in Hp.
    destruct Hc as (Hrange & Hmax & Hlt & _).
    destruct (bs <? c_score c)%Z eqn:Himp; cbn [andb].
    + destruct (c_perfect c) eqn:Hperf; [discriminate|].
      apply IH; [exact Hl|]. destruct (c_exact c); [|exact (Hlt eq_refl)].
      specialize (Hp eq_refl). congruence.
    + apply IH; assumption.
Qed.

Lemma scanNode_below budget node lower from best bs best' bs' :
  before <> [] -> after <> [] ->
  (bs < maxScore)%Z ->
  scanNode needle needleLower before after budget node lower from best bs
  = Continue best' bs' ->
  (bs' < maxScore)%Z.
Proof.
  intros Hb Ha Hbs. rewrite scanNode_pick. apply pick_below; [| |exact Hbs].
  - apply List.Forall_forall. intros c Hc. apply in_map_iff in Hc as (k & <- & _).
    apply candidateAt_wellScored.
  - apply List.Forall_forall. intros c Hc. apply in_map_iff in Hc as (k & <- & _).
    unfold candidateAt, exactAt, perfectAt. cbn [c_exact c_perfect].
    destruct before; [congruence|]. destruct after; [congruence|]. cbn [isEmpty negb andb].
    intros H. exact H.
Qed.

(** What the inner loop returns, the walk returns, whatever follows. *)
Lemma walk_returns nd rest visited best bs m :
  (N.of_nat visited < 25000)%N -> skippable nd = false -> 3 <= length (nodeValue nd) ->
  scanNode needle needleLower before after 250 visited (toLowerCase (nodeValue nd)) 0 best bs
  = Return m ->
  walk needle needleLower before after (nd :: rest) visited best bs = Some m.
Proof.
  intros Hcap Hskip Hlen Hret. cbn [walk].
  destruct (N.ltb_spec 25000 (N.of_nat (S visited))) as [H|_]; [lia|].
  rewrite Hskip. destruct (Nat.ltb_spec (length (nodeValue nd)) 3) as [H|_]; [lia|].
  rewrite Hret. reflexivity.
Qed.

Lemma maxScore_nonneg : (0 <= maxScore)%Z.
Proof. unfold maxScore. destruct (isEmpty before), (isEmpty after); lia. Qed.

End Scan.

(** The candidates of a whole search. *)
Definition candidates (e : entry) (nodes : list textNode) : list candidate :=
  candidatesFrom (trim (text_ e)) (toLowerCase (trim (text_ e)))
    (toLowerCase (contextBefore e)) (toLowerCase (contextAfter e)) 0 nodes.

Definition searched (e : entry) : Prop := 3 <= length (trim (text_ e)).

Lemma findBest_pick e nodes :
  searched e ->
  findBestMatchInDocument e nodes = finish (pick (candidates e nodes) None (-1)).
Proof.
  unfold searched, findBestMatchInDocument, candidates. intros H.
  destruct (trim (text_ e)) as [|c s] eqn:E; [simpl in H; lia|].
  replace (length (c :: s) <? 3) with false by (symmetry; apply Nat.ltb_ge; exact H).
  simpl isEmpty. simpl orb. cbv iota. apply walk_pick.
Qed.

(** *** Needles that are too short *)

Lemma trimStart_blank (s : text) : forallb isSpace s = true -> trimStart s = [].
Proof.
  induction s as [|c s IH]; simpl; [reflexivity|].
  intros H. apply andb_true_iff in H as [Hc Hs]. rewrite Hc. apply IH, Hs.
Qed.

Lemma trim_blank (s : text) : forallb isSpace s = true -> trim s = [].
Proof. intros H. unfold trim, trimEnd. rewrite (trimStart_blank s H). reflexivity. Qed.

(** C4. A needle whose trimmed text has fewer than 3 code units, in
    particular an empty or a whitespace-only one, gets no match, whatever the
    document holds. *)
Theorem short_needle_no_match (e : entry) (nodes : list textNode) :
  forallb isSpace (text_ e) = true \/ length (trim (text_ e)) < 3 ->
  findBestMatchInDocument e nodes = None.
Proof.
  intros H. assert (Hlen : length (trim (text_ e)) < 3).
  { destruct H as [H|H]; [|exact H]. rewrite (trim_blank _ H). simpl. lia. }
  unfold findBestMatchInDocument.
  replace (length (trim (text_ e)) <? 3) with true by (symmetry; apply Nat.ltb_lt; exact Hlen).
  rewrite orb_true_r. reflexivity.
Qed.

Definition blankEntry : entry :=
  {| id := lit "q0"; text_ := lit "   "; contextBefore := []; contextAfter := [] |}.

Definition blankPage : list textNode :=
  [{| skippable := false; nodeValue := lit "three   spaces" |}].

Lemma short_needle_no_match_witness :
  (forallb isSpace (text_ blankEntry) = true \/ length (trim (text_ blankEntry)) < 3)
  /\ findBestMatchInDocument blankEntry blankPage = None.
Proof.
  split.
  - left. reflexivity.
  - apply short_needle_no_match. left. reflexivity.
Defined.

(** *** The two caps *)

Section Caps.
Variable needle needleLower before after : text.

Lemma candidatesFrom_beyond visited nodes :
  (25000 <= N.of_nat visited)%N ->
  candidatesFrom needle needleLower before after visited nodes = [].
Proof.
  intros H. destruct nodes as [|n rest]; simpl; [reflexivity|].
  replace (25000 <? N.of_nat (S visited))%N with true; [reflexivity|].
  symmetry. apply N.ltb_lt. lia.
Qed.

Lemma candidatesFrom_app visited front back :
  candidatesFrom needle needleLower before after visited (front ++ back)
  = candidatesFrom needle needleLower before after visited front
    ++ candidatesFrom needle needleLower before after (visited + length front) back.
Proof.
  revert visited. induction front as [|n front IH]; intros visited.
  - simpl. rewrite Nat.add_0_r. reflexivity.
  - change ((n :: front) ++ back) with (n :: (front ++ back)).
    cbn [candidatesFrom length].
    destruct (25000 <? N.of_nat (S visited))%N eqn:E.
    + apply N.ltb_lt in E. rewrite candidatesFrom_beyond by lia. reflexivity.
    + rewrite IH, <- app_assoc.
      replace (visited + S (length front)) with (S visited + length front) by lia.
      reflexivity.
Qed.

Lemma candidatesFrom_firstn visited nodes :
  candidatesFrom needle needleLower before after visited nodes
  = candidatesFrom needle needleLower before after visited
      (firstn (N.to_nat 25000 - visited) nodes).
Proof.
  remember (N.to_nat 25000) as cap eqn:Hcap.
  revert visited. induction nodes as [|n rest IH]; intros visited.
  - rewrite firstn_nil. reflexivity.
  - destruct (25000 <? N.of_nat (S visited))%N eqn:E.
    + assert (E' := E). apply N.ltb_lt in E'.
      replace (cap - visited) with 0 by lia.
      cbn [firstn candidatesFrom]. rewrite E. reflexivity.
    + assert (E' := E). apply N.ltb_ge in E'.
      replace (cap - visited) with (S (cap - S visited)) by lia.
      cbn [firstn candidatesFrom]. rewrite E. f_equal. apply IH.
Qed.

(** A candidate stands for an occurrence of the needle in a text node that
    is not skipped and has a rank below 25,000. *)
Lemma candidatesFrom_sound visited nodes c :
  needleLower <> [] ->
  In c (candidatesFrom needle needleLower before after visited nodes) ->
  exists nd k,
    visited <= m_node (c_found c) /\
    nth_error nodes (m_node (c_found c) - visited) = Some nd /\
    (N.of_nat (m_node (c_found c)) < 25000)%N /\
    skippable nd = false /\
    occursAt needleLower (toLowerCase (nodeValue nd)) k /\
    c = candidateAt needle before after (m_node (c_found c))
          (toLowerCase (nodeValue nd)) k.
Proof.
  intros Hne. revert visited.
  induction nodes as [|n rest IH]; intros visited; cbn [candidatesFrom].
  - intros [].
  - destruct (25000 <? N.of_nat (S visited))%N eqn:E; [intros []|].
    apply N.ltb_ge in E. intros Hin. apply in_app_or in Hin as [Hin|Hin].
    + unfold nodeCandidates in Hin. destruct (skippable n) eqn:Hskip; [destruct Hin|].
      destruct (length (nodeValue n) <? 3); [destruct Hin|]. cbn [orb] in Hin.
      apply in_map_iff in Hin as (k & <- & Hk).
      apply scored_sound in Hk as [_ Hocc]; [|exact Hne].
      exists n, k. cbn [candidateAt c_found m_node]. rewrite Nat.sub_diag.
      cbn [nth_error].
      repeat split; try assumption; try reflexivity; lia.
    + apply IH in Hin as (nd & k & Hle & Hnth & Hcap & Hskip & Hocc & Hc).
      exists nd, k. replace (m_node (c_found c) - visited)
                      with (S (m_node (c_found c) - S visited)) by lia.
      cbn [nth_error]. repeat split; try assumption. lia.
Qed.

End Caps.

(** *** The best match *)

(** C6, as the code has it. Every occurrence the walk scores is an
    occurrence of the needle in a text node that is not skipped. The Locator
    returns the first one of maximal score (a later occurrence replaces the
    best one only with a strictly greater score), and none when no
    occurrence is scored; the first scored occurrence whose two context
    comparisons are exact is returned, whatever is scored after it. With
    both contexts there, the inner loop returns at once at such an
    occurrence, as it has met no score as high before, while it goes on it
    meets none, and the walk returns with it, whatever text nodes follow. *)
Theorem best_is_first_maximum (e : entry) (nodes : list textNode) :
  searched e ->
  let needle := trim (text_ e) in
  let needleLower := toLowerCase needle in
  let before := toLowerCase (contextBefore e) in
  let after := toLowerCase (contextAfter e) in
  Forall (fun c =>
            exists nd k,
              nth_error nodes (m_node (c_found c)) = Some nd /\
              skippable nd = false /\
              occursAt needleLower (toLowerCase (nodeValue nd)) k /\
              c = candidateAt needle before after (m_node (c_found c))
                    (toLowerCase (nodeValue nd)) k)
         (candidates e nodes)
  /\ match findBestMatchInDocument e nodes with
     | None => candidates e nodes = []
     | Some m =>
         exists l1 c l2,
           candidates e nodes = l1 ++ c :: l2 /\
           m = c_found c /\
           Forall (fun x => (c_score x < c_score c)%Z) l1 /\
           Forall (fun x => (c_score x <= c_score c)%Z) l2
     end
  /\ (forall l1 c l2,
        candidates e nodes = l1 ++ c :: l2 ->
        Forall (fun x => c_exact x = false) l1 ->
        c_exact c = true ->
        findBestMatchInDocument e nodes = Some (c_found c))
  /\ (before <> [] -> after <> [] ->
      (-1 < maxScore before after)%Z /\
      (forall budget node lower from best bs idx,
         indexOf lower needleLower from = Some idx ->
         endsWith (slice lower 0 idx) before = true ->
         startsWith (sliceFrom lower (idx + length needle)) after = true ->
         (bs < maxScore before after)%Z ->
         scanNode needle needleLower before after (S budget) node lower from best bs
         = Return {| m_node := node; m_start := idx; m_end := idx + length needle |}) /\
      (forall budget node lower from best bs best' bs',
         (bs < maxScore before after)%Z ->
         scanNode needle needleLower before after budget node lower from best bs
         = Continue best' bs' ->
         (bs' < maxScore before after)%Z))
  /\ (forall nd rest visited best bs m,
        (N.of_nat visited < 25000)%N -> skippable nd = false ->
        3 <= length (nodeValue nd) ->
        scanNode needle needleLower before after 250 visited
          (toLowerCase (nodeValue nd)) 0 best bs = Return m ->
        walk needle needleLower before after (nd :: rest) visited best bs = Some m).
Proof.
  intros Hs needle needleLower before after. split.
  { apply List.Forall_forall. intros c Hc.
    assert (Hne : needleLower <> []).
    { intros Hnil. apply (f_equal (@length ascii)) in Hnil. unfold needleLower in Hnil.
      rewrite toLowerCase_length in Hnil. unfold searched in Hs. simpl in Hnil.
      fold needle in Hs. lia. }
    destruct (candidatesFrom_sound _ _ _ _ 0 nodes c Hne Hc)
      as (nd & k & _ & Hnth & _ & Hskip & Hocc & Heq).
    exists nd, k. rewrite Nat.sub_0_r in Hnth. auto. }
  rewrite (findBest_pick e nodes Hs).
  assert (Hwf : Forall (wellScored before after) (candidates e nodes))
    by apply candidatesFrom_wellScored.
  split; [|split; [|split]].
  - destruct (pick_first_max _ _ (candidates e nodes) None (-1) Hwf)
      as [[Hres Hall]|(l1 & c & l2 & Heq & Hres & Hlt & H1 & H2)].
    + rewrite Hres. destruct (candidates e nodes) as [|c l]; [reflexivity|].
      exfalso. inversion Hall as [|? ? Hc _]; subst.
      inversion Hwf as [|? ? (Hrange & _) _]; subst. lia.
    + rewrite Hres. exists l1, c, l2. repeat split; assumption.
  - intros l1 c l2 Heq Hno Hex. rewrite Heq in *.
    eapply pick_first_exact; try eassumption.
    apply Forall_app in Hwf as [_ Hwf]. inversion Hwf as [|? ? (Hrange & _) _]; subst. lia.
  - intros Hb Ha. split; [|split].
    + assert (H := maxScore_nonneg before after). lia.
    + intros budget node lower from best bs idx. apply scanNode_returns; assumption.
    + intros budget node lower from best bs best' bs'. apply scanNode_below; assumption.
  - intros nd rest visited best bs m. apply walk_returns.
Qed.

(** The scenario of the specification: one text node, two occurrences. *)
Definition helloEntry : entry :=
  {| id := lit "q1"; text_ := lit "hello world";
     contextBefore := lit "say "; contextAfter := lit " today" |}.

Definition helloPage : list textNode :=
  [{| skippable := false;
      nodeValue := lit "oh hello world! and say hello world today" |}].

(** The first occurrence, at 3, scores 1; the scan goes on from 14, finds
    the occurrence at 24 with both contexts, and returns. *)
Lemma best_is_first_maximum_witness :
  searched helloEntry /\
  findBestMatchInDocument helloEntry helloPage
  = Some {| m_node := 0; m_start := 24; m_end := 35 |} /\
  scanNode (lit "hello world") (lit "hello world") (lit "say ") (lit " today") 249 0
    (lit "oh hello world! and say hello world today") 14
    (Some {| m_node := 0; m_start := 3; m_end := 14 |}) 1
  = Return {| m_node := 0; m_start := 24; m_end := 35 |}.
Proof.
  assert (Hs : searched helloEntry) by (unfold searched; simpl; lia).
  split; [exact Hs|].
  destruct (best_is_first_maximum helloEntry helloPage Hs) as (_ & _ & Hexact & Hreturn & _).
  split.
  - apply (Hexact [candidateAt (lit "hello world") (lit "say ") (lit " today") 0
                     (lit "oh hello world! and say hello world today") 3]
                  (candidateAt (lit "hello world") (lit "say ") (lit " today") 0
                     (lit "oh hello world! and say hello world today") 24) []).
    + reflexivity.
    + repeat constructor.
    + reflexivity.
  - destruct (Hreturn ltac:(discriminate) ltac:(discriminate)) as (_ & Hret & _).
    apply (Hret 248 0 (lit "oh hello world! and say hello world today") 14
             (Some {| m_node := 0; m_start := 3; m_end := 14 |}) 1%Z 24).
    + reflexivity.
    + reflexivity.
    + reflexivity.
    + vm_compute. reflexivity.
Defined.

(** In "xaaaab" the needle "aaa" occurs at 1 and at 2. The occurrence at 2
    has both contexts, "xa" before it and "b" after it, but the scan, having
    scored the occurrence at 1, resumes at 4 and never scores it: the walk
    does not stop at it and returns the occurrence at 1. And with an empty
    context after, the scan does not return at the occurrence that has the
    context before: it goes on, keeping it as the best. *)
Definition runEntry : entry :=
  {| id := lit "q3"; text_ := lit "aaa"; contextBefore := lit "xa"; contextAfter := lit "b" |}.

Definition runPage : list textNode :=
  [{| skippable := false; nodeValue := lit "xaaaab" |}].

Lemma best_is_first_maximum_counterexample :
  (occursAt (lit "aaa") (lit "xaaaab") 2 /\
   endsWith (slice (lit "xaaaab") 0 2) (lit "xa") = true /\
   startsWith (sliceFrom (lit "xaaaab") (2 + 3)) (lit "b") = true /\
   scored (lit "aaa") 250 (lit "xaaaab") 0 = [1] /\
   findBestMatchInDocument runEntry runPage
   = Some {| m_node := 0; m_start := 1; m_end := 4 |}) /\
  (endsWith (slice (lit "oh hello world! and say hello world today") 0 24) (lit "say ") = true /\
   startsWith (sliceFrom (lit "oh hello world! and say hello world today") (24 + 11)) []
   = true /\
   scanNode (lit "hello world") (lit "hello world") (lit "say ") [] 249 0
     (lit "oh hello world! and say hello world today") 14
     (Some {| m_node := 0; m_start := 3; m_end := 14 |}) 1
   = Continue (Some {| m_node := 0; m_start := 24; m_end := 35 |}) 54).
Proof. vm_compute. repeat split. Qed.

(** C5, as the code has it. At most 250 occurrences are scored in a text node
    and only the first 25,000 text nodes are visited. Reaching the cap of a
    node ends the scan of that node alone: the candidates of the following
    nodes are scored as well. Reaching the cap on nodes ends the walk. The
    match returned is the best of the occurrences scored. *)
Theorem scan_caps (e : entry) (nodes : list textNode) :
  searched e ->
  (forall rank nd,
      length (nodeCandidates (trim (text_ e)) (toLowerCase (trim (text_ e)))
                (toLowerCase (contextBefore e)) (toLowerCase (contextAfter e))
                rank nd) <= 250) /\
  (forall front back,
      nodes = front ++ back ->
      candidates e nodes
      = candidates e front
        ++ candidatesFrom (trim (text_ e)) (toLowerCase (trim (text_ e)))
             (toLowerCase (contextBefore e)) (toLowerCase (contextAfter e))
             (length front) back) /\
  findBestMatchInDocument e nodes
  = findBestMatchInDocument e (firstn (N.to_nat 25000) nodes) /\
  findBestMatchInDocument e nodes = finish (pick (candidates e nodes) None (-1)).
Proof.
  intros Hs. split; [|split; [|split]].
  - intros rank nd. apply nodeCandidates_length.
  - intros front back ->. unfold candidates. rewrite candidatesFrom_app. reflexivity.
  - rewrite !(findBest_pick _ _ Hs). unfold candidates.
    rewrite candidatesFrom_firstn at 1. rewrite Nat.sub_0_r. reflexivity.
  - apply findBest_pick, Hs.
Qed.

(** A text node holding 251 occurrences of the needle, none with the context
    sought, followed by a text node holding one occurrence after the context. *)
Definition capEntry : entry :=
  {| id := lit "q2"; text_ := lit "abc"; contextBefore := lit "x"; contextAfter := [] |}.

Definition crowdedNode : textNode :=
  {| skippable := false; nodeValue := concat (repeat (lit "abc") 251) |}.

Definition capPage : list textNode :=
  [crowdedNode; {| skippable := false; nodeValue := lit "xabc" |}].

Lemma scan_caps_witness :
  searched capEntry /\
  findBestMatchInDocument capEntry capPage
  = finish (pick (candidates capEntry capPage) None (-1)).
Proof.
  assert (Hs : searched capEntry) by (unfold searched; simpl; lia).
  split; [exact Hs|].
  destruct (scan_caps capEntry capPage Hs) as (_ & _ & _ & H). exact H.
Defined.

(** The cap of the first node is reached (a budget of 251 would score a
    251st occurrence there); the best match at that moment is the first
    occurrence of that node, yet the walk goes on and returns the occurrence
    of the second node. *)
Lemma scan_caps_counterexample :
  length (scored (lit "abc") 250 (nodeValue crowdedNode) 0) = 250 /\
  length (scored (lit "abc") 251 (nodeValue crowdedNode) 0) = 251 /\
  findBestMatchInDocument capEntry [crowdedNode]
  = Some {| m_node := 0; m_start := 0; m_end := 3 |} /\
  findBestMatchInDocument capEntry capPage
  = Some {| m_node := 1; m_start := 1; m_end := 4 |}.
Proof. vm_compute. repeat split. Qed.

(** *** Documents with two occurrences *)

(** Every position at which [needle] occurs in [s], overlapping or not. *)
Definition positions (needle s : text) : list nat :=
  List.filter (fun k => startsWith (skipn k s) needle) (seq 0 (S (length s))).

Lemma positions_spec (needle s : text) (k : nat) :
  needle <> [] -> In k (positions needle s) <-> occursAt needle s k.
Proof.
  intros Hne. unfold positions. rewrite filter_In, in_seq, startsWith_firstn.
  split; [intros [_ H]; exact H|]. intros H. split; [|exact H].
  apply occursAt_bound in H; [lia | exact Hne].
Qed.

Section Occurrences.
Variable needle needleLower before after : text.
Hypothesis needleLower_length : length needleLower = length needle.
Hypothesis needle_long : 3 <= length needle.

Lemma needleLower_nonempty : needleLower <> [].
Proof. intros H. rewrite H in needleLower_length. simpl in *. lia. Qed.

(** The occurrences in the text nodes that are not skipped, as (rank of the
    node, position) in document order. *)
Fixpoint occurrencesFrom (visited : nat) (nodes : list textNode) : list (nat * nat) :=
  match nodes with
  | [] => []
  | nd :: rest =>
      (if skippable nd then []
       else map (pair visited) (positions needleLower (toLowerCase (nodeValue nd))))
      ++ occurrencesFrom (S visited) rest
  end.

Lemma in_occurrencesFrom visited nodes n k :
  In (n, k) (occurrencesFrom visited nodes) <->
  visited <= n /\
  exists nd, nth_error nodes (n - visited) = Some nd /\ skippable nd = false /\
             occursAt needleLower (toLowerCase (nodeValue nd)) k.
Proof.
  revert visited. induction nodes as [|nd rest IH]; intros visited; simpl.
  - split; [intros [] | intros [_ (nd & H & _)]].
    destruct (n - visited); discriminate.
  - rewrite in_app_iff, IH. split.
    + intros [H|(Hle & nd' & Hnth & Hs & Hocc)].
      * destruct (skippable nd) eqn:Hs; [destruct H|].
        apply in_map_iff in H as (k' & [= <- <-] & Hk).
        apply positions_spec in Hk; [|apply needleLower_nonempty].
        split; [lia|]. exists nd. rewrite Nat.sub_diag. auto.
      * split; [lia|]. exists nd'.
        replace (n - visited) with (S (n - S visited)) by lia. auto.
    + intros (Hle & nd' & Hnth & Hs & Hocc).
      destruct (Nat.eq_dec n visited) as [->|Hne].
      * left. rewrite Nat.sub_diag in Hnth. injection Hnth as ->. rewrite Hs.
        apply in_map. apply positions_spec; [apply needleLower_nonempty | exact Hocc].
      * right. split; [lia|]. exists nd'.
        replace (n - visited) with (S (n - S visited)) in Hnth by lia. auto.
Qed.

(** When the occurrences from [from] on do not overlap and are at most
    [budget], the inner loop scores every one of them. *)
Lemma scored_exact lower (L : list nat) : forall from budget,
  StronglySorted (fun a b => a + length needleLower <= b) L ->
  Forall (fun k => from <= k /\ occursAt needleLower lower k) L ->
  (forall k, from <= k -> occursAt needleLower lower k -> In k L) ->
  length L <= budget ->
  scored needleLower budget lower from = L.
Proof.
  assert (Hne := needleLower_nonempty).
  assert (Hlen : 1 <= length needleLower) by lia.
  induction L as [|a L IH]; intros from budget Hsort Hin Hall Hbudget.
  - destruct budget; simpl; destruct (indexOf lower needleLower from) as [idx|] eqn:E;
      try reflexivity.
    apply indexOf_some in E as (Hle & Hocc & _); [|exact Hne].
    destruct (Hall idx Hle Hocc).
  - destruct budget as [|b]; [simpl in Hbudget; lia|].
    inversion Hsort as [|? ? Hsort' Hgap]; subst.
    inversion Hin as [|? ? [Hfa Hoa] Hin']; subst.
    simpl. destruct (indexOf lower needleLower from) as [idx|] eqn:E.
    + apply indexOf_some in E as (Hle & Hocc & Hmin); [|exact Hne].
      assert (idx = a) as ->.
      { destruct (Hall idx Hle Hocc) as [<-|Hidx]; [reflexivity|].
        rewrite List.Forall_forall in Hgap. specialize (Hgap idx Hidx).
        exfalso. apply (Hmin a); [lia | exact Hoa]. }
      f_equal. replace (Nat.max 1 (length needleLower)) with (length needleLower) by lia.
      destruct (length lower <=? a + length needleLower) eqn:Eend.
      * apply Nat.leb_le in Eend. destruct L as [|b' L']; [reflexivity|].
        exfalso. inversion Hgap as [|? ? Hb' _]; subst.
        inversion Hin' as [|? ? [_ Hob] _]; subst.
        apply occursAt_bound in Hob; [lia | exact Hne].
      * apply IH.
        -- exact Hsort'.
        -- rewrite List.Forall_forall in *. intros k Hk. split.
           ++ apply Hgap, Hk.
           ++ apply Hin', Hk.
        -- intros k Hk Hok. destruct (Hall k ltac:(lia) Hok) as [<-|Hk']; [lia | exact Hk'].
        -- simpl in Hbudget. lia.
    + exfalso. eapply indexOf_none; eauto.
Qed.

(** The candidates of a text node whose occurrences are known. *)
Lemma nodeCandidates_exact rank nd (L : list nat) :
  StronglySorted (fun a b => a + length needleLower <= b) L ->
  (skippable nd = true -> L = []) ->
  (skippable nd = false ->
     forall k, In k L <-> occursAt needleLower (toLowerCase (nodeValue nd)) k) ->
  length L <= 250 ->
  nodeCandidates needle needleLower before after rank nd
  = map (candidateAt needle before after rank (toLowerCase (nodeValue nd))) L.
Proof.
  intros Hsort Hskip Hocc Hlen. unfold nodeCandidates.
  destruct (skippable nd) eqn:Hs; cbn [orb].
  - rewrite Hskip by reflexivity. reflexivity.
  - specialize (Hocc eq_refl).
    assert (Hscored : scored needleLower 250 (toLowerCase (nodeValue nd)) 0 = L).
    { apply scored_exact; try assumption.
      - apply List.Forall_forall. intros k Hk. split; [lia | apply Hocc, Hk].
      - intros k _ Hk. apply Hocc, Hk. }
    destruct (length (nodeValue nd) <? 3) eqn:Eshort; [|rewrite Hscored; reflexivity].
    apply Nat.ltb_lt in Eshort. destruct L as [|k L']; [reflexivity|].
    exfalso. assert (Hk : occursAt needleLower (toLowerCase (nodeValue nd)) k)
      by (apply Hocc; left; reflexivity).
    apply occursAt_bound in Hk; [|apply needleLower_nonempty].
    rewrite toLowerCase_length in Hk. lia.
Qed.

End Occurrences.

Section TwoOccurrences.
Variable needle needleLower before after : text.
Hypothesis needleLower_length : length needleLower = length needle.
Hypothesis needle_long : 3 <= length needle.
Variables (n1 k1 n2 k2 : nat) (nd1 nd2 : textNode).
Hypothesis order : n1 < n2 \/ (n1 = n2 /\ k1 + length needle <= k2).
Hypothesis within_cap : (N.of_nat n2 < 25000)%N.
Hypothesis scanned1 : skippable nd1 = false.
Hypothesis scanned2 : skippable nd2 = false.
Hypothesis occurs1 : occursAt needleLower (toLowerCase (nodeValue nd1)) k1.
Hypothesis occurs2 : occursAt needleLower (toLowerCase (nodeValue nd2)) k2.

Ltac by_rank :=
  repeat match goal with
         | |- context [?a <=? ?b] => destruct (Nat.leb_spec a b); try lia
         end.

(** From the node of rank [visited] on, the walk scores the two occurrences,
    as far as they are still ahead, and nothing else. *)
Lemma two_candidates nodes : forall visited,
  (visited <= n1 -> nth_error nodes (n1 - visited) = Some nd1) ->
  (visited <= n2 -> nth_error nodes (n2 - visited) = Some nd2) ->
  (forall i nd k,
      nth_error nodes i = Some nd -> skippable nd = false ->
      occursAt needleLower (toLowerCase (nodeValue nd)) k ->
      (visited + i = n1 /\ k = k1) \/ (visited + i = n2 /\ k = k2)) ->
  candidatesFrom needle needleLower before after visited nodes
  = (if visited <=? n1
     then [candidateAt needle before after n1 (toLowerCase (nodeValue nd1)) k1]
     else [])
    ++ (if visited <=? n2
        then [candidateAt needle before after n2 (toLowerCase (nodeValue nd2)) k2]
        else []).
Proof.
  induction nodes as [|nd rest IH]; intros visited H1 H2 Hall.
  - cbn [candidatesFrom]. by_rank.
    + specialize (H1 ltac:(lia)). destruct (n1 - visited); discriminate.
    + specialize (H2 ltac:(lia)). destruct (n2 - visited); discriminate.
    + reflexivity.
  - cbn [candidatesFrom]. destruct (25000 <? N.of_nat (S visited))%N eqn:E.
    + apply N.ltb_lt in E. by_rank. reflexivity.
    + assert (Hhead : forall k, skippable nd = false ->
                occursAt needleLower (toLowerCase (nodeValue nd)) k ->
                (visited = n1 /\ k = k1) \/ (visited = n2 /\ k = k2)).
      { intros k Hs Hk. destruct (Hall 0 nd k eq_refl Hs Hk) as [[? ?]|[? ?]];
          [left | right]; split; lia || assumption. }
      assert (Hrest : candidatesFrom needle needleLower before after (S visited) rest
                = (if S visited <=? n1
                   then [candidateAt needle before after n1 (toLowerCase (nodeValue nd1)) k1]
                   else [])
                  ++ (if S visited <=? n2
                      then [candidateAt needle before after n2 (toLowerCase (nodeValue nd2)) k2]
                      else [])).
      { apply IH.
        - intros Hle. specialize (H1 ltac:(lia)).
          replace (n1 - visited) with (S (n1 - S visited)) in H1 by lia. exact H1.
        - intros Hle. specialize (H2 ltac:(lia)).
          replace (n2 - visited) with (S (n2 - S visited)) in H2 by lia. exact H2.
        - intros i nd' k Hnth Hs Hk.
          destruct (Hall (S i) nd' k Hnth Hs Hk) as [[? ?]|[? ?]];
            [left | right]; split; lia || assumption. }
      rewrite Hrest. clear Hrest IH.
      destruct (Nat.eq_dec visited n1) as [E1|E1];
        destruct (Nat.eq_dec visited n2) as [E2|E2].
      * (* both occurrences lie in this node *)
        assert (nd = nd1) as ->
          by (specialize (H1 ltac:(lia)); rewrite E1, Nat.sub_diag in H1;
              cbn [nth_error] in H1; congruence).
        assert (nd1 = nd2) as Hsame
          by (specialize (H2 ltac:(lia)); rewrite E2, Nat.sub_diag in H2;
              cbn [nth_error] in H2; congruence).
        rewrite (nodeCandidates_exact needle needleLower before after
                   needleLower_length needle_long visited nd1 [k1; k2]).
        -- subst. by_rank. reflexivity.
        -- repeat constructor. lia.
        -- congruence.
        -- intros _ k. split.
           ++ intros [<-|[<-|[]]]; [exact occurs1 | rewrite Hsame; exact occurs2].
           ++ intros Hk. destruct (Hhead k scanned1 Hk) as [[_ ->]|[_ ->]];
                simpl; auto.
        -- simpl. lia.
      * (* only the first one *)
        assert (nd = nd1) as ->
          by (specialize (H1 ltac:(lia)); rewrite E1, Nat.sub_diag in H1;
              cbn [nth_error] in H1; congruence).
        rewrite (nodeCandidates_exact needle needleLower before after
                   needleLower_length needle_long visited nd1 [k1]).
        -- subst. by_rank; reflexivity.
        -- repeat constructor.
        -- congruence.
        -- intros _ k. split.
           ++ intros [<-|[]]. exact occurs1.
           ++ intros Hk. destruct (Hhead k scanned1 Hk) as [[_ ->]|[? _]];
                [simpl; auto | congruence].
        -- simpl. lia.
      * (* only the second one *)
        assert (nd = nd2) as ->
          by (specialize (H2 ltac:(lia)); rewrite E2, Nat.sub_diag in H2;
              cbn [nth_error] in H2; congruence).
        rewrite (nodeCandidates_exact needle needleLower before after
                   needleLower_length needle_long visited nd2 [k2]).
        -- subst. by_rank; reflexivity.
        -- repeat constructor.
        -- congruence.
        -- intros _ k. split.
           ++ intros [<-|[]]. exact occurs2.
           ++ intros Hk. destruct (Hhead k scanned2 Hk) as [[? _]|[_ ->]];
                [congruence | simpl; auto].
        -- simpl. lia.
      * (* neither *)
        rewrite (nodeCandidates_exact needle needleLower before after
                   needleLower_length needle_long visited nd []).
        -- by_rank; reflexivity.
        -- constructor.
        -- reflexivity.
        -- intros Hs k. split; [intros []|].
           intros Hk. destruct (Hhead k Hs Hk) as [[? _]|[? _]]; congruence.
        -- simpl. lia.
Qed.

End TwoOccurrences.

(** The occurrences of the needle of [e] in the text nodes that are not
    skipped, and whether the occurrence at position [k] of the node of rank
    [n] has both contexts exact. *)
Definition occurrences (e : entry) (nodes : list textNode) : list (nat * nat) :=
  occurrencesFrom (toLowerCase (trim (text_ e))) 0 nodes.

Definition exactIn (e : entry) (nodes : list textNode) (n k : nat) : bool :=
  match nth_error nodes n with
  | Some nd =>
      exactAt (trim (text_ e)) (toLowerCase (contextBefore e))
        (toLowerCase (contextAfter e)) (toLowerCase (nodeValue nd)) k
  | None => false
  end.

(** C1, as the code has it. When the needle occurs exactly twice in the text
    nodes that are not skipped, both occurrences within the first 25,000 text
    nodes and not overlapping when they share a text node, the occurrence
    whose own text node has [contextBefore] just before it and [contextAfter]
    just after it (case-insensitively) is returned when the other one has
    not. *)
Theorem exact_context_wins (e : entry) (nodes : list textNode) (n1 k1 n2 k2 : nat) :
  searched e ->
  occurrences e nodes = [(n1, k1); (n2, k2)] ->
  n1 < n2 \/ (n1 = n2 /\ k1 + length (trim (text_ e)) <= k2) ->
  (N.of_nat n2 < 25000)%N ->
  (exactIn e nodes n1 k1 = true ->
     findBestMatchInDocument e nodes
     = Some {| m_node := n1; m_start := k1; m_end := k1 + length (trim (text_ e)) |}) /\
  (exactIn e nodes n1 k1 = false -> exactIn e nodes n2 k2 = true ->
     findBestMatchInDocument e nodes
     = Some {| m_node := n2; m_start := k2; m_end := k2 + length (trim (text_ e)) |}).
Proof.
  intros Hs Hocc Hord Hcap. unfold searched in Hs.
  assert (Hlen : length (toLowerCase (trim (text_ e))) = length (trim (text_ e)))
    by apply toLowerCase_length.
  assert (Hin := in_occurrencesFrom (trim (text_ e)) (toLowerCase (trim (text_ e)))
                   Hlen Hs 0 nodes).
  fold (occurrences e nodes) in Hin. rewrite Hocc in Hin.
  destruct (proj1 (Hin n1 k1)) as (_ & nd1 & Hnth1 & Hs1 & Ho1); [left; reflexivity|].
  destruct (proj1 (Hin n2 k2)) as (_ & nd2 & Hnth2 & Hs2 & Ho2);
    [right; left; reflexivity|].
  rewrite Nat.sub_0_r in Hnth1, Hnth2.
  assert (Hcands : candidates e nodes
            = [candidateAt (trim (text_ e)) (toLowerCase (contextBefore e))
                 (toLowerCase (contextAfter e)) n1 (toLowerCase (nodeValue nd1)) k1;
               candidateAt (trim (text_ e)) (toLowerCase (contextBefore e))
                 (toLowerCase (contextAfter e)) n2 (toLowerCase (nodeValue nd2)) k2]).
  { unfold candidates.
    rewrite (two_candidates _ _ _ _ Hlen Hs n1 k1 n2 k2 nd1 nd2 Hord Hcap Hs1 Hs2 Ho1 Ho2).
    - reflexivity.
    - intros _. rewrite Nat.sub_0_r. exact Hnth1.
    - intros _. rewrite Nat.sub_0_r. exact Hnth2.
    - intros i nd k Hnth Hsk Hk.
      destruct (proj2 (Hin i k)) as [[= -> ->]|[[= -> ->]|[]]]; auto.
      split; [lia|]. exists nd. rewrite Nat.sub_0_r. auto. }
  assert (Hwf := candidatesFrom_wellScored (trim (text_ e)) (toLowerCase (trim (text_ e)))
                   (toLowerCase (contextBefore e)) (toLowerCase (contextAfter e)) 0 nodes).
  fold (candidates e nodes) in Hwf. rewrite Hcands in Hwf.
  assert (Hmax : (-1 < maxScore (toLowerCase (contextBefore e))
                         (toLowerCase (contextAfter e)))%Z).
  { inversion Hwf as [|? ? (Hrange & _) _]; subst. lia. }
  rewrite (findBest_pick e nodes Hs), Hcands. unfold exactIn. rewrite Hnth1, Hnth2.
  split.
  - intros Hex.
    exact (pick_first_exact _ _ [] _ [_] None (-1) Hwf ltac:(constructor) Hex Hmax).
  - intros Hno Hex.
    exact (pick_first_exact _ _ [_] _ [] None (-1) Hwf
             ltac:(repeat constructor; exact Hno) Hex Hmax).
Qed.

Lemma exact_context_wins_witness :
  searched helloEntry /\
  occurrences helloEntry helloPage = [(0, 3); (0, 24)] /\
  exactIn helloEntry helloPage 0 3 = false /\
  exactIn helloEntry helloPage 0 24 = true /\
  findBestMatchInDocument helloEntry helloPage
  = Some {| m_node := 0; m_start := 24; m_end := 35 |}.
Proof.
  assert (Hs : searched helloEntry) by (unfold searched; simpl; lia).
  assert (Hocc : occurrences helloEntry helloPage = [(0, 3); (0, 24)]) by reflexivity.
  split; [exact Hs|]. split; [exact Hocc|].
  split; [reflexivity|]. split; [reflexivity|].
  refine (proj2 (exact_context_wins helloEntry helloPage 0 3 0 24 Hs Hocc _ _) _ _).
  - right. split; [reflexivity | simpl; lia].
  - reflexivity.
  - reflexivity.
  - reflexivity.
Defined.

(** Two overlapping occurrences: the scan resumes after the end of the first
    one and never scores the second, although it is the one in context. *)
Definition overlapEntry : entry :=
  {| id := lit "q3"; text_ := lit "aba";
     contextBefore := lit "ab"; contextAfter := lit "c" |}.

Definition overlapPage : list textNode :=
  [{| skippable := false; nodeValue := lit "ababac" |}].

Lemma exact_context_wins_counterexample :
  occurrences overlapEntry overlapPage = [(0, 0); (0, 2)] /\
  exactIn overlapEntry overlapPage 0 0 = false /\
  exactIn overlapEntry overlapPage 0 2 = true /\
  findBestMatchInDocument overlapEntry overlapPage
  = Some {| m_node := 0; m_start := 0; m_end := 3 |}.
Proof. vm_compute. repeat split. Qed.

(** The context is read in the text node of the occurrence only: here the
    second occurrence follows "say " on the page, but "say " stands in a node
    of its own, both occurrences score the same and the first one is kept. *)
Example context_in_another_node :
  findBestMatchInDocument helloEntry
    [{| skippable := false; nodeValue := lit "hello world today, " |};
     {| skippable := false; nodeValue := lit "say " |};
     {| skippable := false; nodeValue := lit "hello world today" |}]
  = Some {| m_node := 0; m_start := 0; m_end := 11 |}.
Proof. reflexivity. Qed.

(** An occurrence in a skipped text node (inside a form control, a script, a
    marker) is not a candidate, whatever its context. *)
Example occurrence_in_skipped_node :
  findBestMatchInDocument helloEntry
    [{| skippable := false; nodeValue := lit "oh hello world!" |};
     {| skippable := true; nodeValue := lit "say hello world today" |}]
  = Some {| m_node := 0; m_start := 3; m_end := 14 |}.
Proof. reflexivity. Qed.

(** *** What a match is *)

(** A match returned by the Locator is an occurrence of the needle in a text
    node that is not skipped. *)
Lemma findBest_sound (e : entry) (nodes : list textNode) (m : found) :
  findBestMatchInDocument e nodes = Some m ->
  exists nd,
    nth_error nodes (m_node m) = Some nd /\
    skippable nd = false /\
    occursAt (toLowerCase (trim (text_ e))) (toLowerCase (nodeValue nd)) (m_start m) /\
    m_end m = m_start m + length (trim (text_ e)).
Proof.
  intros H.
  assert (Hs : searched e).
  { unfold searched. unfold findBestMatchInDocument in H.
    destruct (length (trim (text_ e)) <? 3) eqn:E.
    - rewrite orb_true_r in H. discriminate.
    - apply Nat.ltb_ge in E. exact E. }
  rewrite (findBest_pick e nodes Hs) in H.
  assert (Hwf := candidatesFrom_wellScored (trim (text_ e)) (toLowerCase (trim (text_ e)))
                   (toLowerCase (contextBefore e)) (toLowerCase (contextAfter e)) 0 nodes).
  fold (candidates e nodes) in Hwf.
  destruct (pick_first_max _ _ (candidates e nodes) None (-1) Hwf)
    as [[Hres _]|(l1 & c & l2 & Heq & Hres & _)]; rewrite Hres in H; [discriminate|].
  injection H as <-.
  assert (Hin : In c (candidates e nodes)) by (rewrite Heq; apply in_elt).
  assert (Hne : toLowerCase (trim (text_ e)) <> []).
  { intros Hnil. apply (f_equal (@length ascii)) in Hnil.
    rewrite toLowerCase_length in Hnil. unfold searched in Hs. simpl in Hnil. lia. }
  destruct (candidatesFrom_sound _ _ _ _ 0 nodes c Hne Hin)
    as (nd & k & _ & Hnth & _ & Hskip & Hocc & Hc).
  exists nd. rewrite Nat.sub_0_r in Hnth. rewrite Hc. cbn [candidateAt c_found m_node m_start m_end].
  rewrite Hc in Hnth. cbn [candidateAt c_found m_node] in Hnth. auto.
Qed.

End LocatorSpec.


(** ** The document tree *)

Module DomSpec.
Import Text TextSpec Locator LocatorSpec Dom.

(** Induction on a node with the hypothesis for every child. *)
Lemma node_ind' (P : node -> Prop) :
  (forall v, P (TextNode v)) ->
  (forall a cs, Forall P cs -> P (Elem a cs)) ->
  forall n, P n.
Proof.
  intros Htext Helem. fix IH 1. intros [v|a cs].
  - apply Htext.
  - apply Helem. induction cs as [|c cs IHcs]; constructor; [apply IH | exact IHcs].
Qed.

Lemma replaceText_elem f k a cs :
  replaceText f k (Elem a cs) = [Elem a (replaceIn f k cs)].
Proof.
  simpl. do 2 f_equal. revert k. induction cs as [|c cs IH]; intros k; simpl.
  - reflexivity.
  - destruct (k <? countText c); [reflexivity|]. f_equal. apply IH.
Qed.

Lemma textsOf_length skip n : length (textsOf skip n) = countText n.
Proof.
  revert skip. induction n as [v|a cs IH] using node_ind'; intros skip; simpl.
  - reflexivity.
  - induction IH as [|c cs Hc _ IHcs]; simpl; [reflexivity|].
    rewrite length_app, Hc, IHcs. reflexivity.
Qed.

(** Below a blocking ancestor every text node is skippable. *)
Lemma textsOf_blocked n :
  Forall (fun t => skippable t = true) (textsOf true n).
Proof.
  induction n as [v|a cs IH] using node_ind'; simpl.
  - repeat constructor.
  - induction IH as [|c cs Hc _ IHcs]; simpl; [constructor|].
    apply Forall_app. split; assumption.
Qed.

(** [wrapsAt v frag cs cs']: [cs'] is [cs] with one text node of value [v],
    below no blocking element, replaced by the nodes [frag]. *)
Inductive wrapsAt (v : text) (frag : list node) : list node -> list node -> Prop :=
| wraps_here l1 l2 :
    wrapsAt v frag (l1 ++ TextNode v :: l2) (l1 ++ frag ++ l2)
| wraps_below l1 a gs gs' l2 :
    blocks a = false ->
    wrapsAt v frag gs gs' ->
    wrapsAt v frag (l1 ++ Elem a gs :: l2) (l1 ++ Elem a gs' :: l2).

Lemma wrapsAt_cons v frag c cs cs' :
  wrapsAt v frag cs cs' -> wrapsAt v frag (c :: cs) (c :: cs').
Proof.
  intros H. destruct H as [l1 l2|l1 a gs gs' l2 Ha Hg].
  - apply (wraps_here v frag (c :: l1) l2).
  - apply (wraps_below v frag (c :: l1) a gs gs' l2 Ha Hg).
Qed.

(** Replacing the text node of rank [k], when the walk does not skip it, is
    such a replacement. *)
Lemma replaceIn_wrapsAt f cs : forall k v,
  nth_error (flat_map (textsOf false) cs) k
  = Some {| skippable := false; nodeValue := v |} ->
  wrapsAt v (f v) cs (replaceIn f k cs).
Proof.
  assert (Hnode : forall n, match n with
            | TextNode _ => True
            | Elem _ gs => forall k v,
                nth_error (flat_map (textsOf false) gs) k
                = Some {| skippable := false; nodeValue := v |} ->
                wrapsAt v (f v) gs (replaceIn f k gs)
            end).
  { induction n as [w|a gs IH] using node_ind'; [exact I|].
    induction IH as [|c gs Hc Hgs IHgs]; intros k v Hk.
    - destruct k; discriminate.
    - cbn [flat_map replaceIn] in *.
      destruct (k <? countText c) eqn:E.
      + apply Nat.ltb_lt in E.
        rewrite nth_error_app1 in Hk by (rewrite textsOf_length; exact E).
        destruct c as [w|a' gs'].
        * simpl in E. assert (k = 0) as -> by lia. simpl in Hk.
          injection Hk as ->. apply (wraps_here v (f v) [] gs).
        * rewrite replaceText_elem. simpl in Hk.
          destruct (blocks a') eqn:Ha.
          -- exfalso. assert (Hb := textsOf_blocked (Elem a' gs')).
             simpl in Hb. rewrite List.Forall_forall in Hb.
             apply nth_error_In in Hk. apply Hb in Hk. discriminate.
          -- apply (wraps_below v (f v) [] a' gs' _ gs Ha). apply Hc, Hk.
      + apply Nat.ltb_ge in E.
        rewrite nth_error_app2 in Hk by (rewrite textsOf_length; exact E).
        rewrite textsOf_length in Hk. apply wrapsAt_cons. apply IHgs, Hk. }
  exact (Hnode (Elem {| tag := EmptyString; highlightClass := false; quoteId := None |} cs)).
Qed.

(** *** Markers do not nest *)

(** No marker lies inside another marker; [inside] tells whether the node
    itself lies inside one. *)
Fixpoint noNesting (inside : bool) (n : node) : bool :=
  match n with
  | TextNode _ => true
  | Elem a cs =>
      if isMarker a then negb inside && forallb (noNesting true) cs
      else forallb (noNesting inside) cs
  end.

(** The number of markers around each text node, in document order. *)
Fixpoint wrapCounts (depth : nat) (n : node) : list nat :=
  match n with
  | TextNode _ => [depth]
  | Elem a cs => flat_map (wrapCounts (if isMarker a then S depth else depth)) cs
  end.

Lemma noNesting_wrapCounts n : forall inside,
  noNesting inside n = true ->
  Forall (fun c => c <= 1) (wrapCounts (if inside then 1 else 0) n).
Proof.
  induction n as [v|a cs IH] using node_ind'; intros inside H; simpl in *.
  - constructor; [destruct inside; lia | constructor].
  - destruct (isMarker a).
    + apply andb_true_iff in H as [Hin H]. destruct inside; [discriminate|].
      clear Hin. induction IH as [|c cs Hc _ IHcs]; simpl in *; [constructor|].
      apply andb_true_iff in H as [H1 H2]. apply Forall_app. split.
      * apply (Hc true H1).
      * apply IHcs, H2.
    + induction IH as [|c cs Hc _ IHcs]; simpl in *; [constructor|].
      apply andb_true_iff in H as [H1 H2]. apply Forall_app. split.
      * apply (Hc inside H1).
      * apply IHcs, H2.
Qed.

Lemma blocks_marker a : blocks a = false -> isMarker a = false.
Proof.
  unfold blocks, isMarker. intros H. apply orb_false_iff in H as [_ ->]. reflexivity.
Qed.

Lemma wrapsAt_noNesting v frag cs cs' :
  wrapsAt v frag cs cs' ->
  forallb (noNesting false) frag = true ->
  forallb (noNesting false) cs = true ->
  forallb (noNesting false) cs' = true.
Proof.
  intros H Hfrag. induction H as [l1 l2|l1 a gs gs' l2 Ha Hg IH]; intros Hcs.
  - rewrite forallb_app in Hcs. apply andb_true_iff in Hcs as [H1 H2].
    simpl in H2. rewrite !forallb_app, H1, Hfrag, H2. reflexivity.
  - rewrite forallb_app in Hcs. apply andb_true_iff in Hcs as [H1 H2].
    simpl in H2. rewrite (blocks_marker a Ha) in H2.
    apply andb_true_iff in H2 as [H2 H3].
    rewrite forallb_app, H1. simpl. rewrite (blocks_marker a Ha), (IH H2), H3.
    reflexivity.
Qed.

Lemma wrapTextMatch_noNesting s e qid v :
  forallb (noNesting false) (wrapTextMatch s e qid v) = true.
Proof.
  unfold wrapTextMatch. rewrite forallb_app.
  destruct (isEmpty (slice v 0 s)); destruct (isEmpty (slice v s e));
    destruct (isEmpty (sliceFrom v e)); reflexivity.
Qed.

(** *** The markers of a document *)

Lemma markers_app (l1 l2 : list node) : markers (l1 ++ l2) = markers l1 ++ markers l2.
Proof. unfold markers. apply flat_map_app. Qed.


Lemma slices_join (v : text) (s e : nat) :
  s <= e -> slice v 0 s ++ slice v s e ++ sliceFrom v e = v.
Proof.
  intros H. unfold slice, sliceFrom. rewrite Nat.sub_0_r. cbn [skipn].
  transitivity (firstn s v ++ skipn s v); [|apply firstn_skipn]. f_equal.
  replace (skipn e v) with (skipn (e - s) (skipn s v)); [apply firstn_skipn|].
  rewrite skipn_skipn. f_equal. lia.
Qed.

Lemma markers_wrapTextMatch s e qid v :
  markers (wrapTextMatch s e qid v)
  = [(if isEmpty qid then None else Some qid, slice v s e)].
Proof.
  unfold wrapTextMatch, markers. rewrite flat_map_app.
  destruct (isEmpty (slice v 0 s)); destruct (slice v s e);
    destruct (isEmpty (sliceFrom v e)); simpl; rewrite ?app_nil_r; reflexivity.
Qed.

(** *** Clearing the markers *)

(** [clearNode] on the child list of an element that is not a marker, and
    [clearHighlights] on the children of the body. *)
Definition clearList (norm : bool) (cs : list node) : list node :=
  let norm' := norm || existsb isMarkerNode cs in
  let cs' := map (clearNode norm') cs in
  if norm' then normalizeTexts cs' else cs'.

Lemma clearNode_elem norm a cs :
  clearNode norm (Elem a cs)
  = if isMarker a then TextNode (textContent (Elem a cs)) else Elem a (clearList norm cs).
Proof. reflexivity. Qed.

Lemma clearHighlights_clearList d : clearHighlights d = clearList false d.
Proof. reflexivity. Qed.

(** A child list without empty text nodes and without adjacent text nodes,
    and a tree with such child lists only. *)
Fixpoint flatNormal (cs : list node) : bool :=
  match cs with
  | [] => true
  | TextNode v :: rest =>
      negb (isEmpty v)
      && match rest with TextNode _ :: _ => false | _ => true end
      && flatNormal rest
  | Elem _ _ :: rest => flatNormal rest
  end.

Fixpoint deepNormal (n : node) : bool :=
  match n with
  | TextNode _ => true
  | Elem _ cs => flatNormal cs && forallb deepNormal cs
  end.

Definition normalDoc (cs : list node) : bool :=
  flatNormal cs && forallb deepNormal cs.

Lemma normalizeTexts_id cs : flatNormal cs = true -> normalizeTexts cs = cs.
Proof.
  induction cs as [|c cs IH]; [reflexivity|]. destruct c as [v|a gs]; simpl.
  - intros H. apply andb_true_iff in H as [H H3]. apply andb_true_iff in H as [H1 H2].
    rewrite (IH H3). destruct cs as [|[w|a gs] cs']; try discriminate;
      destruct (isEmpty v); try discriminate; reflexivity.
  - intros H. rewrite (IH H). reflexivity.
Qed.

Lemma normalizeTexts_flatNormal cs : flatNormal (normalizeTexts cs) = true.
Proof.
  induction cs as [|c cs IH]; [reflexivity|]. destruct c as [v|a gs]; simpl.
  - destruct (normalizeTexts cs) as [|[w|a gs] r] eqn:E; simpl in *.
    + destruct v; reflexivity.
    + apply andb_true_iff in IH as [IH H3]. apply andb_true_iff in IH as [H1 H2].
      rewrite H2, H3. destruct w; [discriminate|]. destruct v; reflexivity.
    + destruct v; simpl; exact IH.
  - exact IH.
Qed.

Lemma normalizeTexts_app_congr (l x y : list node) :
  normalizeTexts x = normalizeTexts y -> normalizeTexts (l ++ x) = normalizeTexts (l ++ y).
Proof.
  intros H. induction l as [|c l IH]; simpl; [exact H|]. rewrite IH. reflexivity.
Qed.

Lemma normalizeTexts_merge (a b : text) (l : list node) :
  normalizeTexts (TextNode a :: TextNode b :: l) = normalizeTexts (TextNode (a ++ b) :: l).
Proof.
  simpl. destruct (normalizeTexts l) as [|[w|x gs] r].
  - destruct b; simpl.
    + rewrite app_nil_r. reflexivity.
    + destruct a; reflexivity.
  - rewrite app_assoc. reflexivity.
  - destruct b; simpl.
    + rewrite app_nil_r. reflexivity.
    + destruct a; reflexivity.
Qed.

Lemma normalizeTexts_empty (l : list node) :
  normalizeTexts (TextNode [] :: l) = normalizeTexts l.
Proof. simpl. destruct (normalizeTexts l) as [|[w|x gs] r]; reflexivity. Qed.

(** The text nodes of a wrapped match normalize back to the text node. *)
Lemma normalizeTexts_pieces (b m a : text) (l : list node) :
  normalizeTexts ((if isEmpty b then [] else [TextNode b])
                  ++ TextNode m :: (if isEmpty a then [] else [TextNode a]) ++ l)
  = normalizeTexts (TextNode (b ++ m ++ a) :: l).
Proof.
  transitivity (normalizeTexts (TextNode b :: TextNode m :: TextNode a :: l)).
  - assert (Ha : normalizeTexts ((if isEmpty a then [] else [TextNode a]) ++ l)
                 = normalizeTexts (TextNode a :: l)).
    { destruct a; [rewrite normalizeTexts_empty|]; reflexivity. }
    assert (Hm : normalizeTexts (TextNode m :: (if isEmpty a then [] else [TextNode a]) ++ l)
                 = normalizeTexts (TextNode m :: TextNode a :: l)).
    { apply (normalizeTexts_app_congr [TextNode m]), Ha. }
    destruct b as [|c b]; cbn [isEmpty app].
    + rewrite normalizeTexts_empty. exact Hm.
    + apply (normalizeTexts_app_congr [TextNode (c :: b)]), Hm.
  - rewrite <- normalizeTexts_merge.
    apply (normalizeTexts_app_congr [TextNode b]), normalizeTexts_merge.
Qed.

Lemma normalizeTexts_forallb (P : node -> bool) (cs : list node) :
  (forall v, P (TextNode v) = true) ->
  forallb P cs = true -> forallb P (normalizeTexts cs) = true.
Proof.
  intros Htext. induction cs as [|c cs IH]; [reflexivity|]. simpl. intros H.
  apply andb_true_iff in H as [Hc Hcs]. specialize (IH Hcs).
  destruct c as [v|a gs]; simpl.
  - destruct (normalizeTexts cs) as [|[w|x gs] r]; simpl in *.
    + destruct (isEmpty v); simpl; rewrite ?Htext; reflexivity.
    + rewrite Htext. rewrite Htext in IH. exact IH.
    + destruct (isEmpty v); simpl; rewrite ?Htext; exact IH.
  - rewrite Hc. exact IH.
Qed.

Lemma normalizeTexts_elem (a : attrs) (gs : list node) (cs : list node) :
  In (Elem a gs) cs -> In (Elem a gs) (normalizeTexts cs).
Proof.
  induction cs as [|c cs IH]; [intros []|]. simpl. intros [->|H].
  - left. reflexivity.
  - specialize (IH H). destruct c as [v|x ys]; [|right; exact IH].
    destruct (normalizeTexts cs) as [|[w|x ys] r]; simpl in *.
    + destruct IH.
    + destruct IH as [IH|IH]; [discriminate | right; exact IH].
    + destruct (isEmpty v); [exact IH | right; exact IH].
Qed.

Lemma markers_normalizeTexts (cs : list node) : markers (normalizeTexts cs) = markers cs.
Proof.
  induction cs as [|c cs IH]; [reflexivity|]. destruct c as [v|a gs]; simpl.
  - destruct (normalizeTexts cs) as [|[w|x ys] r]; simpl in *;
      try destruct (isEmpty v); exact IH.
  - unfold markers in *. simpl. rewrite IH. reflexivity.
Qed.

(** A cleared document holds no marker. *)
Lemma clearNode_markers n : forall norm, markersOf (clearNode norm n) = [].
Proof.
  induction n as [v|a cs IH] using node_ind'; intros norm; [reflexivity|].
  rewrite clearNode_elem. destruct (isMarker a) eqn:Ha; [reflexivity|].
  simpl. rewrite Ha. simpl. fold (markers (clearList norm cs)).
  unfold clearList. set (norm' := norm || existsb isMarkerNode cs).
  assert (H : markers (map (clearNode norm') cs) = []).
  { clearbody norm'. unfold markers. induction IH as [|c cs Hc _ IHcs]; [reflexivity|].
    simpl. rewrite Hc, IHcs. reflexivity. }
  destruct norm'; [rewrite markers_normalizeTexts|]; exact H.
Qed.

Lemma clearList_markers norm cs : markers (clearList norm cs) = [].
Proof.
  unfold clearList. set (norm' := norm || existsb isMarkerNode cs). clearbody norm'.
  assert (H : markers (map (clearNode norm') cs) = []).
  { unfold markers. induction cs as [|c cs IH]; [reflexivity|].
    simpl. rewrite clearNode_markers, IH. reflexivity. }
  destruct norm'; [rewrite markers_normalizeTexts|]; exact H.
Qed.

(** Clearing a document without markers changes nothing. *)
Lemma clearNode_id n : markersOf n = [] -> clearNode false n = n.
Proof.
  induction n as [v|a cs IH] using node_ind'; [reflexivity|].
  simpl markersOf. intros H. apply app_eq_nil in H as [Ha Hcs].
  rewrite clearNode_elem. destruct (isMarker a); [discriminate|]. f_equal.
  unfold clearList.
  assert (Hall : existsb isMarkerNode cs = false /\ map (clearNode false) cs = cs).
  { clear Ha. induction IH as [|c cs Hc _ IHcs]; [split; reflexivity|].
    simpl in Hcs. apply app_eq_nil in Hcs as [H1 H2].
    destruct (IHcs H2) as [He Hm]. simpl. rewrite He, Hm, (Hc H1). split; [|reflexivity].
    destruct c as [v|x ys]; [reflexivity|]. simpl in *.
    destruct (isMarker x); [discriminate | reflexivity]. }
  destruct Hall as [He Hm]. cbv zeta. rewrite He. cbn [orb]. exact Hm.
Qed.

Lemma clearList_id cs : markers cs = [] -> clearList false cs = cs.
Proof.
  intros H. unfold clearList.
  assert (Hall : existsb isMarkerNode cs = false /\ map (clearNode false) cs = cs).
  { induction cs as [|c cs IH]; [split; reflexivity|].
    unfold markers in H. simpl in H. apply app_eq_nil in H as [H1 H2].
    destruct (IH H2) as [He Hm]. simpl. rewrite He, Hm, (clearNode_id c H1).
    split; [|reflexivity].
    destruct c as [v|x ys]; [reflexivity|]. simpl in *.
    destruct (isMarker x); [discriminate | reflexivity]. }
  destruct Hall as [He Hm]. cbv zeta. rewrite He. cbn [orb]. exact Hm.
Qed.

(** Once the cleared subtree is normalized, normalizing it again (as the
    [normalize()] of an ancestor does) changes nothing. *)
Lemma clearList_settled cs norm :
  Forall (fun n => forall norm, deepNormal (clearNode norm n) = true ->
                                clearNode true n = clearNode norm n) cs ->
  normalDoc (clearList norm cs) = true ->
  clearList true cs = clearList norm cs.
Proof.
  intros Hall. unfold clearList. cbv zeta. cbn [orb].
  destruct (norm || existsb isMarkerNode cs) eqn:E; [reflexivity|].
  unfold normalDoc. intros H. apply andb_true_iff in H as [Hflat Hdeep].
  assert (Hmap : map (clearNode true) cs = map (clearNode false) cs).
  { clear Hflat E. induction Hall as [|c cs Hc _ IH]; [reflexivity|].
    simpl in *. apply andb_true_iff in Hdeep as [H1 H2].
    rewrite (Hc false H1), (IH H2). reflexivity. }
  rewrite Hmap. apply normalizeTexts_id, Hflat.
Qed.

Lemma clearNode_settled n : forall norm,
  deepNormal (clearNode norm n) = true -> clearNode true n = clearNode norm n.
Proof.
  induction n as [v|a cs IH] using node_ind'; intros norm H; [reflexivity|].
  rewrite !clearNode_elem in *. destruct (isMarker a); [reflexivity|].
  f_equal. apply clearList_settled; [exact IH | exact H].
Qed.

Lemma textContent_span (a : attrs) (m : text) :
  textContent (Elem a (if isEmpty m then [] else [TextNode m])) = m.
Proof. destruct m; simpl; rewrite ?app_nil_r; reflexivity. Qed.

Lemma existsb_isMarkerNode_wrap s e qid v :
  existsb isMarkerNode (wrapTextMatch s e qid v) = true.
Proof.
  unfold wrapTextMatch. rewrite existsb_app. simpl. apply orb_true_r.
Qed.

Lemma clear_wrapTextMatch s e qid v :
  map (clearNode true) (wrapTextMatch s e qid v)
  = (if isEmpty (slice v 0 s) then [] else [TextNode (slice v 0 s)])
    ++ TextNode (slice v s e)
       :: (if isEmpty (sliceFrom v e) then [] else [TextNode (sliceFrom v e)]).
Proof.
  unfold wrapTextMatch. rewrite map_app. cbn [map].
  rewrite clearNode_elem. cbn [isMarker highlightClass tag andb String.eqb].
  replace (String.eqb "span" "span") with true by reflexivity.
  rewrite textContent_span.
  destruct (isEmpty (slice v 0 s)); destruct (isEmpty (sliceFrom v e)); reflexivity.
Qed.

(** Wrapping a match and clearing gives the cleared document back, when
    that one is normalized. *)
Lemma clear_wrapsAt v s e qid cs cs' :
  wrapsAt v (wrapTextMatch s e qid v) cs cs' ->
  s <= e ->
  forall norm,
    normalDoc (clearList norm cs) = true ->
    clearList norm cs' = clearList norm cs.
Proof.
  intros H Hse. induction H as [l1 l2|l1 a gs gs' l2 Ha Hg IH]; intros norm Hnormal.
  - rewrite <- (clearList_settled (l1 ++ TextNode v :: l2) norm);
      [|apply List.Forall_forall; intros n _; apply clearNode_settled | exact Hnormal].
    unfold clearList. cbv zeta. cbn [orb].
    rewrite !existsb_app, existsb_isMarkerNode_wrap, orb_true_r, orb_true_r.
    rewrite !map_app, clear_wrapTextMatch. cbn [map clearNode].
    apply normalizeTexts_app_congr.
    rewrite <- app_assoc. cbn [app]. rewrite normalizeTexts_pieces, slices_join by exact Hse.
    reflexivity.
  - assert (Hex : existsb isMarkerNode (l1 ++ Elem a gs' :: l2)
                  = existsb isMarkerNode (l1 ++ Elem a gs :: l2))
      by (rewrite !existsb_app; reflexivity).
    unfold clearList in *. cbv zeta in *. rewrite Hex.
    set (nb := norm || existsb isMarkerNode (l1 ++ Elem a gs :: l2)) in *.
    assert (Hmap : map (clearNode nb) (l1 ++ Elem a gs' :: l2)
                   = map (clearNode nb) (l1 ++ Elem a gs :: l2)).
    { rewrite !map_app. cbn [map]. rewrite !clearNode_elem, (blocks_marker a Ha).
      do 3 f_equal. apply IH.
      assert (Hin : In (Elem a (clearList nb gs))
                      (if nb then normalizeTexts (map (clearNode nb) (l1 ++ Elem a gs :: l2))
                       else map (clearNode nb) (l1 ++ Elem a gs :: l2))).
      { assert (Hin0 : In (Elem a (clearList nb gs))
                         (map (clearNode nb) (l1 ++ Elem a gs :: l2))).
        { rewrite map_app. apply in_or_app. right. left.
          rewrite clearNode_elem, (blocks_marker a Ha). reflexivity. }
        destruct nb; [apply normalizeTexts_elem|]; exact Hin0. }
      unfold normalDoc in Hnormal. apply andb_true_iff in Hnormal as [_ Hdeep].
      rewrite forallb_forall in Hdeep. apply (Hdeep _ Hin). }
    rewrite Hmap. reflexivity.
Qed.

(** Clearing keeps a normalized document normalized. *)
Lemma flatNormal_map_clear norm cs :
  existsb isMarkerNode cs = false ->
  flatNormal (map (clearNode norm) cs) = flatNormal cs.
Proof.
  induction cs as [|c cs IH]; [reflexivity|]. simpl. intros H.
  apply orb_false_iff in H as [Hc Hcs]. specialize (IH Hcs).
  destruct c as [v|a gs].
  - simpl. rewrite IH. f_equal. f_equal.
    destruct cs as [|[w|x ys] r]; try reflexivity.
    simpl in Hcs. apply orb_false_iff in Hcs as [Hx _].
    cbn [map]. rewrite clearNode_elem. simpl in Hx. rewrite Hx. reflexivity.
  - rewrite clearNode_elem. simpl in Hc. rewrite Hc. simpl. exact IH.
Qed.

Lemma clearList_normal_aux cs norm :
  Forall (fun n => forall norm, deepNormal n = true ->
                                deepNormal (clearNode norm n) = true) cs ->
  normalDoc cs = true -> normalDoc (clearList norm cs) = true.
Proof.
  intros Hall. unfold normalDoc at 1. intros H. apply andb_true_iff in H as [Hflat Hdeep].
  unfold clearList. cbv zeta. set (nb := norm || existsb isMarkerNode cs).
  assert (Hmap : forallb deepNormal (map (clearNode nb) cs) = true).
  { clearbody nb. clear Hflat. induction Hall as [|c cs Hc _ IH]; [reflexivity|].
    simpl in *. apply andb_true_iff in Hdeep as [H1 H2].
    rewrite (Hc nb H1), (IH H2). reflexivity. }
  destruct nb eqn:E; unfold normalDoc.
  - rewrite normalizeTexts_flatNormal. simpl.
    apply normalizeTexts_forallb; [reflexivity | exact Hmap].
  - rewrite Hmap, andb_true_r. subst nb. apply orb_false_iff in E as [_ E].
    rewrite (flatNormal_map_clear false cs E). exact Hflat.
Qed.

Lemma clearNode_normal n : forall norm,
  deepNormal n = true -> deepNormal (clearNode norm n) = true.
Proof.
  induction n as [v|a cs IH] using node_ind'; intros norm H; [reflexivity|].
  rewrite clearNode_elem. destruct (isMarker a); [reflexivity|].
  apply (clearList_normal_aux cs norm IH H).
Qed.

Lemma clearList_normal cs norm :
  normalDoc cs = true -> normalDoc (clearList norm cs) = true.
Proof.
  apply clearList_normal_aux. apply List.Forall_forall. intros n _.
  apply clearNode_normal.
Qed.

End DomSpec.


(** ** The Highlighter *)

Module HighlighterSpec.
Import Text TextSpec Locator LocatorSpec Dom DomSpec Highlighter.

(** *** The signature guard *)

(** C3. The signature of a quote set joins, for each quote, its id and the
    length of its text; and a second [refreshHighlights] for the same URL and
    the same quotes leaves the state of the first one as it is: the guard
    returns before [applyHighlights], so the document is not touched. *)
Theorem refresh_again_is_noop (url : option text) (res : option (list entry)) (st : page) :
  (forall quotes,
      signature quotes
      = join (lit "|")
          (map (fun q => id q ++ lit ":" ++ ofNat (length (text_ q))) quotes)) /\
  (forall u quotes,
      url = Some u -> res = Some quotes ->
      lastHighlightUrl (refreshHighlights url res st) = u /\
      lastHighlightSignature (refreshHighlights url res st) = signature quotes) /\
  refreshHighlights url res (refreshHighlights url res st)
  = refreshHighlights url res st.
Proof.
  split; [reflexivity|]. split.
  - intros u quotes -> ->. unfold refreshHighlights.
    destruct (eqb (lastHighlightUrl st) u && eqb (lastHighlightSignature st) (signature quotes))
      eqn:E; [|split; reflexivity].
    apply andb_true_iff in E as [Eu Es]. apply eqb_eq in Eu, Es. auto.
  - unfold refreshHighlights. destruct url as [u|]; [|reflexivity].
    destruct res as [quotes|]; [|reflexivity].
    destruct (eqb (lastHighlightUrl st) u && eqb (lastHighlightSignature st) (signature quotes))
      eqn:E.
    + rewrite E. reflexivity.
    + simpl. rewrite !eqb_refl. reflexivity.
Qed.

(** *** Scrolling to a quote *)

Definition withDom (st : page) (d : document) : page :=
  {| lastHighlightUrl := lastHighlightUrl st;
     lastHighlightSignature := lastHighlightSignature st;
     dom := d |}.


















(** A page that shows the marker of quote [q1]. *)
Definition markedPage : page :=
  {| lastHighlightUrl := lit "https://example.org/a";
     lastHighlightSignature := lit "q1:5";
     dom := [Elem {| tag := "p"; highlightClass := false; quoteId := None |}
               [TextNode (lit "say ");
                Elem {| tag := "span"; highlightClass := true; quoteId := Some (lit "q1") |}
                  [TextNode (lit "hello")];
                TextNode (lit " again")]] |}.

Definition helloPayload : entry :=
  {| id := lit "q1"; text_ := lit "hello"; contextBefore := []; contextAfter := [] |}.



(** The other steps. The marker of [q1] is found by its id at once; a quote
    without id is found by its text, case and outer white space left aside;
    and a quote whose marker is made by [refreshHighlights] is found by its
    id after it. *)
Example scrollToQuote_by_id :
  scrollToQuote None None helloPayload markedPage = (markedPage, Some 0).
Proof. reflexivity. Qed.

Example scrollToQuote_by_text :
  scrollToQuote None None
    {| id := []; text_ := lit " HELLO"; contextBefore := []; contextAfter := [] |}
    markedPage
  = (markedPage, Some 0).
Proof. reflexivity. Qed.

Example scrollToQuote_after_refresh :
  let st := {| lastHighlightUrl := []; lastHighlightSignature := [];
               dom := [Elem {| tag := "p"; highlightClass := false; quoteId := None |}
                         [TextNode (lit "say hello again")]] |} in
  let result := scrollToQuote (Some (lit "https://example.org/a")) (Some [helloPayload])
                  helloPayload st in
  result = (refreshHighlights (Some (lit "https://example.org/a")) (Some [helloPayload]) st,
            Some 0) /\
  dom (fst result) = dom markedPage.
Proof. split; reflexivity. Qed.

(** A blank text is the malformed input that is treated as not found: the
    call returns at once, before any lookup, with the state untouched. *)
Example scrollToQuote_blank_text (url : option text) (res : option (list entry))
    (payload : entry) (st : page) :
  trim (text_ payload) = [] -> scrollToQuote url res payload st = (st, None).
Proof. intros H. unfold scrollToQuote. rewrite H. reflexivity. Qed.

(** *** One entry *)

Lemma toLowerCase_slice (v : text) (s len : nat) :
  toLowerCase (slice v s (s + len)) = firstn len (skipn s (toLowerCase v)).
Proof.
  unfold slice, toLowerCase. replace (s + len - s) with len by lia.
  rewrite <- firstn_map, <- skipn_map. reflexivity.
Qed.

(** [highlightEntry] leaves the document as it is or wraps one occurrence of
    the entry's text, in a text node that the walk does not skip. *)
Lemma highlightEntry_effect (e : entry) (d : document) :
  fst (highlightEntry e d) = d \/
  exists v s,
    wrapsAt v (wrapTextMatch s (s + length (trim (text_ e))) (id e) v)
      d (fst (highlightEntry e d)) /\
    toLowerCase (slice v s (s + length (trim (text_ e)))) = toLowerCase (trim (text_ e)).
Proof.
  unfold highlightEntry.
  destruct (findBestMatchInDocument e (textNodes d)) as [m|] eqn:E; [|left; reflexivity].
  right. apply findBest_sound in E as (nd & Hnth & Hskip & Hocc & Hend).
  exists (nodeValue nd), (m_start m). cbn [fst]. rewrite Hend. split.
  - apply replaceIn_wrapsAt. unfold textNodes in Hnth. rewrite Hnth.
    destruct nd as [sk v]. simpl in *. subst sk. reflexivity.
  - rewrite toLowerCase_slice. unfold occursAt in Hocc.
    rewrite toLowerCase_length in Hocc. exact Hocc.
Qed.

Lemma highlightEntry_noNesting (e : entry) (d : document) :
  forallb (noNesting false) d = true ->
  forallb (noNesting false) (fst (highlightEntry e d)) = true.
Proof.
  intros H. destruct (highlightEntry_effect e d) as [->|(v & s & Hw & _)]; [exact H|].
  eapply wrapsAt_noNesting; [exact Hw | apply wrapTextMatch_noNesting | exact H].
Qed.



Lemma wrapsAt_markers_length v frag cs cs' :
  wrapsAt v frag cs cs' ->
  length (markers cs') = length (markers cs) + length (markers frag).
Proof.
  intros H. induction H as [l1 l2|l1 a gs gs' l2 Ha Hg IH].
  - rewrite !markers_app, !length_app. simpl. lia.
  - change (Elem a gs' :: l2) with ([Elem a gs'] ++ l2).
    change (Elem a gs :: l2) with ([Elem a gs] ++ l2).
    rewrite !markers_app, !length_app.
    assert (Hm : forall ys, markers [Elem a ys] = markers ys).
    { intros ys. unfold markers. simpl. rewrite (blocks_marker a Ha). simpl.
      apply app_nil_r. }
    rewrite !Hm. lia.
Qed.


Lemma highlightEntry_clear (e : entry) (d : document) :
  normalDoc (clearHighlights d) = true ->
  clearHighlights (fst (highlightEntry e d)) = clearHighlights d.
Proof.
  intros H. destruct (highlightEntry_effect e d) as [->|(v & s & Hw & _)]; [reflexivity|].
  rewrite !clearHighlights_clearList in *.
  eapply clear_wrapsAt; [exact Hw | lia | exact H].
Qed.

(** *** A list of entries *)

Definition highlightAll (entries : list entry) (d : document) : document :=
  fold_left (fun d e => fst (highlightEntry e d)) entries d.

Lemma highlightAll_noNesting entries : forall d,
  forallb (noNesting false) d = true ->
  forallb (noNesting false) (highlightAll entries d) = true.
Proof.
  induction entries as [|e entries IH]; intros d H; [exact H|].
  apply IH, highlightEntry_noNesting, H.
Qed.



Lemma highlightAll_clear entries : forall d,
  normalDoc (clearHighlights d) = true ->
  clearHighlights (highlightAll entries d) = clearHighlights d.
Proof.
  induction entries as [|e entries IH]; intros d H; [reflexivity|].
  simpl. rewrite IH; rewrite highlightEntry_clear by exact H; [reflexivity | exact H].
Qed.

Lemma markers_nil_noNesting n : forall inside,
  markersOf n = [] -> noNesting inside n = true.
Proof.
  induction n as [v|a cs IH] using node_ind'; intros inside H; [reflexivity|].
  simpl in *. apply app_eq_nil in H as [Ha Hcs].
  destruct (isMarker a); [discriminate|].
  induction IH as [|c cs Hc _ IHcs]; [reflexivity|].
  simpl in *. apply app_eq_nil in Hcs as [H1 H2].
  rewrite (Hc inside H1), (IHcs H2). reflexivity.
Qed.

Lemma clearHighlights_noNesting (d : document) :
  forallb (noNesting false) (clearHighlights d) = true.
Proof.
  assert (H := clearList_markers false d). rewrite <- clearHighlights_clearList in H.
  unfold markers in H. induction (clearHighlights d) as [|c cs IH]; [reflexivity|].
  simpl in *. apply app_eq_nil in H as [H1 H2].
  rewrite (markers_nil_noNesting c false H1), (IH H2). reflexivity.
Qed.

Lemma applyHighlights_noNesting (quotes : list entry) (d : document) :
  forallb (noNesting false) (applyHighlights quotes d) = true.
Proof. apply highlightAll_noNesting, clearHighlights_noNesting. Qed.

(** Applying the same quotes again, on a normalized document. *)
Lemma applyHighlights_again (quotes : list entry) (d : document) :
  normalDoc d = true ->
  applyHighlights quotes (applyHighlights quotes d) = applyHighlights quotes d.
Proof.
  intros H. unfold applyHighlights at 1. fold (highlightAll (normalized quotes)).
  assert (Hclear : clearHighlights (applyHighlights quotes d) = clearHighlights d).
  { unfold applyHighlights. fold (highlightAll (normalized quotes) (clearHighlights d)).
    assert (Hnone : clearHighlights (clearHighlights d) = clearHighlights d).
    { rewrite clearHighlights_clearList at 1. apply clearList_id.
      rewrite clearHighlights_clearList. apply clearList_markers. }
    rewrite highlightAll_clear; rewrite Hnone; [reflexivity|].
    rewrite clearHighlights_clearList. apply clearList_normal, H. }
  rewrite Hclear. reflexivity.
Qed.

(** *** Longest first *)















(** *** Markers never nest *)

Inductive operation :=
| Apply (quotes : list entry)
| Refresh (url : option text) (res : option (list entry)).

Definition perform (st : page) (o : operation) : page :=
  match o with
  | Apply quotes => withDom st (applyHighlights quotes (dom st))
  | Refresh url res => refreshHighlights url res st
  end.

Definition run (ops : list operation) (st : page) : page := fold_left perform ops st.

Lemma perform_noNesting (o : operation) (st : page) :
  forallb (noNesting false) (dom st) = true ->
  forallb (noNesting false) (dom (perform st o)) = true.
Proof.
  intros H. destruct o as [quotes|url res]; simpl.
  - apply applyHighlights_noNesting.
  - unfold refreshHighlights. destruct url as [u|]; [|exact H].
    destruct res as [quotes|]; [|exact H].
    destruct (eqb (lastHighlightUrl st) u && eqb (lastHighlightSignature st) (signature quotes));
      [exact H | apply applyHighlights_noNesting].
Qed.

Lemma run_noNesting (ops : list operation) : forall st,
  forallb (noNesting false) (dom st) = true ->
  forallb (noNesting false) (dom (run ops st)) = true.
Proof.
  induction ops as [|o ops IH]; intros st H; [exact H|].
  apply IH, perform_noNesting, H.
Qed.

Lemma noNesting_counts (d : document) :
  forallb (noNesting false) d = true ->
  Forall (fun c => c <= 1) (flat_map (wrapCounts 0) d).
Proof.
  induction d as [|n d IH]; simpl; intros H; [constructor|].
  apply andb_true_iff in H as [H1 H2]. apply Forall_app. split.
  - apply (noNesting_wrapCounts n false H1).
  - apply IH, H2.
Qed.

(** C7, as the code has it. [applyHighlights] leaves a document in which no
    marker lies inside another and no text node has more than one marker
    around it, and on a page that is so to begin with this holds after any
    sequence of apply and refresh operations. Applying the same quotes twice
    in succession gives the same document, and so the same markers, as
    applying them once, on a page whose text nodes are normalized (no empty
    text node, no two adjacent text nodes). *)
Theorem markers_never_nest (ops : list operation) (quotes : list entry) (st : page) :
  (forallb (noNesting false) (applyHighlights quotes (dom st)) = true /\
   Forall (fun c => c <= 1) (flat_map (wrapCounts 0) (applyHighlights quotes (dom st)))) /\
  (forallb (noNesting false) (dom st) = true ->
   forallb (noNesting false) (dom (run ops st)) = true /\
   Forall (fun c => c <= 1) (flat_map (wrapCounts 0) (dom (run ops st)))) /\
  (normalDoc (dom st) = true ->
   applyHighlights quotes (applyHighlights quotes (dom st))
   = applyHighlights quotes (dom st)).
Proof.
  split; [|split].
  - assert (H := applyHighlights_noNesting quotes (dom st)).
    split; [exact H | apply noNesting_counts, H].
  - intros Hnest. assert (H := run_noNesting ops st Hnest).
    split; [exact H | apply noNesting_counts, H].
  - apply applyHighlights_again.
Qed.

Definition plainAttrs (t : string) : attrs :=
  {| tag := t; highlightClass := false; quoteId := None |}.

Definition quoted (i t : string) : entry :=
  {| id := lit i; text_ := lit t; contextBefore := []; contextAfter := [] |}.

(** A paragraph in one text node, and the same paragraph in two adjacent
    text nodes, as a script may leave it. *)
Definition wholePage : page :=
  {| lastHighlightUrl := []; lastHighlightSignature := [];
     dom := [Elem (plainAttrs "p") [TextNode (lit "foobar hello world")]] |}.

Definition splitPage : document :=
  [Elem (plainAttrs "p") [TextNode (lit "foo"); TextNode (lit "bar hello world")]].

Definition twoQuotes : list entry := [quoted "a" "foobar"; quoted "b" "hello"].

Lemma markers_never_nest_witness :
  forallb (noNesting false) (dom wholePage) = true /\
  normalDoc (dom wholePage) = true /\
  markers (applyHighlights twoQuotes (applyHighlights twoQuotes (dom wholePage)))
  = [(Some (lit "a"), lit "foobar"); (Some (lit "b"), lit "hello")].
Proof.
  assert (Hnest : forallb (noNesting false) (dom wholePage) = true) by reflexivity.
  assert (Hnormal : normalDoc (dom wholePage) = true) by reflexivity.
  split; [exact Hnest|]. split; [exact Hnormal|].
  destruct (markers_never_nest [] twoQuotes wholePage) as (_ & _ & Hagain).
  rewrite (Hagain Hnormal). reflexivity.
Defined.

(** On the split paragraph the first call cannot find "foobar", which lies
    across the two text nodes; clearing the marker of "hello" merges them, so
    the second call finds it: the two calls leave different markers. *)
Lemma markers_never_nest_counterexample :
  forallb (noNesting false) splitPage = true /\
  markers (applyHighlights twoQuotes splitPage)
  = [(Some (lit "b"), lit "hello")] /\
  markers (applyHighlights twoQuotes (applyHighlights twoQuotes splitPage))
  = [(Some (lit "a"), lit "foobar"); (Some (lit "b"), lit "hello")].
Proof. vm_compute. repeat split. Qed.

(** *** Examples *)

(** After a first refresh of the split paragraph, applying the quotes again
    would change the document, but a second refresh does not run it. *)
Definition freshPage : page :=
  {| lastHighlightUrl := []; lastHighlightSignature := []; dom := splitPage |}.

Lemma refresh_again_is_noop_witness :
  let url := Some (lit "https://example.org/a") in
  let st1 := refreshHighlights url (Some twoQuotes) freshPage in
  lastHighlightSignature st1 = lit "a:6|b:5" /\
  refreshHighlights url (Some twoQuotes) st1 = st1 /\
  applyHighlights twoQuotes (dom st1) <> dom st1.
Proof.
  intros url st1.
  destruct (refresh_again_is_noop url (Some twoQuotes) freshPage) as (_ & Hsig & Hnoop).
  destruct (Hsig _ _ eq_refl eq_refl) as [_ Hs].
  split; [unfold st1; rewrite Hs; reflexivity|]. split; [exact Hnoop|].
  vm_compute. discriminate.
Defined.




(** The length that counts is the one of the trimmed text: a quote of two
    letters between spaces is not attempted, and a quote of three letters
    between spaces is attempted as its three letters. *)
Example apply_measures_trimmed_text :
  normalized [quoted "a" "   ab   "; quoted "b" "  abc "] = [quoted "b" "abc"].
Proof. reflexivity. Qed.

End HighlighterSpec.


(** ** The arithmetic of doubles *)

Module DoubleSpec.
Import Js Double.
Local Open Scope Q_scope.

(** *** Powers of two *)

Lemma pow2_pos (e : Z) : 0 < pow2 e.
Proof. apply Qpower_0_lt. reflexivity. Qed.

Lemma pow2_plus (a b : Z) : pow2 (a + b) == pow2 a * pow2 b.
Proof. apply Qpower_plus. discriminate. Qed.

Lemma pow2_opp (a : Z) : pow2 (- a) == / pow2 a.
Proof. apply Qpower_opp. Qed.

Lemma pow2_lt (a b : Z) : (a < b)%Z -> pow2 a < pow2 b.
Proof. intros H. apply Qpower_lt_compat_l; [exact H|reflexivity]. Qed.

Lemma pow2_le (a b : Z) : (a <= b)%Z -> pow2 a <= pow2 b.
Proof. intros H. apply Qpower_le_compat_l; [exact H|discriminate]. Qed.

Lemma pow2_lt_inv (a b : Z) : pow2 a < pow2 b -> (a < b)%Z.
Proof. intros H. apply (Qpower_lt_compat_l_inv 2); [exact H|reflexivity]. Qed.

Lemma pow2_Z (n : Z) : (0 <= n)%Z -> pow2 n == inject_Z (2 ^ n).
Proof. intros H. symmetry. apply (Zpower_Qpower 2 n H). Qed.

Lemma pow2_sub (a b : Z) : pow2 (a - b) == pow2 a / pow2 b.
Proof. unfold Z.sub. rewrite pow2_plus, pow2_opp. reflexivity. Qed.

(** A fraction against a quotient of two positive integers. *)
Lemma fraction_lt (n x y : Z) (d : positive) :
  (0 < y)%Z -> (n * y < x * Zpos d)%Z -> (n # d) < inject_Z x / inject_Z y.
Proof.
  intros Hy H. apply Qlt_shift_div_l.
  - change 0 with (inject_Z 0). rewrite <- Zlt_Qlt. exact Hy.
  - unfold Qlt, Qmult, inject_Z. cbn [Qnum Qden]. rewrite Pos.mul_1_r. lia.
Qed.

Lemma fraction_gt (n x y : Z) (d : positive) :
  (0 < y)%Z -> (x * Zpos d < n * y)%Z -> inject_Z x / inject_Z y < (n # d).
Proof.
  intros Hy H. apply Qlt_shift_div_r.
  - change 0 with (inject_Z 0). rewrite <- Zlt_Qlt. exact Hy.
  - unfold Qlt, Qmult, inject_Z. cbn [Qnum Qden]. rewrite Pos.mul_1_r. lia.
Qed.

(** *** The binary exponent *)

(** [ilog2 q] is the whole part of the binary logarithm of [q]. *)
Lemma ilog2_spec (q : Q) : 0 < q -> pow2 (ilog2 q) <= q /\ q < pow2 (ilog2 q + 1).
Proof.
  intros Hq. destruct q as [n d]. unfold ilog2. cbn [Qnum Qden].
  assert (Hn : (0 < n)%Z) by (unfold Qlt in Hq; cbn in Hq; lia).
  destruct (Z.log2_spec n Hn) as [Ha1 Ha2].
  destruct (Z.log2_spec (Zpos d) ltac:(lia)) as [Hb1 Hb2].
  assert (Ha0 := Z.log2_nonneg n). assert (Hb0 := Z.log2_nonneg (Zpos d)).
  set (a := Z.log2 n) in *. set (b := Z.log2 (Zpos d)) in *.
  assert (Hpa : (0 < 2 ^ a)%Z) by (apply Z.pow_pos_nonneg; lia).
  assert (Hpb : (0 < 2 ^ b)%Z) by (apply Z.pow_pos_nonneg; lia).
  assert (Hlow : pow2 (a - b - 1) < n # d).
  { replace (a - b - 1)%Z with (a - Z.succ b)%Z by lia.
    rewrite pow2_sub, !pow2_Z by lia. apply fraction_gt; [lia|nia]. }
  assert (Hup : n # d < pow2 (a - b + 1)).
  { replace (a - b + 1)%Z with (Z.succ a - b)%Z by lia.
    rewrite pow2_sub, !pow2_Z by lia. apply fraction_lt; [lia|nia]. }
  destruct (Qle_bool (pow2 (a - b)) (n # d)) eqn:E.
  - apply Qle_bool_iff in E. split; assumption.
  - replace (a - b - 1 + 1)%Z with (a - b)%Z by lia. split; [apply Qlt_le_weak; exact Hlow|].
    apply Qnot_le_lt. intros H. apply Qle_bool_iff in H. congruence.
Qed.

Lemma ilog2_unique (q : Q) (k : Z) :
  pow2 k <= q -> q < pow2 (k + 1) -> ilog2 q = k.
Proof.
  intros H1 H2. assert (Hq : 0 < q) by (apply Qlt_le_trans with (pow2 k); [apply pow2_pos|exact H1]).
  destruct (ilog2_spec q Hq) as [S1 S2].
  assert (A : (ilog2 q < k + 1)%Z) by (apply pow2_lt_inv; lra).
  assert (B : (k < ilog2 q + 1)%Z) by (apply pow2_lt_inv; lra).
  lia.
Qed.

Lemma ilog2_comp (x y : Q) : 0 < x -> x == y -> ilog2 x = ilog2 y.
Proof.
  intros Hx H. symmetry. destruct (ilog2_spec x Hx) as [S1 S2].
  apply ilog2_unique; rewrite <- H; assumption.
Qed.

Lemma ilog2_mono (x y : Q) : 0 < x -> x <= y -> (ilog2 x <= ilog2 y)%Z.
Proof.
  intros Hx H. destruct (ilog2_spec x Hx) as [S1 _].
  destruct (ilog2_spec y ltac:(lra)) as [_ S2].
  assert (A : (ilog2 x < ilog2 y + 1)%Z) by (apply pow2_lt_inv; lra). lia.
Qed.

(** *** Rounding to a whole number *)

Lemma roundEven_comp (x y : Q) : x == y -> roundEven x = roundEven y.
Proof.
  intros H. unfold roundEven.
  assert (Hf : Qfloor x = Qfloor y) by (apply Qfloor_comp; exact H).
  rewrite Hf. replace (Qcompare (x - inject_Z (Qfloor y)) (1 # 2))
    with (Qcompare (y - inject_Z (Qfloor y)) (1 # 2)); [reflexivity|].
  apply Qcompare_comp; [|reflexivity]. rewrite H. reflexivity.
Qed.

Lemma roundEven_cases (q : Q) :
  let f := Qfloor q in
  (roundEven q = f /\ q - inject_Z f <= 1 # 2) \/
  (roundEven q = (f + 1)%Z /\ 1 # 2 <= q - inject_Z f).
Proof.
  cbv zeta. unfold roundEven.
  destruct (Qcompare_spec (q - inject_Z (Qfloor q)) (1 # 2)) as [H|H|H].
  - destruct (Z.even (Qfloor q)); [left|right]; split; try reflexivity; lra.
  - left. split; [reflexivity|lra].
  - right. split; [reflexivity|lra].
Qed.

(** [roundEven] is within one half, keeps whole numbers and keeps the
    order. *)
Lemma roundEven_bounds (q : Q) :
  q - (1 # 2) <= inject_Z (roundEven q) /\ inject_Z (roundEven q) <= q + (1 # 2).
Proof.
  assert (H1 := Qfloor_le q). assert (H2 := Qlt_floor q). rewrite inject_Z_plus in H2.
  change (inject_Z 1) with 1 in H2.
  destruct (roundEven_cases q) as [[-> H]|[-> H]]; rewrite ?inject_Z_plus;
    change (inject_Z 1) with 1; split; lra.
Qed.

Lemma roundEven_Z (z : Z) : roundEven (inject_Z z) = z.
Proof.
  unfold roundEven. rewrite Qfloor_Z.
  destruct (Qcompare_spec (inject_Z z - inject_Z z) (1 # 2)) as [H|H|H]; try lra.
  reflexivity.
Qed.

Lemma roundEven_mono (x y : Q) : x <= y -> (roundEven x <= roundEven y)%Z.
Proof.
  intros H. assert (Hf := Qfloor_resp_le x y H).
  assert (Hx := Qfloor_le x). assert (Hy := Qfloor_le y).
  unfold roundEven.
  destruct (Z.eq_dec (Qfloor x) (Qfloor y)) as [E|E].
  - rewrite <- E in *.
    destruct (Qcompare_spec (x - inject_Z (Qfloor x)) (1 # 2)) as [H1|H1|H1];
      destruct (Qcompare_spec (y - inject_Z (Qfloor x)) (1 # 2)) as [H2|H2|H2];
      try lra; destruct (Z.even (Qfloor x)); lia.
  - assert (Hlt : (Qfloor x + 1 <= Qfloor y)%Z) by lia.
    destruct (Qcompare (x - inject_Z (Qfloor x)) (1 # 2));
      destruct (Qcompare (y - inject_Z (Qfloor y)) (1 # 2));
      destruct (Z.even (Qfloor x)); destruct (Z.even (Qfloor y)); lia.
Qed.

(** *** Rounding to a double *)

Lemma ulp_pos (q : Q) : 0 < ulp q.
Proof. apply pow2_pos. Qed.

Lemma ulp_comp (x y : Q) : 0 < x -> x == y -> ulp x = ulp y.
Proof. intros Hx H. unfold ulp. rewrite (ilog2_comp x y Hx H). reflexivity. Qed.

Lemma nearest_comp (x y : Q) : 0 < x -> x == y -> nearest x == nearest y.
Proof.
  intros Hx H. unfold nearest. rewrite (ulp_comp x y Hx H).
  rewrite (roundEven_comp (x / ulp y) (y / ulp y)); [reflexivity|].
  rewrite H. reflexivity.
Qed.

(** The double nearest to [q] is within half a unit in the last place. *)
Lemma nearest_bounds (q : Q) :
  q - (1 # 2) * ulp q <= nearest q /\ nearest q <= q + (1 # 2) * ulp q.
Proof.
  assert (Hu := ulp_pos q). unfold nearest.
  destruct (roundEven_bounds (q / ulp q)) as [H1 H2].
  set (m := inject_Z (roundEven (q / ulp q))) in *. clearbody m.
  assert (E : q / ulp q * ulp q == q) by (field; lra).
  set (t := q / ulp q) in *. clearbody t. set (u := ulp q) in *. clearbody u.
  assert (A : 0 <= (m - (t - (1 # 2))) * u) by (apply Qmult_le_0_compat; lra).
  assert (B : 0 <= (t + (1 # 2) - m) * u) by (apply Qmult_le_0_compat; lra).
  split; lra.
Qed.

Lemma nearest_nonneg (q : Q) : 0 <= q -> 0 <= nearest q.
Proof.
  intros Hq. assert (Hu := ulp_pos q). unfold nearest.
  apply Qmult_le_0_compat; [|lra].
  change 0 with (inject_Z 0). rewrite <- Zle_Qle. rewrite <- (roundEven_Z 0).
  apply roundEven_mono. change (inject_Z 0) with 0.
  apply Qle_shift_div_l; lra.
Qed.

(** The significand of the nearest double has 53 bits, and 53 exactly for
    a normal number. *)
Lemma significand_upper (q : Q) :
  0 < q -> (roundEven (q / ulp q) <= 2 ^ 53)%Z.
Proof.
  intros Hq. rewrite <- (roundEven_Z (2 ^ 53)). apply roundEven_mono.
  assert (Hu := ulp_pos q). apply Qle_shift_div_r; [exact Hu|].
  destruct (ilog2_spec q Hq) as [_ H]. unfold ulp.
  rewrite <- (pow2_Z 53) by lia. rewrite <- pow2_plus.
  apply Qlt_le_weak, Qlt_le_trans with (pow2 (ilog2 q + 1)); [exact H|].
  apply pow2_le. lia.
Qed.

Lemma significand_lower (q : Q) :
  0 < q -> (-1074 <= ilog2 q - 52)%Z -> (2 ^ 52 <= roundEven (q / ulp q))%Z.
Proof.
  intros Hq Hn. rewrite <- (roundEven_Z (2 ^ 52)) at 1. apply roundEven_mono.
  assert (Hu := ulp_pos q). apply Qle_shift_div_l; [exact Hu|].
  destruct (ilog2_spec q Hq) as [H _]. unfold ulp.
  rewrite <- (pow2_Z 52) by lia. rewrite <- pow2_plus.
  rewrite Z.max_l by lia. replace (52 + (ilog2 q - 52))%Z with (ilog2 q) by lia. exact H.
Qed.

(** Between two binades the rounded values are kept apart by the power of
    two that separates them. *)
Lemma nearest_mono (x y : Q) : 0 < x -> x <= y -> nearest x <= nearest y.
Proof.
  intros Hx H. assert (Hy : 0 < y) by lra.
  assert (Hl := ilog2_mono x y Hx H).
  destruct (Z.eq_dec (Z.max (ilog2 x - 52) (-1074)) (Z.max (ilog2 y - 52) (-1074))) as [E|E].
  - unfold nearest, ulp. rewrite E. set (u := pow2 _). assert (Hu : 0 < u) by apply pow2_pos.
    apply Qmult_le_compat_r; [|lra]. rewrite <- Zle_Qle. apply roundEven_mono.
    apply Qmult_le_compat_r; [exact H|]. apply Qlt_le_weak, Qinv_lt_0_compat, Hu.
  - assert (Hlt : (Z.max (ilog2 x - 52) (-1074) < Z.max (ilog2 y - 52) (-1074))%Z) by lia.
    assert (Hny : (-1074 <= ilog2 y - 52)%Z) by lia.
    assert (Hmx := significand_upper x Hx). assert (Hmy := significand_lower y Hy Hny).
    unfold nearest. unfold ulp at 2 4. unfold ulp in Hmx, Hmy.
    set (ex := Z.max (ilog2 x - 52) (-1074)) in *. set (ey := Z.max (ilog2 y - 52) (-1074)) in *.
    set (mx := roundEven _) in *. set (my := roundEven _) in *. clearbody mx my.
    apply Qle_trans with (pow2 (53 + ex)).
    + rewrite pow2_plus, (pow2_Z 53) by lia.
      apply Qmult_le_compat_r; [|apply Qlt_le_weak, pow2_pos]. rewrite <- Zle_Qle. exact Hmx.
    + apply Qle_trans with (pow2 (52 + ey)); [apply pow2_le; lia|].
      rewrite pow2_plus, (pow2_Z 52) by lia.
      apply Qmult_le_compat_r; [|apply Qlt_le_weak, pow2_pos]. rewrite <- Zle_Qle. exact Hmy.
Qed.

(** The order of the numbers, and two numbers of the same value. *)
Definition leq (a b : number) : Prop :=
  match a, b with
  | NaN, _ | _, NaN => False
  | NegInf, _ | _, PosInf => True
  | Fin x, Fin y => x <= y
  | _, _ => False
  end.

Definition same (a b : number) : Prop :=
  match a, b with
  | Fin x, Fin y => x == y
  | PosInf, PosInf | NegInf, NegInf | NaN, NaN => True
  | _, _ => False
  end.

Definition overflows (r : Q) : bool := Qle_bool (pow2 1024) r.

(** [double] by the sign of its argument. *)
Lemma double_positive (q : Q) :
  0 < q -> double q = if overflows (nearest q) then PosInf else Fin (nearest q).
Proof.
  intros H. unfold double. destruct (Qcompare_spec q 0); [lra|lra|reflexivity].
Qed.

Lemma double_negative (q : Q) :
  q < 0 ->
  double q = if overflows (nearest (- q)) then NegInf else Fin (- nearest (- q)).
Proof.
  intros H. unfold double. destruct (Qcompare_spec q 0); [lra|reflexivity|lra].
Qed.

Lemma double_zero (q : Q) : q == 0 -> double q = Fin 0.
Proof.
  intros H. unfold double. destruct (Qcompare_spec q 0); [reflexivity|lra|lra].
Qed.

Lemma overflows_mono (x y : Q) : x <= y -> overflows x = true -> overflows y = true.
Proof. unfold overflows. rewrite !Qle_bool_iff. intros. lra. Qed.

Lemma overflows_comp (x y : Q) : x == y -> overflows x = overflows y.
Proof.
  intros H. unfold overflows. destruct (Qle_bool (pow2 1024) y) eqn:E.
  - apply Qle_bool_iff. apply Qle_bool_iff in E. lra.
  - destruct (Qle_bool (pow2 1024) x) eqn:E'; [|reflexivity].
    apply Qle_bool_iff in E'. assert (E2 : pow2 1024 <= y) by lra.
    apply Qle_bool_iff in E2. congruence.
Qed.

Lemma double_sign (q : Q) :
  (q <= 0 -> leq (double q) (Fin 0)) /\ (0 <= q -> leq (Fin 0) (double q)).
Proof.
  destruct (Qcompare_spec q 0) as [H|H|H].
  - rewrite (double_zero q H). cbn. split; intros; lra.
  - rewrite (double_negative q H). assert (Hn := nearest_nonneg (- q) ltac:(lra)).
    split; [|intros; lra]. intros _. destruct (overflows _); cbn; [exact I|lra].
  - rewrite (double_positive q H). assert (Hn := nearest_nonneg q ltac:(lra)).
    split; [intros; lra|]. intros _. destruct (overflows _); cbn; [exact I|lra].
Qed.

Lemma leq_trans (a b c : number) : leq a b -> leq b c -> leq a c.
Proof.
  destruct a as [x| | |], b as [y| | |], c as [z| | |]; cbn; try tauto. intros. lra.
Qed.

(** Rounding to a double keeps the order. *)
Lemma double_mono (x y : Q) : x <= y -> leq (double x) (double y).
Proof.
  intros H. destruct (Qlt_le_dec 0 x) as [Hx|Hx].
  - assert (Hy : 0 < y) by lra. rewrite (double_positive x Hx), (double_positive y Hy).
    assert (Hn := nearest_mono x y Hx H).
    destruct (overflows (nearest x)) eqn:Ex.
    + rewrite (overflows_mono _ _ Hn Ex). exact I.
    + destruct (overflows (nearest y)); cbn; [exact I|exact Hn].
  - destruct (Qlt_le_dec y 0) as [Hy|Hy].
    + assert (Hx' : x < 0) by lra.
      rewrite (double_negative x Hx'), (double_negative y Hy).
      assert (Hn := nearest_mono (- y) (- x) ltac:(lra) ltac:(lra)).
      destruct (overflows (nearest (- y))) eqn:Ey.
      * rewrite (overflows_mono _ _ Hn Ey). exact I.
      * destruct (overflows (nearest (- x))); cbn; [exact I|lra].
    + apply leq_trans with (Fin 0); [apply double_sign; exact Hx|apply double_sign; exact Hy].
Qed.

(** Rounding to a double depends on the value alone. *)
Lemma double_comp (x y : Q) : x == y -> same (double x) (double y).
Proof.
  intros H. destruct (Qcompare_spec x 0) as [Hx|Hx|Hx].
  - rewrite (double_zero x Hx), (double_zero y ltac:(lra)). cbn. reflexivity.
  - rewrite (double_negative x Hx), (double_negative y ltac:(lra)).
    assert (Hn := nearest_comp (- x) (- y) ltac:(lra) ltac:(lra)).
    rewrite (overflows_comp _ _ Hn). destruct (overflows _); cbn; [exact I|lra].
  - rewrite (double_positive x Hx), (double_positive y ltac:(lra)).
    assert (Hn := nearest_comp x y Hx H).
    rewrite (overflows_comp _ _ Hn). destruct (overflows _); cbn; [exact I|lra].
Qed.

(** The relative error of a double of the normal range: 2^-53. *)
Definition epsilon : Q := 1 # 9007199254740992.

Lemma double_near (q : Q) :
  pow2 (-1022) <= q -> q <= pow2 1023 ->
  exists r, double q = Fin r /\ q - epsilon * q <= r /\ r <= q + epsilon * q.
Proof.
  intros Hlow Hup. assert (Hq : 0 < q).
  { apply Qlt_le_trans with (pow2 (-1022)); [apply pow2_pos|exact Hlow]. }
  destruct (ilog2_spec q Hq) as [S1 S2].
  assert (Hnormal : (-1022 <= ilog2 q)%Z).
  { assert (A : (-1022 < ilog2 q + 1)%Z) by (apply pow2_lt_inv; lra). lia. }
  destruct (nearest_bounds q) as [B1 B2].
  assert (Hulp : (1 # 2) * ulp q <= epsilon * q).
  { unfold ulp. rewrite Z.max_l by lia.
    replace (ilog2 q - 52)%Z with (1 + (-53 + ilog2 q))%Z by lia.
    rewrite !pow2_plus. change (pow2 1) with 2. change (pow2 (-53)) with epsilon.
    assert (He : 0 < epsilon) by reflexivity.
    assert (A : 0 <= epsilon * (q - pow2 (ilog2 q))) by (apply Qmult_le_0_compat; lra).
    set (t := pow2 (ilog2 q)) in *. clearbody t. set (e := epsilon) in *. clearbody e.
    lra. }
  assert (Hsmall : epsilon * q < q).
  { assert (A : 0 < (1 - epsilon) * q) by (apply Qmult_lt_0_compat; [reflexivity|exact Hq]). lra. }
  assert (Hno : overflows (nearest q) = false).
  { unfold overflows. destruct (Qle_bool (pow2 1024) (nearest q)) eqn:E; [|reflexivity].
    apply Qle_bool_iff in E. exfalso.
    assert (P : pow2 1024 == 2 * pow2 1023) by (change 1024%Z with (1 + 1023)%Z; apply pow2_plus).
    set (a := pow2 1024) in *. set (b := pow2 1023) in *. clearbody a b. lra. }
  exists (nearest q). rewrite (double_positive q Hq), Hno. split; [reflexivity|]. split; lra.
Qed.

(** A positive integer below 2^53 is a double. *)
Lemma double_integer (q : Q) (z : Z) :
  (0 < z < 2 ^ 53)%Z -> q == inject_Z z -> exists r, double q = Fin r /\ r == inject_Z z.
Proof.
  intros Hz Hqz. assert (Hq : 0 < q).
  { rewrite Hqz. change 0 with (inject_Z 0). rewrite <- Zlt_Qlt. lia. }
  destruct (ilog2_spec q Hq) as [S1 S2].
  assert (Hk0 : (0 <= ilog2 q)%Z).
  { assert (A : (0 < ilog2 q + 1)%Z).
    { apply pow2_lt_inv. apply Qle_lt_trans with q; [|exact S2].
      rewrite Hqz. change (pow2 0) with (inject_Z 1). rewrite <- Zle_Qle. lia. }
    lia. }
  assert (Hk1 : (ilog2 q < 53)%Z).
  { apply pow2_lt_inv. apply Qle_lt_trans with q; [exact S1|].
    rewrite Hqz, (pow2_Z 53) by lia. rewrite <- Zlt_Qlt. lia. }
  set (k := ilog2 q) in *.
  assert (Hulp : ulp q == / inject_Z (2 ^ (52 - k))).
  { unfold ulp. fold k. rewrite Z.max_l by lia.
    replace (k - 52)%Z with (- (52 - k))%Z by lia. rewrite pow2_opp, pow2_Z by lia. reflexivity. }
  assert (Hp : (0 < 2 ^ (52 - k))%Z) by (apply Z.pow_pos_nonneg; lia).
  assert (Hp' : 0 < inject_Z (2 ^ (52 - k))).
  { change 0 with (inject_Z 0). rewrite <- Zlt_Qlt. exact Hp. }
  assert (Hm : q / ulp q == inject_Z (z * 2 ^ (52 - k))).
  { rewrite Hulp, Hqz, inject_Z_mult. field. lra. }
  assert (Hn : nearest q == inject_Z z).
  { unfold nearest. rewrite (roundEven_comp _ _ Hm), roundEven_Z, Hulp, inject_Z_mult.
    field. lra. }
  assert (Hno : overflows (nearest q) = false).
  { unfold overflows. destruct (Qle_bool (pow2 1024) (nearest q)) eqn:E; [|reflexivity].
    apply Qle_bool_iff in E. exfalso. rewrite Hn in E.
    assert (A : inject_Z z < pow2 53) by (rewrite (pow2_Z 53) by lia; rewrite <- Zlt_Qlt; lia).
    assert (B : pow2 53 < pow2 1024) by (apply pow2_lt; lia). lra. }
  exists (nearest q). rewrite (double_positive q Hq), Hno. split; [reflexivity|exact Hn].
Qed.

(** *** Agreement with the IEEE 754 operations of the Standard Library *)

(** The value of a binary64 number of [SpecFloat]. *)
Definition valueOf (f : SpecFloat.spec_float) : number :=
  match f with
  | SpecFloat.S754_zero _ => Fin 0
  | SpecFloat.S754_infinity s => if s then NegInf else PosInf
  | SpecFloat.S754_nan => NaN
  | SpecFloat.S754_finite s m e =>
      Fin ((if s then -1 else 1) * inject_Z (Zpos m) * pow2 e)
  end.

(** The binary64 number nearest to [m 2^e], and the two operations. *)
Definition binary64 (m e : Z) : SpecFloat.spec_float :=
  SpecFloat.binary_normalize 53 1024 m e false.

Definition quotient64 := SpecFloat.SFdiv 53 1024.

Definition product64 := SpecFloat.SFmul 53 1024.

(** Whether two numbers have the same value. *)
Definition sameValue (a b : number) : bool :=
  match a, b with
  | Fin x, Fin y => Qeq_bool x y
  | PosInf, PosInf | NegInf, NegInf | NaN, NaN => true
  | _, _ => false
  end.

(** On these operands the operations of [Double] give the values of the
    binary64 operations: quotients that are rounded up and down, products
    of them, a product that overflows, and quotients in the subnormal range
    that are ties, one rounded down to 0 and one rounded up. *)
Example double_agrees :
  forallb (fun '(a, b) =>
             sameValue (valueOf (quotient64 (binary64 a 0) (binary64 b 0)))
                       (div (Fin (inject_Z a)) (Fin (inject_Z b)))
             && sameValue (valueOf (product64 (quotient64 (binary64 a 0) (binary64 b 0))
                                      (binary64 100 0)))
                          (mul (div (Fin (inject_Z a)) (Fin (inject_Z b))) (Fin 100)))
    [(1, 3); (2, 3); (23, 40); (58, 100); (37, 100); (592, 1600); (1, 10);
     (-7, 9); (1000003, 7)]%Z
  && sameValue (valueOf (product64 (binary64 1 1023) (binary64 100 0)))
               (mul (Fin (pow2 1023)) (Fin 100))
  && sameValue (valueOf (quotient64 (binary64 1 (-1074)) (binary64 2 0)))
               (div (Fin (pow2 (-1074))) (Fin 2))
  && sameValue (valueOf (quotient64 (binary64 3 (-1074)) (binary64 2 0)))
               (div (Fin (3 * pow2 (-1074))) (Fin 2))
  = true.
Proof. vm_compute. reflexivity. Qed.

End DoubleSpec.


(** ** The progress tracker *)

Module ProgressSpec.
Import Js Double DoubleSpec Progress.
Local Open Scope Q_scope.

(** *** [Math.round] *)

Lemma round_bounds (q : Q) :
  inject_Z (round q) <= q + (1 # 2) /\ q + (1 # 2) < inject_Z (round q) + 1.
Proof.
  unfold round. split.
  - apply Qfloor_le.
  - assert (H := Qlt_floor (q + (1 # 2))). rewrite inject_Z_plus in H. exact H.
Qed.

Lemma round_inject (z : Z) : round (inject_Z z) = z.
Proof.
  destruct (round_bounds (inject_Z z)) as [H1 H2].
  set (r := round (inject_Z z)) in *.
  assert (Ha : inject_Z r < inject_Z (z + 1))
    by (rewrite inject_Z_plus; change (inject_Z 1) with 1; lra).
  assert (Hb : inject_Z z < inject_Z (r + 1))
    by (rewrite inject_Z_plus; change (inject_Z 1) with 1; lra).
  rewrite <- Zlt_Qlt in Ha, Hb. lia.
Qed.

Lemma round_mono (q1 q2 : Q) : (q1 <= q2)%Q -> (round q1 <= round q2)%Z.
Proof. intros H. unfold round. apply Qfloor_resp_le. lra. Qed.

(** *** The order of the numbers through the computation *)

Lemma double_number (q : Q) : double q <> NaN.
Proof.
  unfold double. destruct (Qcompare q 0); [discriminate| |];
    destruct (Qle_bool _ _); discriminate.
Qed.

Lemma clampProgress_leq (a b : number) :
  leq a b -> (clampProgress (VNum a) <= clampProgress (VNum b))%Z.
Proof.
  destruct a as [x| | |], b as [y| | |]; cbn [leq clampProgress]; try tauto; try lia.
  intros H. assert (Hr := round_mono x y H). lia.
Qed.

Lemma times100_leq (a b : number) :
  leq a b -> leq (mul a (Fin 100)) (mul b (Fin 100)).
Proof.
  destruct a as [x| | |], b as [y| | |]; cbn [leq mul]; try tauto.
  - intros H. apply double_mono. lra.
  - intros _. change (Qcompare 100 0) with Gt. cbv iota.
    destruct (double (x * 100)) eqn:E; try exact I. exact (double_number _ E).
  - intros _. change (Qcompare 100 0) with Gt. cbv iota.
    destruct (double (y * 100)) eqn:E; try exact I. exact (double_number _ E).
Qed.

(** The denominator is a number from 1 on. *)
Lemma denominator_cases (l : layout) :
  (exists d, denominator l = Fin d /\ 1 <= d) \/ denominator l = PosInf.
Proof.
  unfold denominator. cbv zeta. cbn [sub].
  destruct (double _) as [r| | |] eqn:E; cbn [max].
  - left. destruct (Qle_bool 1 r) eqn:E1.
    + exists r. split; [reflexivity|]. apply Qle_bool_iff. exact E1.
    + exists 1. split; [reflexivity|]. lra.
  - right. reflexivity.
  - left. exists 1. split; [reflexivity|]. lra.
  - exfalso. exact (double_number _ E).
Qed.

Lemma div_finite (t d : Q) : 1 <= d -> div (Fin t) (Fin d) = double (t / d).
Proof.
  intros Hd. cbn [div]. destruct (Qcompare_spec d 0) as [H|H|H]; [lra|lra|reflexivity].
Qed.

Lemma quotient_le (t1 t2 d1 d2 : Q) :
  1 <= d1 -> d1 == d2 -> t1 <= t2 -> t1 / d1 <= t2 / d2.
Proof.
  intros Hd He Ht. rewrite <- He. apply Qmult_le_compat_r; [exact Ht|].
  apply Qlt_le_weak, Qinv_lt_0_compat. lra.
Qed.

(** A whole number below 2^53 that is not above [q] is not above the
    double of [q]. *)
Lemma double_above (z : Z) (q : Q) :
  (0 < z < 2 ^ 53)%Z -> inject_Z z <= q -> leq (Fin (inject_Z z)) (double q).
Proof.
  intros Hz H. assert (Hm := double_mono _ _ H).
  destruct (double_integer (inject_Z z) z Hz ltac:(reflexivity)) as (r & Hr & Hrz).
  rewrite Hr in Hm. destruct (double q) as [y| | |]; cbn in *; try tauto. lra.
Qed.

(** *** Two roundings to doubles, then one to a whole number *)

Lemma inject_Z_sub (a b : Z) : inject_Z (a - b) = inject_Z a - inject_Z b.
Proof. unfold Z.sub, Qminus. rewrite inject_Z_plus, inject_Z_opp. reflexivity. Qed.

Lemma double_near_small (q : Q) :
  (1 # 4503599627370496) <= q -> q <= 4503599627370496 ->
  exists r, double q = Fin r /\ q - epsilon * q <= r /\ r <= q + epsilon * q.
Proof.
  intros H1 H2. apply double_near.
  - apply Qle_trans with (pow2 (-52)); [apply pow2_le; lia|exact H1].
  - apply Qle_trans with (pow2 52); [exact H2|apply pow2_le; lia].
Qed.

(** [Math.round((a / b) * c)] for whole numbers: the nearest whole number
    to [a c / b], either neighbour when that is half way between two. *)
Lemma scaled_round (A B C : Q) (a b c : Z) :
  A == inject_Z a -> B == inject_Z b -> C == inject_Z c ->
  (0 <= a)%Z -> (1 <= b < 2 ^ 50)%Z -> (1 <= c)%Z -> (a * c < 2 ^ 50)%Z ->
  exists x, mul (div (Fin A) (Fin B)) (Fin C) = Fin x /\
            (Z.abs (2 * round x * b - 2 * a * c) <= b)%Z.
Proof.
  intros HA HB HC Ha Hb Hc Hac.
  assert (HB1 : 1 <= B).
  { rewrite HB. change 1 with (inject_Z 1). rewrite <- Zle_Qle. lia. }
  assert (HB2 : B <= 1125899906842624).
  { rewrite HB. change 1125899906842624 with (inject_Z (2 ^ 50)). rewrite <- Zle_Qle. lia. }
  assert (HC1 : 1 <= C).
  { rewrite HC. change 1 with (inject_Z 1). rewrite <- Zle_Qle. lia. }
  rewrite (div_finite A B HB1). cbn [mul].
  destruct (Z.eq_dec a 0%Z) as [Ha0|Ha0].
  { subst a. assert (Hq : A / B == 0) by (rewrite HA; field; lra).
    rewrite (double_zero _ Hq). cbn [mul].
    assert (H0 : 0 * C == 0) by ring. rewrite (double_zero _ H0).
    exists 0. split; [reflexivity|]. change 0 with (inject_Z 0). rewrite round_inject. lia. }
  assert (HA1 : 1 <= A).
  { rewrite HA. change 1 with (inject_Z 1). rewrite <- Zle_Qle. lia. }
  assert (HAC : A * C < 1125899906842624).
  { rewrite HA, HC, <- inject_Z_mult. change 1125899906842624 with (inject_Z (2 ^ 50)).
    rewrite <- Zlt_Qlt. exact Hac. }
  assert (HA2 : A < 1125899906842624).
  { assert (P : 0 <= A * (C - 1)) by (apply Qmult_le_0_compat; lra). lra. }
  assert (E1 : A / B * B == A) by (field; lra).
  set (q := A / B) in *.
  assert (Hq1 : (1 # 1125899906842624) <= q).
  { unfold q. apply Qle_shift_div_l; lra. }
  assert (Hq2 : q <= A).
  { assert (P : 0 <= q * (B - 1)) by (apply Qmult_le_0_compat; lra). lra. }
  destruct (double_near_small q ltac:(lra) ltac:(lra)) as (y & -> & Y1 & Y2).
  cbn [mul]. unfold epsilon in Y1, Y2.
  assert (P1 : 0 <= (q + (1 # 9007199254740992) * q - y) * B) by (apply Qmult_le_0_compat; lra).
  assert (P1' : 0 <= (y - (q - (1 # 9007199254740992) * q)) * B) by (apply Qmult_le_0_compat; lra).
  assert (P3 : 0 <= (A + (1 # 9007199254740992) * A - y * B) * C)
    by (apply Qmult_le_0_compat; lra).
  assert (P3' : 0 <= (y * B - (A - (1 # 9007199254740992) * A)) * C)
    by (apply Qmult_le_0_compat; lra).
  assert (Hy1 : (1 # 2251799813685248) <= y) by lra.
  assert (Hyc1 : y <= y * C).
  { assert (P : 0 <= y * (C - 1)) by (apply Qmult_le_0_compat; lra). lra. }
  assert (Hyc2 : y * C <= 2251799813685248).
  { assert (P : 0 <= y * B * C * (1 # 1)) by (repeat apply Qmult_le_0_compat; lra).
    assert (P' : 0 <= y * C * (B - 1)) by (repeat apply Qmult_le_0_compat; lra). lra. }
  destruct (double_near_small (y * C) ltac:(lra) ltac:(lra)) as (x & -> & X1 & X2).
  exists x. split; [reflexivity|]. unfold epsilon in X1, X2.
  destruct (round_bounds x) as [K1 K2]. set (k := round x) in *. clearbody k.
  assert (P2 : 0 <= (y * C + (1 # 9007199254740992) * (y * C) - x) * B)
    by (apply Qmult_le_0_compat; lra).
  assert (P2' : 0 <= (x - (y * C - (1 # 9007199254740992) * (y * C))) * B)
    by (apply Qmult_le_0_compat; lra).
  assert (PK : 0 <= (x + (1 # 2) - inject_Z k) * B) by (apply Qmult_le_0_compat; lra).
  assert (PK' : 0 < (inject_Z k + 1 - (x + (1 # 2))) * B) by (apply Qmult_lt_0_compat; lra).
  assert (U : 2 * inject_Z k * B - 2 * (A * C) < B + 1) by lra.
  assert (L : 2 * (A * C) - 2 * inject_Z k * B < B + 1) by lra.
  rewrite HA, HB, HC in U, L.
  assert (U' : inject_Z (2 * k * b - 2 * a * c) < inject_Z (b + 1)).
  { rewrite inject_Z_plus, inject_Z_sub, !inject_Z_mult.
    change (inject_Z 2) with 2. change (inject_Z 1) with 1. lra. }
  assert (L' : inject_Z (2 * a * c - 2 * k * b) < inject_Z (b + 1)).
  { rewrite inject_Z_plus, inject_Z_sub, !inject_Z_mult.
    change (inject_Z 2) with 2. change (inject_Z 1) with 1. lra. }
  rewrite <- Zlt_Qlt in U', L'. lia.
Qed.

(** *** Restoring a percent *)

Lemma scrollTop_scrollTo (top : Z) (l : layout) :
  scrollTop (scrollTo (Fin (inject_Z top)) l) = inject_Z top.
Proof.
  unfold scrollTop, scrollTo, orElse. simpl.
  destruct (Qeq_bool (inject_Z top) 0) eqn:E; [|reflexivity].
  apply Qeq_bool_eq in E. change 0 with (inject_Z 0) in E.
  apply (proj1 (inject_Z_injective top 0)) in E. subst top. reflexivity.
Qed.

(** The scroll range of a page whose heights differ by a whole number of
    pixels. *)
Lemma denominator_whole (l : layout) (d : Z) :
  (1 <= d < 2 ^ 31)%Z ->
  orElse (scrollHeight l) 0 - orElse (innerHeight l) (orElse (clientHeight l) 0)
  == inject_Z d ->
  exists D, denominator l = Fin D /\ D == inject_Z d.
Proof.
  intros Hd Hrange. unfold denominator. cbv zeta. cbn [sub].
  destruct (double_integer _ d ltac:(lia) Hrange) as (r & -> & Hr).
  cbn [max]. assert (H1 : 1 <= r).
  { rewrite Hr. change 1 with (inject_Z 1). rewrite <- Zle_Qle. lia. }
  apply Qle_bool_iff in H1. rewrite H1. exists r. split; [reflexivity|exact Hr].
Qed.

(** [Math.round] of the exact quotient [100 t / d]. *)
Lemma round_percent (t d : Z) :
  (1 <= d)%Z ->
  let k := round (inject_Z t / inject_Z d * 100) in
  (2 * k * d <= 200 * t + d < 2 * k * d + 2 * d)%Z.
Proof.
  intros Hd k. destruct (round_bounds (inject_Z t / inject_Z d * 100)) as [K1 K2]. fold k in K1, K2.
  assert (HD : 1 <= inject_Z d) by (change 1 with (inject_Z 1); rewrite <- Zle_Qle; exact Hd).
  assert (E : inject_Z t / inject_Z d * 100 * inject_Z d == 100 * inject_Z t) by (field; lra).
  set (x := inject_Z t / inject_Z d * 100) in *. clearbody x. clearbody k.
  assert (P1 : 0 <= (x + (1 # 2) - inject_Z k) * inject_Z d) by (apply Qmult_le_0_compat; lra).
  assert (P2 : 0 < (inject_Z k + 1 - (x + (1 # 2))) * inject_Z d)
    by (apply Qmult_lt_0_compat; lra).
  assert (A : inject_Z (2 * k * d) <= inject_Z (200 * t + d)).
  { rewrite inject_Z_plus, !inject_Z_mult. change (inject_Z 2) with 2.
    change (inject_Z 200) with 200. lra. }
  assert (B : inject_Z (200 * t + d) < inject_Z (2 * k * d + 2 * d)).
  { rewrite !inject_Z_plus, !inject_Z_mult. change (inject_Z 2) with 2.
    change (inject_Z 200) with 200. lra. }
  rewrite <- Zle_Qle in A. rewrite <- Zlt_Qlt in B. lia.
Qed.

(** The percent at a whole pixel of a whole scroll range. *)
Lemma percent_whole (l : layout) (d t : Z) :
  (1 <= d < 2 ^ 31)%Z ->
  orElse (scrollHeight l) 0 - orElse (innerHeight l) (orElse (clientHeight l) 0)
  == inject_Z d ->
  (0 <= t < 2 ^ 31)%Z -> scrollTop l == inject_Z t ->
  exists k : Z,
    (Z.abs (2 * k * d - 200 * t) <= d)%Z /\
    computeScrollProgressPercent l = Z.max 0 (Z.min 100 k) /\
    ((forall j : Z, (200 * t <> (2 * j + 1) * d)%Z) ->
     k = round (inject_Z t / inject_Z d * 100)).
Proof.
  intros Hd Hrange Ht Htop.
  destruct (denominator_whole l d Hd Hrange) as (D & HD & HDd).
  unfold computeScrollProgressPercent. cbv zeta. rewrite HD.
  destruct (scaled_round (scrollTop l) D 100 t d 100 Htop HDd ltac:(reflexivity)
              ltac:(lia) ltac:(lia) ltac:(lia) ltac:(lia)) as (x & -> & Hx).
  exists (round x). split; [lia|]. split; [reflexivity|].
  intros Htie. assert (Hk := round_percent t d ltac:(lia)). cbv zeta in Hk.
  set (k := round x) in *. set (k' := round (inject_Z t / inject_Z d * 100)) in *.
  clearbody k k'. specialize (Htie k). nia.
Qed.

(** C8. [computeScrollProgressPercent] is
    clamp(round(scrollTop / max(1, scrollHeight - clientHeight) * 100), 0, 100)
    in the arithmetic of the code, where the quotient and the product are
    rounded to doubles. On a page whose scroll range is a whole number [d]
    of pixels, from 1 on, the percent at a whole pixel [t] is a whole number
    nearest to 100 t / d, clamped: the one that [Math.round] gives for the
    exact value, except that either neighbour can come out when 100 t / d is
    exactly half way between two; restoring a percent [p] of [0..100] scrolls to a
    pixel [top] nearest to p d / 100, and computing the progress again gives
    a percent [r] nearest to 100 top / d: it is off by the two roundings at
    most, 2 |r - p| d <= 100 + d, which makes it [p] itself from 100 pixels
    on. *)
Theorem progress_round_trip (p : Z) (l : layout) :
  let sh := orElse (scrollHeight l) 0 in
  let ch := orElse (innerHeight l) (orElse (clientHeight l) 0) in
  computeScrollProgressPercent l
  = clampProgress
      (VNum (mul (div (Fin (scrollTop l)) (max (Fin 1) (sub (Fin sh) (Fin ch)))) (Fin 100))) /\
  forall d : Z,
    (1 <= d < 2 ^ 31)%Z -> sh - ch == inject_Z d ->
    (forall t : Z,
       (0 <= t < 2 ^ 31)%Z -> scrollTop l == inject_Z t ->
       exists k : Z,
         (Z.abs (2 * k * d - 200 * t) <= d)%Z /\
         computeScrollProgressPercent l = Z.max 0 (Z.min 100 k) /\
         ((forall j : Z, (200 * t <> (2 * j + 1) * d)%Z) ->
          k = round (inject_Z t / inject_Z d * 100))) /\
    ((0 <= p <= 100)%Z ->
     let l' := scrollToProgress (ofZ p) l in
     let r := computeScrollProgressPercent l' in
     exists top : Z,
       scrollTarget (ofZ p) l = Fin (inject_Z top) /\
       scrollTop l' = inject_Z top /\
       (Z.abs (100 * top - p * d) <= 50)%Z /\
       (Z.abs (2 * r * d - 200 * top) <= d)%Z /\
       (2 * Z.abs (r - p) * d <= 100 + d)%Z /\
       (100 <= d -> r = p)%Z).
Proof.
  intros sh ch. split; [reflexivity|]. intros d Hd Hrange. split.
  { intros t Ht Htop. exact (percent_whole l d t Hd Hrange Ht Htop). }
  intros Hp l' r.
  destruct (denominator_whole l d Hd Hrange) as (D & HD & HDd).
  assert (Hclamp : clampProgress (ofZ p) = p).
  { unfold clampProgress, ofZ. rewrite round_inject. lia. }
  destruct (scaled_round (inject_Z p) 100 D p 100 d ltac:(reflexivity) ltac:(reflexivity) HDd
              ltac:(lia) ltac:(lia) ltac:(lia) ltac:(nia)) as (x & Hx & Htopx).
  assert (Htarget : scrollTarget (ofZ p) l = Fin (inject_Z (round x))).
  { unfold scrollTarget. cbv zeta. rewrite Hclamp, HD, Hx. reflexivity. }
  set (top := round x) in *. clearbody top.
  assert (Hl' : l' = scrollTo (Fin (inject_Z top)) l).
  { unfold l', scrollToProgress. rewrite Htarget. reflexivity. }
  assert (Htop' : scrollTop l' = inject_Z top) by (rewrite Hl'; apply scrollTop_scrollTo).
  assert (Hnear : (Z.abs (100 * top - p * d) <= 50)%Z) by lia.
  assert (Htop0 : (0 <= top <= d)%Z) by nia.
  destruct (percent_whole l' d top Hd) as (k & Hk & Hr & _).
  { rewrite Hl'. exact Hrange. }
  { lia. }
  { rewrite Htop'. reflexivity. }
  fold r in Hr.
  assert (Hk0 : (0 <= k <= 100)%Z) by nia.
  assert (Hrk : r = k) by lia. subst k.
  exists top. split; [exact Htarget|]. split; [exact Htop'|]. split; [exact Hnear|].
  split; [exact Hk|]. split; [nia|]. intros Hbig. nia.
Qed.

(** A page 2400 pixels high in a window of 800 pixels, restored to 37%. *)
Definition tallPage : layout :=
  {| scrollY := 0; docScrollTop := 0;
     scrollHeight := 2400; innerHeight := 800; clientHeight := 785 |}.

Lemma progress_round_trip_witness :
  (1 <= 1600 < 2 ^ 31)%Z /\
  (0 <= 37 <= 100)%Z /\
  scrollTarget (ofZ 37) tallPage = Fin 592 /\
  computeScrollProgressPercent (scrollToProgress (ofZ 37) tallPage) = 37%Z.
Proof.
  assert (Hd : (1 <= 1600 < 2 ^ 31)%Z) by lia.
  assert (Hp : (0 <= 37 <= 100)%Z) by lia.
  split; [exact Hd|]. split; [exact Hp|]. split; [reflexivity|].
  destruct (proj2 (progress_round_trip 37 tallPage) 1600%Z Hd ltac:(reflexivity))
    as [_ Htrip].
  destruct (Htrip Hp) as (top & _ & _ & _ & _ & _ & Hexact).
  apply Hexact. lia.
Defined.

(** The products are those of doubles: at pixel 23 of 40 the exact percent
    is 57.5, the quotient 0.575 is a double just below it, and the percent
    is 57; restoring 58% on a range of 25 pixels computes 14.499999999999998
    for 14.5 and scrolls to pixel 14. *)
Example percent_of_doubles :
  computeScrollProgressPercent
    {| scrollY := 23; docScrollTop := 23;
       scrollHeight := 840; innerHeight := 800; clientHeight := 800 |} = 57%Z /\
  round (23 / 40 * 100) = 58%Z /\
  scrollTarget (ofZ 58)
    {| scrollY := 0; docScrollTop := 0;
       scrollHeight := 825; innerHeight := 800; clientHeight := 800 |} = Fin 14 /\
  round (58 / 100 * 25) = 15%Z.
Proof. repeat split; reflexivity. Qed.

(** On a scroll range of one pixel every percent is restored to pixel 0 or
    to pixel 1, and read back as 0 or 100; on a range of 3 pixels 50% is
    restored to pixel 2 and read back as 67. *)
Example one_pixel_range :
  computeScrollProgressPercent
    (scrollToProgress (ofZ 50)
       {| scrollY := 0; docScrollTop := 0;
          scrollHeight := 801; innerHeight := 800; clientHeight := 800 |})
  = 100%Z /\
  computeScrollProgressPercent
    (scrollToProgress (ofZ 50)
       {| scrollY := 0; docScrollTop := 0;
          scrollHeight := 803; innerHeight := 800; clientHeight := 800 |})
  = 67%Z.
Proof. split; reflexivity. Qed.

End ProgressSpec.



(** ** The page, chapter and material messages *)

Module WorkerSpec.
Import Js Background BackgroundSpec Worker.

(** *** Pages *)

Lemma clampProgress_range (v : value) : (0 <= clampProgress v <= 100)%Z.
Proof. unfold clampProgress. destruct v as [| | |[q| | |]|]; lia. Qed.

Lemma clampProgress_ofZ (z : Z) : (0 <= z <= 100)%Z -> clampProgress (ofZ z) = z.
Proof. intros Hz. unfold clampProgress, ofZ. rewrite ProgressSpec.round_inject. lia. Qed.

Section Pages.
Variable normalizeUrl : value -> option string.

(** The store after a sequence of [pageProgress] messages, each with the
    time at which it is handled. *)
Definition scrolls (rs : list (Z * message)) (d : data) : data :=
  fold_left (fun d r => fst (pageProgress normalizeUrl (fst r) (snd r) d)) rs d.

Definition property (k : string) (d : data) (u : string) : option value :=
  pages d !! u ≫= (fun r => r !! k).

Lemma pageProgress_pages now msg d u :
  normalizeUrl (msg_url msg) = Some u ->
  pages (fst (pageProgress normalizeUrl now msg d))
  = <[u := nextRecord now (default ∅ (pages d !! u)) msg]> (pages d).
Proof. intros H. unfold pageProgress. rewrite H. reflexivity. Qed.

Lemma pageProgress_invalid now msg d :
  normalizeUrl (msg_url msg) = None ->
  fst (pageProgress normalizeUrl now msg d) = d.
Proof. intros H. unfold pageProgress. rewrite H. reflexivity. Qed.

(** A message leaves alone every property of every page but [progress],
    [title] and [updatedAt]; and the progress of a page that ignores the
    scroll position. *)
Lemma pageProgress_property now msg d u k :
  k ≠ "title"%string -> k ≠ "updatedAt"%string ->
  k ≠ "progress"%string \/
    property "ignoreScrollProgress" d u = Some (VBool true) ->
  property k (fst (pageProgress normalizeUrl now msg d)) u = property k d u.
Proof.
  intros Ht Hu Hk. unfold property.
  destruct (normalizeUrl (msg_url msg)) as [v|] eqn:E.
  - rewrite (pageProgress_pages _ _ _ _ E).
    destruct (String.eqb_spec v u) as [->|Hne].
    + rewrite lookup_insert_eq. cbn [mbind option_bind].
      destruct (string_dec k "progress") as [->|Hp].
      * destruct Hk as [Hk|Hk]; [congruence|].
        rewrite nextRecord_progress. unfold ignoresScroll, property in *.
        destruct (pages d !! u) as [r|]; cbn [mbind option_bind default from_option id] in *;
          [|discriminate].
        rewrite Hk. reflexivity.
      * rewrite nextRecord_frame by assumption.
        destruct (pages d !! u) as [r|]; reflexivity.
    + rewrite lookup_insert_ne by congruence. reflexivity.
  - rewrite pageProgress_invalid by exact E. reflexivity.
Qed.

Lemma scrolls_property rs : forall d u k,
  k ≠ "title"%string -> k ≠ "updatedAt"%string ->
  k ≠ "progress"%string \/
    property "ignoreScrollProgress" d u = Some (VBool true) ->
  property k (scrolls rs d) u = property k d u.
Proof.
  induction rs as [|r rs IH]; intros d u k Ht Hu Hk; [reflexivity|].
  unfold scrolls. cbn [fold_left]. fold (scrolls rs).
  rewrite IH; try assumption.
  - apply pageProgress_property; assumption.
  - destruct Hk as [Hk|Hk]; [left; exact Hk|right].
    rewrite pageProgress_property; [exact Hk|discriminate|discriminate|left; discriminate].
Qed.

Lemma syncChapter_progress pgs c n :
  pgs !! c_url c ≫= (fun r => r !! "progress"%string) = Some (VNum n) ->
  c_props (syncChapter pgs c) !! "progress"%string = Some (ofZ (clampProgress (VNum n))).
Proof.
  intros H. unfold syncChapter. cbn [c_props]. rewrite lookup_insert_eq.
  destruct (pgs !! c_url c) as [r|]; cbn [mbind option_bind] in H; [|discriminate].
  rewrite H. reflexivity.
Qed.

(** A chapter of a material after a [pageProgress] message: it is an old
    chapter of a material that has no chapter at the URL of the message, or
    it has been synchronized with the pages as they are afterwards. *)
Lemma pageProgress_chapter now msg d key m' c :
  materials (fst (pageProgress normalizeUrl now msg d)) !! key = Some m' ->
  In c (chapters m') ->
  (exists m, materials d !! key = Some m /\ In c (chapters m) /\
             forall v, normalizeUrl (msg_url msg) = Some v -> hasChapter v m = false) \/
  (exists c0, c = syncChapter (pages (fst (pageProgress normalizeUrl now msg d))) c0).
Proof.
  unfold pageProgress. destruct (normalizeUrl (msg_url msg)) as [v|] eqn:E.
  - cbn [fst materials pages]. rewrite lookup_fmap.
    destruct (materials d !! key) as [m|] eqn:Em; cbn [fmap option_fmap option_map];
      [|discriminate].
    intros [= <-] Hin. destruct (hasChapter v m) eqn:Eh.
    + right. unfold updateMaterialChapterProgressFromPages in Hin.
      destruct (chapters m) as [|c1 cs] eqn:Ec; [rewrite Ec in Hin; destruct Hin|].
      cbn [chapters] in Hin. apply in_map_iff in Hin as (c0 & <- & _).
      exists c0. reflexivity.
    + left. exists m. split; [reflexivity|]. split; [exact Hin|].
      intros v' [= <-]. exact Eh.
  - cbn [fst]. intros Hm Hin. left. exists m'. split; [exact Hm|]. split; [exact Hin|].
    intros v [=].
Qed.

(** X1. Once [setIgnoreScrollProgress] has made a page ignore the scroll
    position, no sequence of [pageProgress] messages changes the progress
    stored for it: it stays what it was before, a missing one included, and
    the page goes on ignoring the scroll position. *)
Theorem ignored_page_keeps_progress (now : Z) (url : value) (u : string)
    (rs : list (Z * message)) (d : data) :
  normalizeUrl url = Some u ->
  let d1 := fst (setIgnoreScrollProgress normalizeUrl now url (VBool true) d) in
  property "progress" (scrolls rs d1) u = property "progress" d u /\
  property "ignoreScrollProgress" (scrolls rs d1) u = Some (VBool true).
Proof.
  intros Hu d1.
  assert (Hig : property "ignoreScrollProgress" d1 u = Some (VBool true)).
  { unfold d1, setIgnoreScrollProgress, property. rewrite Hu. cbn [fst withPages pages].
    rewrite lookup_insert_eq. cbn [mbind option_bind].
    rewrite lookup_insert_ne by discriminate. apply lookup_insert_eq. }
  split.
  - rewrite scrolls_property; [|discriminate|discriminate|right; exact Hig].
    unfold d1, setIgnoreScrollProgress, property. rewrite Hu. cbn [fst withPages pages].
    rewrite lookup_insert_eq. cbn [mbind option_bind].
    rewrite !lookup_insert_ne by discriminate.
    destruct (pages d !! u); reflexivity.
  - rewrite scrolls_property; [exact Hig|discriminate|discriminate|left; discriminate].
Qed.

(** The chapters at [u] of every material carry the progress 100. *)
Definition chaptersAt100 (u : string) (d : data) : Prop :=
  forall key m c,
    materials d !! key = Some m -> In c (chapters m) -> c_url c = u ->
    c_props c !! "progress"%string = Some (ofZ 100).

Lemma hasChapter_false u m c :
  hasChapter u m = false -> In c (chapters m) -> c_url c <> u.
Proof.
  unfold hasChapter. intros H Hin Hu.
  assert (Hex : existsb (fun c => String.eqb (c_url c) u) (chapters m) = true).
  { apply existsb_exists. exists c. split; [exact Hin|]. apply String.eqb_eq. exact Hu. }
  congruence.
Qed.

Lemma pageProgress_chaptersAt100 now msg d u :
  property "progress" d u = Some (ofZ 100) ->
  property "ignoreScrollProgress" d u = Some (VBool true) ->
  chaptersAt100 u d \/ normalizeUrl (msg_url msg) = Some u ->
  chaptersAt100 u (fst (pageProgress normalizeUrl now msg d)).
Proof.
  intros Hp Hi Hc key m' c Hm Hin Hu.
  destruct (pageProgress_chapter _ _ _ _ _ _ Hm Hin)
    as [(m & Hm0 & Hin0 & Hno)|(c0 & ->)].
  - destruct Hc as [Hc|Hc].
    + exact (Hc key m c Hm0 Hin0 Hu).
    + exfalso. exact (hasChapter_false _ _ _ (Hno u Hc) Hin0 Hu).
  - assert (Hu0 : c_url c0 = u) by exact Hu.
    rewrite (syncChapter_progress _ _ (Fin (inject_Z 100))); [reflexivity|].
    rewrite Hu0. fold (property "progress" (fst (pageProgress normalizeUrl now msg d)) u).
    rewrite pageProgress_property; [exact Hp|discriminate|discriminate|right; exact Hi].
Qed.

Lemma scrolls_chaptersAt100 rs : forall d u,
  property "progress" d u = Some (ofZ 100) ->
  property "ignoreScrollProgress" d u = Some (VBool true) ->
  chaptersAt100 u d \/ Exists (fun r => normalizeUrl (msg_url (snd r)) = Some u) rs ->
  chaptersAt100 u d \/ rs <> [] ->
  chaptersAt100 u (scrolls rs d).
Proof.
  induction rs as [|r rs IH]; intros d u Hp Hi Hc Hne.
  - destruct Hne as [Hne|Hne]; [exact Hne|congruence].
  - unfold scrolls. cbn [fold_left]. fold (scrolls rs).
    assert (Hp' : property "progress" (fst (pageProgress normalizeUrl (fst r) (snd r) d)) u
                  = Some (ofZ 100)).
    { rewrite pageProgress_property; [exact Hp|discriminate|discriminate|right; exact Hi]. }
    assert (Hi' : property "ignoreScrollProgress"
                    (fst (pageProgress normalizeUrl (fst r) (snd r) d)) u
                  = Some (VBool true)).
    { rewrite pageProgress_property;
        [exact Hi|discriminate|discriminate|left; discriminate]. }
    destruct Hc as [Hc|Hc].
    + apply IH; try assumption; left;
        apply pageProgress_chaptersAt100; try assumption; left; exact Hc.
    + apply Exists_cons in Hc as [Hc|Hc].
      * apply IH; try assumption; left;
          apply pageProgress_chaptersAt100; try assumption; right; exact Hc.
      * apply IH; try assumption; [right; exact Hc|].
        right. intros ->. inversion Hc.
Qed.

(** X2. A page marked finished by [setPageFinished] stays finished at 100
    percent through every later sequence of [pageProgress] messages. The
    handler itself leaves the materials as they are; as soon as one of the
    later messages is for that page, every chapter at its URL, in every
    material, carries the progress 100 as well. *)
Theorem finished_page_stays_at_100 (now : Z) (url : value) (u : string)
    (rs : list (Z * message)) (d : data) :
  normalizeUrl url = Some u ->
  let d1 := fst (setPageFinished normalizeUrl now url (VBool true) d) in
  property "progress" (scrolls rs d1) u = Some (ofZ 100) /\
  property "status" (scrolls rs d1) u = Some (VStr "finished") /\
  materials d1 = materials d /\
  (Exists (fun r => normalizeUrl (msg_url (snd r)) = Some u) rs ->
   chaptersAt100 u (scrolls rs d1)).
Proof.
  intros Hu d1.
  assert (Hrec : pages d1 !! u
                 = Some (finishedRecord now true (default ∅ (pages d !! u)))).
  { unfold d1, setPageFinished. rewrite Hu. cbn [fst withPages pages isTrue].
    apply lookup_insert_eq. }
  assert (Hig : property "ignoreScrollProgress" d1 u = Some (VBool true)).
  { unfold property. rewrite Hrec. cbn [mbind option_bind finishedRecord].
    rewrite lookup_insert_ne by discriminate. apply lookup_insert_eq. }
  assert (Hp : property "progress" d1 u = Some (ofZ 100)).
  { unfold property. rewrite Hrec. cbn [mbind option_bind finishedRecord].
    rewrite !lookup_insert_ne by discriminate. apply lookup_insert_eq. }
  split; [|split; [|split]].
  - rewrite scrolls_property; [exact Hp|discriminate|discriminate|right; exact Hig].
  - rewrite scrolls_property; [|discriminate|discriminate|left; discriminate].
    unfold property. rewrite Hrec. cbn [mbind option_bind finishedRecord].
    rewrite !lookup_insert_ne by discriminate. apply lookup_insert_eq.
  - unfold d1, setPageFinished. rewrite Hu. reflexivity.
  - intros Hex. apply scrolls_chaptersAt100; try assumption.
    + right. exact Hex.
    + right. intros ->. inversion Hex.
Qed.

(** X3. After [setPageFinished] with anything but [true], the page has no
    status and follows the scroll position again: its progress stays the
    stored one until the next [pageProgress] message for it, which writes
    the clamped incoming progress. *)
Theorem unfinished_page_follows_scroll (t0 now : Z) (url finished : value) (u : string)
    (msg : message) (d : data) :
  normalizeUrl url = Some u ->
  normalizeUrl (msg_url msg) = Some u ->
  finished <> VBool true ->
  let d1 := fst (setPageFinished normalizeUrl t0 url finished d) in
  property "status" d1 u = None /\
  property "progress" d1 u = property "progress" d u /\
  property "progress" (fst (pageProgress normalizeUrl now msg d1)) u
  = Some (ofZ (clampProgress (msg_progress msg))).
Proof.
  intros Hu Hm Hf d1.
  assert (Hfalse : isTrue finished = false).
  { destruct finished as [| |[|]| |]; try reflexivity. congruence. }
  assert (Hrec : pages d1 !! u
                 = Some (finishedRecord t0 false (default ∅ (pages d !! u)))).
  { unfold d1, setPageFinished. rewrite Hu, Hfalse. cbn [fst withPages pages].
    apply lookup_insert_eq. }
  split; [|split].
  - unfold property. rewrite Hrec. cbn [mbind option_bind finishedRecord].
    rewrite !lookup_insert_ne by discriminate. apply lookup_delete_eq.
  - unfold property. rewrite Hrec. cbn [mbind option_bind finishedRecord].
    rewrite !lookup_insert_ne by discriminate.
    rewrite lookup_delete_ne by discriminate.
    destruct (pages d !! u); reflexivity.
  - unfold property. rewrite (pageProgress_pages _ _ _ _ Hm), lookup_insert_eq.
    cbn [mbind option_bind]. rewrite nextRecord_progress, Hrec.
    unfold ignoresScroll. cbn [default from_option id finishedRecord].
    rewrite lookup_insert_ne by discriminate. rewrite lookup_insert_eq. reflexivity.
Qed.

(** X4. A [pageProgress] message for a page that is a chapter of a
    material synchronizes all the chapters of that material with the pages:
    each chapter keeps its URL and all its properties but [progress], which
    becomes the clamped progress of its page when that is a number, and its
    own clamped progress otherwise. So, unless the page ignores the scroll
    position, the chapters at the URL of the message carry the clamped
    progress of the message. A material that has no chapter at that URL is
    left as it is. *)
Theorem pageProgress_syncs_chapters (now : Z) (msg : message) (d : data)
    (u key : string) (m : material) :
  normalizeUrl (msg_url msg) = Some u ->
  materials d !! key = Some m ->
  let d' := fst (pageProgress normalizeUrl now msg d) in
  if hasChapter u m then
    exists m',
      materials d' !! key = Some m' /\
      m_props m' = m_props m /\
      Forall2 (fun c c' =>
                 c_url c' = c_url c /\
                 (forall k, k <> "progress"%string -> c_props c' !! k = c_props c !! k) /\
                 c_props c' !! "progress"%string
                 = Some (ofZ (clampProgress
                                match property "progress" d' (c_url c) with
                                | Some (VNum n) => VNum n
                                | _ => default VUndefined (c_props c !! "progress"%string)
                                end)))
              (chapters m) (chapters m') /\
      (ignoresScroll (default ∅ (pages d !! u)) = false ->
       forall c', In c' (chapters m') -> c_url c' = u ->
         c_props c' !! "progress"%string
         = Some (ofZ (clampProgress (msg_progress msg))))
  else materials d' !! key = Some m.
Proof.
  intros Hu Hm d'.
  assert (Hmat : materials d' !! key
                 = Some (if hasChapter u m
                         then updateMaterialChapterProgressFromPages m (pages d')
                         else m)).
  { unfold d', pageProgress. rewrite Hu. cbn [fst materials pages].
    rewrite lookup_fmap, Hm. reflexivity. }
  destruct (hasChapter u m) eqn:Eh; [|exact Hmat].
  assert (Hcs : chapters (updateMaterialChapterProgressFromPages m (pages d'))
                = map (syncChapter (pages d')) (chapters m)).
  { unfold updateMaterialChapterProgressFromPages.
    destruct (chapters m) as [|c cs] eqn:E; [rewrite E|]; reflexivity. }
  exists (updateMaterialChapterProgressFromPages m (pages d')).
  split; [exact Hmat|]. split; [|split].
  - unfold updateMaterialChapterProgressFromPages. destruct (chapters m); reflexivity.
  - rewrite Hcs. clear Hcs. induction (chapters m) as [|c cs IH]; [constructor|].
    cbn [map]. constructor; [|exact IH].
    split; [reflexivity|]. split.
    + intros k Hk. unfold syncChapter. cbn [c_props]. apply lookup_insert_ne. congruence.
    + unfold syncChapter, property. cbn [c_props]. rewrite lookup_insert_eq.
      destruct (pages d' !! c_url c) as [r|]; cbn [mbind option_bind]; [|reflexivity].
      destruct (r !! "progress"%string) as [[| | | |]|]; reflexivity.
  - intros Hi c' Hin Hc'. rewrite Hcs in Hin. apply in_map_iff in Hin as (c & <- & _).
    assert (Hc : c_url c = u) by exact Hc'.
    rewrite (syncChapter_progress _ _ (Fin (inject_Z (clampProgress (msg_progress msg))))).
    + change (VNum (Fin (inject_Z (clampProgress (msg_progress msg)))))
        with (ofZ (clampProgress (msg_progress msg))).
      rewrite (clampProgress_ofZ _ (clampProgress_range _)). reflexivity.
    + rewrite Hc. unfold d'. rewrite (pageProgress_pages _ _ _ _ Hu), lookup_insert_eq.
      cbn [mbind option_bind]. rewrite nextRecord_progress, Hi. reflexivity.
Qed.

End Pages.

Lemma ignored_page_keeps_progress_witness :
  let d1 := fst (setIgnoreScrollProgress demoNormalize 1700000100
                   (VStr "https://example.org/b") (VBool true) demoData) in
  demoNormalize (VStr "https://example.org/b") = Some "https://example.org/b"%string /\
  property "progress"
    (scrolls demoNormalize
       [(1700000200%Z,
         {| msg_url := VStr "https://example.org/b";
            msg_progress := VNum (Fin (40 # 1));
            msg_title := VStr "B" |})] d1) "https://example.org/b" = None.
Proof.
  split; [reflexivity|].
  exact (proj1 (ignored_page_keeps_progress demoNormalize 1700000100
                  (VStr "https://example.org/b")
                  "https://example.org/b" _ demoData eq_refl)).
Defined.

(** A page of a book, read to 12 percent, and the book it is a chapter of. *)
Definition bookData : data :=
  {| materials :=
       <["m1"%string :=
           {| chapters := [{| c_url := "https://example.org/a";
                              c_props := <["progress"%string := ofZ 12]>
                                           (<["order"%string := ofZ 1]> ∅) |}];
              m_props := ∅ |}]> ∅;
     pages := ∅;
     collections := ∅ |}.

Lemma finished_page_stays_at_100_witness :
  let url := VStr "https://example.org/a" in
  let rs := [(1700000200%Z, demoMessage)] in
  let d1 := fst (setPageFinished demoNormalize 1700000100 url (VBool true) bookData) in
  demoNormalize url = Some "https://example.org/a"%string /\
  property "progress" (scrolls demoNormalize rs d1) "https://example.org/a" = Some (ofZ 100) /\
  chaptersAt100 "https://example.org/a" (scrolls demoNormalize rs d1).
Proof.
  intros url rs d1. split; [reflexivity|].
  destruct (finished_page_stays_at_100 demoNormalize 1700000100 url
              "https://example.org/a" rs bookData eq_refl) as (Hp & _ & _ & Hc).
  split; [exact Hp|]. apply Hc. constructor. reflexivity.
Defined.

Lemma unfinished_page_follows_scroll_witness :
  let url := VStr "https://example.org/a" in
  let d1 := fst (setPageFinished demoNormalize 1700000100 url (VBool false) demoData) in
  demoNormalize url = Some "https://example.org/a"%string /\
  VBool false <> VBool true /\
  property "status" d1 "https://example.org/a" = None /\
  property "progress"
    (fst (pageProgress demoNormalize 1700000200 demoMessage d1)) "https://example.org/a"
  = Some (ofZ 37).
Proof.
  intros url d1. split; [reflexivity|]. split; [discriminate|].
  destruct (unfinished_page_follows_scroll demoNormalize 1700000100 1700000200 url
              (VBool false) "https://example.org/a" demoMessage demoData
              eq_refl eq_refl ltac:(discriminate)) as (Hs & _ & Hp).
  split; [exact Hs|]. exact Hp.
Defined.

Lemma pageProgress_syncs_chapters_witness :
  demoNormalize (msg_url demoMessage) = Some "https://example.org/a"%string /\
  exists m',
    materials (fst (pageProgress demoNormalize 1700000000 demoMessage bookData))
      !! "m1"%string = Some m' /\
    Forall (fun c' => c_url c' = "https://example.org/a"%string ->
                      c_props c' !! "progress"%string = Some (ofZ 37))
           (chapters m').
Proof.
  split; [reflexivity|].
  assert (H := pageProgress_syncs_chapters demoNormalize 1700000000 demoMessage bookData
                 "https://example.org/a" "m1" _ eq_refl eq_refl).
  cbv zeta in H. cbn [hasChapter chapters existsb c_url String.eqb Ascii.eqb Bool.eqb orb] in H.
  destruct H as (m' & Hm' & _ & _ & Hnew).
  exists m'. split; [exact Hm'|].
  apply List.Forall_forall. intros c' Hin Hc. exact (Hnew eq_refl c' Hin Hc).
Defined.

(** *** Requests that fail *)

Lemma library_eta (l : library) : {| store := store l; bookmarks := bookmarks l |} = l.
Proof. destruct l. reflexivity. Qed.

(** X5. A request that the listener answers with an error, or with
    [already], writes nothing: the store is the one before the request. *)
Theorem refused_request_changes_nothing (normalizeUrl : value -> option string)
    (now : Z) (stringToNumber : string -> number) (numberToString : number -> string)
    (r : request) (l : library) :
  match snd (handle normalizeUrl now stringToNumber numberToString r l) with
  | Failed _ | Already =>
      fst (handle normalizeUrl now stringToNumber numberToString r l) = l
  | _ => True
  end.
Proof.
  destruct r; cbn [handle].
  - unfold onStore, pageProgress.
    destruct (normalizeUrl (msg_url msg)); cbn; [exact I|apply library_eta].
  - unfold onStore, setPageStatus.
    destruct (normalizeUrl url); [destruct (validStatus status)|]; cbn;
      first [exact I | apply library_eta].
  - unfold onStore, setIgnoreScrollProgress.
    destruct (normalizeUrl url); cbn; first [exact I | apply library_eta].
  - unfold onStore, setPageFinished.
    destruct (normalizeUrl url); cbn; first [exact I | apply library_eta].
  - unfold createMaterial.
    destruct (normalizeUrl indexUrl); [|reflexivity].
    destruct (truthy kind && negb _); cbn; [reflexivity|exact I].
  - unfold deleteMaterial.
    destruct (truthy materialId); [|reflexivity].
    destruct (materials (store l) !! _); cbn; [exact I|reflexivity].
  - unfold addChapter.
    destruct (arguments _ _ _ _) as [[key u]|]; [|reflexivity].
    destruct (materials (store l) !! key) as [m|]; [|reflexivity].
    destruct (chapterExists m u); cbn; [reflexivity|exact I].
  - unfold deleteChapter.
    destruct (arguments _ _ _ _) as [[key u]|]; [|reflexivity].
    destruct (materials (store l) !! key) as [m|]; [|reflexivity].
    destruct (_ =? _); cbn; [reflexivity|exact I].
  - unfold renameChapter.
    destruct (arguments _ _ _ _) as [[key u]|]; [|reflexivity].
    destruct (materials (store l) !! key) as [m|]; [|reflexivity].
    destruct (existsb _ _); cbn; [exact I|reflexivity].
  - unfold moveChapter.
    destruct (arguments _ _ _ _) as [[key u]|]; [|reflexivity].
    destruct (validDirection direction); [|reflexivity].
    destruct (materials (store l) !! key) as [m|]; [|reflexivity].
    destruct (Dom.findIndex _ _); [|reflexivity].
    destruct (_ || _); cbn; exact I.
Qed.

(** *** The order of chapters *)

(** [a <= b] as the comparison function of the sort sees it: [a - b] is
    not positive. *)
Definition notAbove (a b : number) : Prop := positive (sub a b) = false.

Lemma notAbove_refl (a : number) : notAbove a a.
Proof.
  unfold notAbove. destruct a as [q| | |]; try reflexivity. cbn.
  apply negb_false_iff, Qle_bool_iff. lra.
Qed.

Lemma notAbove_trans (a b c : number) :
  b <> NaN -> notAbove a b -> notAbove b c -> notAbove a c.
Proof.
  unfold notAbove.
  destruct a as [x| | |], b as [y| | |], c as [z| | |]; cbn;
    try reflexivity; try discriminate; try congruence.
  rewrite !negb_false_iff, !Qle_bool_iff. intros _ H1 H2. lra.
Qed.

Lemma above_notAbove (a b : number) : positive (sub a b) = true -> notAbove b a.
Proof.
  unfold notAbove. destruct a as [x| | |], b as [y| | |]; cbn;
    try reflexivity; try discriminate.
  rewrite negb_true_iff, negb_false_iff, Qle_bool_iff.
  intros H. destruct (Qlt_le_dec 0 (x - y)) as [Hlt|Hle].
  - lra.
  - apply Qle_bool_iff in Hle. congruence.
Qed.

Section Chapters.
Variable stringToNumber : string -> number.

Local Notation "'orderOf'" := (Worker.orderOf stringToNumber).
Local Notation "'insertByOrder'" := (Worker.insertByOrder stringToNumber).
Local Notation "'sortChapters'" := (Worker.sortChapters stringToNumber).
Local Notation "'normalizeChapters'" := (Worker.normalizeChapters stringToNumber).

Lemma orderOf_number (c : chapter) : orderOf c <> NaN.
Proof.
  unfold Worker.orderOf, orZero.
  destruct (toNumber stringToNumber _) as [q| | |]; cbn; try discriminate.
  destruct (negb (Qeq_bool q 0)); discriminate.
Qed.

(** The chapters in ascending order of their keys. *)
Definition ascending (a b : chapter) : Prop := notAbove (orderOf a) (orderOf b).

Lemma insertByOrder_perm (x : chapter) (l : list chapter) :
  Permutation (insertByOrder x l) (x :: l).
Proof.
  induction l as [|y l IH]; cbn; [reflexivity|].
  destruct (positive _); [|reflexivity].
  rewrite IH. apply perm_swap.
Qed.

Lemma sortChapters_perm (l : list chapter) : Permutation (sortChapters l) l.
Proof.
  induction l as [|x l IH]; cbn; [reflexivity|].
  rewrite insertByOrder_perm, IH. reflexivity.
Qed.

Lemma insertByOrder_sorted (x : chapter) (l : list chapter) :
  StronglySorted ascending l -> StronglySorted ascending (insertByOrder x l).
Proof.
  induction l as [|y l IH]; intros Hs; cbn.
  - constructor; constructor.
  - apply StronglySorted_inv in Hs as [Hs Hy].
    destruct (positive (sub (orderOf x) (orderOf y))) eqn:E.
    + constructor; [apply IH; exact Hs|].
      apply List.Forall_forall. intros z Hz.
      apply (Permutation_in _ (insertByOrder_perm x l)) in Hz as [<-|Hz].
      * apply above_notAbove. exact E.
      * revert z Hz. apply List.Forall_forall. exact Hy.
    + constructor; [constructor; assumption|].
      constructor; [exact E|].
      eapply List.Forall_impl; [|exact Hy].
      intros z Hz. eapply notAbove_trans; [apply orderOf_number|exact E|exact Hz].
Qed.

Lemma sortChapters_sorted (l : list chapter) : StronglySorted ascending (sortChapters l).
Proof.
  induction l as [|x l IH]; cbn; [constructor|].
  apply insertByOrder_sorted. exact IH.
Qed.

(** The sort is stable: the chapters that satisfy a predicate which does
    not tell apart chapters of equal keys keep their relative order when
    the predicate picks out the chapters of one key. *)
Lemma insertByOrder_filter (p : chapter -> bool) (x : chapter) (l : list chapter) :
  (forall y, p x = true -> p y = true -> positive (sub (orderOf x) (orderOf y)) = false) ->
  List.filter p (insertByOrder x l) = List.filter p (x :: l).
Proof.
  intros Hp. induction l as [|y l IH]; [reflexivity|].
  cbn [Worker.insertByOrder]. destruct (positive _) eqn:E; [|reflexivity].
  cbn [List.filter] in *. rewrite IH.
  destruct (p x) eqn:Ex, (p y) eqn:Ey; try reflexivity.
  rewrite (Hp y eq_refl Ey) in E. discriminate.
Qed.

(** The chapters whose key is the one of [c]. *)
Definition sameKey (c x : chapter) : bool :=
  negb (positive (sub (orderOf x) (orderOf c)))
  && negb (positive (sub (orderOf c) (orderOf x))).

Lemma sortChapters_stable (c : chapter) (l : list chapter) :
  List.filter (sameKey c) (sortChapters l) = List.filter (sameKey c) l.
Proof.
  induction l as [|x l IH]; [reflexivity|].
  cbn [Worker.sortChapters fold_right]. fold (sortChapters l).
  rewrite insertByOrder_filter.
  - cbn [List.filter]. rewrite IH. reflexivity.
  - intros y Hx Hy. unfold sameKey in *.
    apply andb_true_iff in Hx as [Hx1 Hx2]. apply andb_true_iff in Hy as [Hy1 Hy2].
    apply negb_true_iff in Hx1, Hx2, Hy1, Hy2.
    exact (notAbove_trans _ _ _ (orderOf_number c) Hx1 Hy2).
Qed.

(** The chapters carry the orders k+1, k+2, ... in list order. *)
Fixpoint numbered (k : nat) (l : list chapter) : Prop :=
  match l with
  | [] => True
  | c :: l' =>
      c_props c !! "order"%string = Some (ofZ (Z.of_nat k + 1)) /\ numbered (S k) l'
  end.

Lemma orderOf_ofZ (c : chapter) (z : Z) :
  z <> 0%Z ->
  c_props c !! "order"%string = Some (ofZ z) -> orderOf c = Fin (inject_Z z).
Proof.
  intros Hz H. unfold Worker.orderOf. rewrite H. cbn.
  unfold orZero. cbn.
  destruct (Qeq_bool (inject_Z z) 0) eqn:E; [|reflexivity].
  apply Qeq_bool_iff in E. unfold Qeq in E. cbn in E. lia.
Qed.

Lemma notAbove_inject (x y : Z) :
  positive (sub (Fin (inject_Z x)) (Fin (inject_Z y))) = negb (x <=? y)%Z.
Proof.
  cbn. f_equal. destruct (Z.leb_spec x y) as [H|H].
  - apply Qle_bool_iff. unfold Qle. cbn. lia.
  - destruct (Qle_bool _ _) eqn:E; [|reflexivity].
    apply Qle_bool_iff in E. unfold Qle in E. cbn in E. lia.
Qed.

Lemma numbered_app (k : nat) (l1 l2 : list chapter) :
  numbered k (l1 ++ l2) <-> numbered k l1 /\ numbered (k + length l1) l2.
Proof.
  revert k. induction l1 as [|c l1 IH]; intros k; cbn.
  - rewrite Nat.add_0_r. tauto.
  - rewrite IH. replace (S k + length l1) with (k + S (length l1)) by lia. tauto.
Qed.

(** A chapter whose key is at most the first order of a numbered list
    stays in front of it. *)
Lemma insertByOrder_front (x : chapter) (z : Z) (k : nat) (l : list chapter) :
  orderOf x = Fin (inject_Z z) -> (z <= Z.of_nat k + 1)%Z -> numbered k l ->
  insertByOrder x l = x :: l.
Proof.
  intros Hx Hz Hl. destruct l as [|y l]; [reflexivity|].
  destruct Hl as [Hy _]. cbn [Worker.insertByOrder].
  rewrite Hx, (orderOf_ofZ y (Z.of_nat k + 1) ltac:(lia) Hy), notAbove_inject.
  destruct (Z.leb_spec z (Z.of_nat k + 1)); [reflexivity|lia].
Qed.

Lemma insertByOrder_prefix (l1 : list chapter) : forall k s,
  numbered k (l1 ++ s) -> fold_right insertByOrder s l1 = l1 ++ s.
Proof.
  induction l1 as [|x l1 IH]; intros k s H; [reflexivity|].
  destruct H as [Hx H]. cbn [fold_right app]. rewrite (IH (S k) s H).
  apply (insertByOrder_front x (Z.of_nat k + 1) (S k)); [|lia|exact H].
  apply orderOf_ofZ; [lia|exact Hx].
Qed.

Lemma sortChapters_numbered (k : nat) (l : list chapter) :
  numbered k l -> sortChapters l = l.
Proof.
  intros H. unfold Worker.sortChapters.
  rewrite (insertByOrder_prefix l k []); rewrite app_nil_r; [reflexivity|exact H].
Qed.

Lemma setOrder_id (k : nat) (c : chapter) :
  c_props c !! "order"%string = Some (ofZ (Z.of_nat k + 1)) -> setOrder k c = c.
Proof.
  intros H. unfold setOrder. rewrite insert_id by exact H. destruct c. reflexivity.
Qed.

Lemma renumber_numbered (l : list chapter) : forall k, numbered k (renumber k l).
Proof.
  induction l as [|c l IH]; intros k; cbn; [exact I|].
  split; [apply lookup_insert_eq|apply IH].
Qed.

Lemma renumber_id (l : list chapter) : forall k, numbered k l -> renumber k l = l.
Proof.
  induction l as [|c l IH]; intros k H; [reflexivity|].
  destruct H as [Hc H]. cbn. rewrite (setOrder_id k c Hc), (IH _ H). reflexivity.
Qed.

Lemma renumber_length (l : list chapter) : forall k, length (renumber k l) = length l.
Proof. induction l as [|c l IH]; intros k; cbn; [reflexivity|]. rewrite IH. reflexivity. Qed.

(** What renumbering keeps of a chapter: its URL and every property but
    [order]. *)
Definition unordered (c : chapter) : string * gmap string value :=
  (c_url c, delete "order"%string (c_props c)).

Lemma renumber_unordered (l : list chapter) : forall k,
  map unordered (renumber k l) = map unordered l.
Proof.
  induction l as [|c l IH]; intros k; cbn; [reflexivity|].
  rewrite IH. f_equal. unfold unordered, setOrder. cbn.
  rewrite delete_insert_eq. reflexivity.
Qed.

Lemma renumber_urls (l : list chapter) (k : nat) :
  map c_url (renumber k l) = map c_url l.
Proof.
  assert (H := f_equal (map fst) (renumber_unordered l k)).
  rewrite !map_map in H. exact H.
Qed.

Lemma numbered_orders (l : list chapter) : forall k,
  numbered k l ->
  map orderOf l = map (fun i => Fin (inject_Z (Z.of_nat i + 1))) (seq k (length l)).
Proof.
  induction l as [|c l IH]; intros k H; [reflexivity|].
  destruct H as [Hc H]. cbn. rewrite (IH _ H).
  rewrite (orderOf_ofZ c (Z.of_nat k + 1) ltac:(lia) Hc). reflexivity.
Qed.

Lemma normalizeChapters_numbered (l : list chapter) : numbered 0 (normalizeChapters l).
Proof. apply renumber_numbered. Qed.

Lemma normalizeChapters_id (l : list chapter) : numbered 0 l -> normalizeChapters l = l.
Proof.
  intros H. unfold Worker.normalizeChapters.
  rewrite (sortChapters_numbered 0 l H). apply renumber_id. exact H.
Qed.

Lemma normalizeChapters_urls (l : list chapter) :
  Permutation (map c_url (normalizeChapters l)) (map c_url l).
Proof.
  unfold Worker.normalizeChapters. rewrite renumber_urls.
  apply Permutation_map, sortChapters_perm.
Qed.

(** X6. [sortChapters], the sort of the popup and of [normalizeChapters],
    rearranges the chapters in ascending order of [Number(order) || 0] and
    is stable: the chapters of one key keep the order they are stored in. *)
Theorem sortChapters_ascending_stable (l : list chapter) :
  Permutation (sortChapters l) l /\
  StronglySorted ascending (sortChapters l) /\
  (forall c, List.filter (sameKey c) (sortChapters l) = List.filter (sameKey c) l).
Proof.
  split; [apply sortChapters_perm|]. split; [apply sortChapters_sorted|].
  intros c. apply sortChapters_stable.
Qed.

(** X7. [normalizeChapters] keeps of every chapter its URL and all its
    properties but [order], puts the chapters in the order of
    [sortChapters], and numbers them 1, 2, ... in that order; normalizing
    again changes nothing. *)
Theorem normalizeChapters_renumbers (l : list chapter) :
  map unordered (normalizeChapters l) = map unordered (sortChapters l) /\
  map orderOf (normalizeChapters l)
  = map (fun i => Fin (inject_Z (Z.of_nat i + 1))) (seq 0 (length l)) /\
  normalizeChapters (normalizeChapters l) = normalizeChapters l.
Proof.
  split; [apply renumber_unordered|]. split.
  - rewrite (numbered_orders _ 0 (normalizeChapters_numbered l)).
    unfold Worker.normalizeChapters.
    rewrite renumber_length, (Permutation_length (sortChapters_perm l)). reflexivity.
  - apply normalizeChapters_id, normalizeChapters_numbered.
Qed.

(** *** Moving a chapter *)

Lemma swap_cons (i j : nat) (x : chapter) (l : list chapter) :
  swap (S i) (S j) (x :: l) = x :: swap i j l.
Proof.
  unfold swap. cbn. destruct (l !! i), (l !! j); reflexivity.
Qed.

Lemma swap_adjacent (l1 : list chapter) (a b : chapter) (l2 : list chapter) :
  swap (length l1) (S (length l1)) (l1 ++ a :: b :: l2) = l1 ++ b :: a :: l2 /\
  swap (S (length l1)) (length l1) (l1 ++ a :: b :: l2) = l1 ++ b :: a :: l2.
Proof.
  induction l1 as [|x l1 [IH1 IH2]]; [split; reflexivity|].
  cbn [length app]. rewrite !swap_cons, IH1, IH2. split; reflexivity.
Qed.

Lemma split_adjacent (l : list chapter) : forall i,
  S i < length l -> exists l1 a b l2, l = l1 ++ a :: b :: l2 /\ length l1 = i.
Proof.
  induction l as [|x l IH]; intros i Hi; cbn in Hi; [lia|].
  destruct i as [|i].
  - destruct l as [|y l]; cbn in Hi; [lia|]. exists [], x, y, l. split; reflexivity.
  - destruct (IH i ltac:(lia)) as (l1 & a & b & l2 & -> & Hlen).
    exists (x :: l1), a, b, l2. split; [reflexivity|]. cbn. lia.
Qed.

(** Two neighbours of a numbered list that have changed places are put
    back by the sort. *)
Lemma sortChapters_swapped (l1 : list chapter) (a b : chapter) (l2 : list chapter) :
  numbered 0 (l1 ++ a :: b :: l2) ->
  sortChapters (l1 ++ b :: a :: l2) = l1 ++ a :: b :: l2.
Proof.
  intros H. assert (H' := H). apply numbered_app in H' as [_ (Ha & Hb & H2)].
  cbn [Nat.add] in Ha, Hb, H2.
  assert (Hka : orderOf a = Fin (inject_Z (Z.of_nat (length l1) + 1)))
    by (apply orderOf_ofZ; [lia|exact Ha]).
  assert (Hkb : orderOf b = Fin (inject_Z (Z.of_nat (S (length l1)) + 1)))
    by (apply orderOf_ofZ; [lia|exact Hb]).
  unfold Worker.sortChapters. rewrite fold_right_app.
  cbn [fold_right]. fold (sortChapters l2).
  rewrite (sortChapters_numbered _ l2 H2).
  rewrite (insertByOrder_front a _ (S (S (length l1))) l2 Hka ltac:(lia) H2).
  cbn [Worker.insertByOrder]. rewrite Hka, Hkb, notAbove_inject.
  destruct (Z.leb_spec (Z.of_nat (S (length l1)) + 1) (Z.of_nat (length l1) + 1));
    [lia|]. cbn [negb].
  rewrite (insertByOrder_front b _ (S (S (length l1))) l2 Hkb ltac:(lia) H2).
  apply (insertByOrder_prefix l1 0). exact H.
Qed.

Lemma findIndex_length {A : Type} (p : A -> bool) (l : list A) (i : nat) :
  Dom.findIndex p l = Some i -> i < length l.
Proof.
  revert i. induction l as [|x l IH]; intros i; cbn; [discriminate|].
  destruct (p x).
  - intros [= <-]. lia.
  - destruct (Dom.findIndex p l) as [j|]; cbn; [|discriminate].
    intros [= <-]. specialize (IH j eq_refl). lia.
Qed.

Lemma normalizeChapters_swap (l : list chapter) (i j : nat) :
  numbered 0 l -> i < length l -> j < length l -> (j = S i \/ i = S j) ->
  normalizeChapters (swap i j l) = l.
Proof.
  intros H Hi Hj [->| ->].
  - destruct (split_adjacent l i Hj) as (l1 & a & b & l2 & -> & <-).
    rewrite (proj1 (swap_adjacent l1 a b l2)).
    unfold Worker.normalizeChapters. rewrite (sortChapters_swapped _ _ _ _ H).
    apply renumber_id. exact H.
  - destruct (split_adjacent l j Hi) as (l1 & a & b & l2 & -> & <-).
    rewrite (proj2 (swap_adjacent l1 a b l2)).
    unfold Worker.normalizeChapters. rewrite (sortChapters_swapped _ _ _ _ H).
    apply renumber_id. exact H.
Qed.

Variable normalizeUrl : value -> option string.
Variable numberToString : number -> string.

Local Notation "'arguments'" := (Worker.arguments normalizeUrl numberToString).
Local Notation "'moveChapter'" :=
  (Worker.moveChapter normalizeUrl stringToNumber numberToString).
Local Notation "'addChapter'" :=
  (Worker.addChapter normalizeUrl stringToNumber numberToString).
Local Notation "'deleteChapter'" :=
  (Worker.deleteChapter normalizeUrl stringToNumber numberToString).

Lemma swapWith_adjacent (direction : value) (idx : nat) :
  swapWith direction idx = (Z.of_nat idx - 1)%Z \/
  swapWith direction idx = (Z.of_nat idx + 1)%Z.
Proof.
  unfold swapWith. destruct direction as [| | | |s]; auto.
  destruct (String.eqb s "up"); auto.
Qed.

(** What [moveChapter] stores: nothing, or the normalized list of the
    chapters as they were. *)
Lemma moveChapter_effect (materialId url direction : value) (l : library) :
  fst (moveChapter materialId url direction l) = l \/
  exists key m,
    materials (store l) !! key = Some m /\
    fst (moveChapter materialId url direction l)
    = withMaterial l key (withChapters m (normalizeChapters (chapters m))).
Proof.
  unfold Worker.moveChapter.
  destruct (arguments materialId url) as [[key u]|]; [|left; reflexivity].
  destruct (validDirection direction); [|left; reflexivity].
  destruct (materials (store l) !! key) as [m|] eqn:Em; [|left; reflexivity].
  destruct (Dom.findIndex _ _) as [idx|] eqn:Ei; [|left; reflexivity].
  destruct (_ || _) eqn:Eb; [left; reflexivity|].
  right. exists key, m. split; [exact Em|]. cbn [fst].
  apply orb_false_iff in Eb as [E1 E2].
  apply Z.ltb_ge in E1. apply Z.leb_gt in E2.
  apply findIndex_length in Ei.
  rewrite normalizeChapters_swap; [reflexivity|apply normalizeChapters_numbered|exact Ei|lia|].
  destruct (swapWith_adjacent direction idx) as [E|E]; rewrite E in *; [right|left]; lia.
Qed.

(** The chapters of a material as the popup lists them: in normalized
    order, each with its URL and its properties but [order]. *)
Definition listing (m : material) : list (string * gmap string value) :=
  map unordered (normalizeChapters (chapters m)).

(** X8. [moveChapter] never changes the order of the chapters. It swaps
    the chapter with its neighbour in the normalized list, where every
    chapter carries its position as [order], and normalizes again, which
    sorts by [order] and so puts the two back: what is stored, for [up] as
    for [down], is the normalized list of the chapters as they were; at
    either end of the list, and when the request is refused, nothing is
    stored. So the chapters of every material are listed after the request
    as they were before it. *)
Theorem moveChapter_keeps_the_order (materialId url direction : value) (l : library) :
  let l' := fst (moveChapter materialId url direction l) in
  (l' = l \/
   exists key m,
     materials (store l) !! key = Some m /\
     l' = withMaterial l key (withChapters m (normalizeChapters (chapters m)))) /\
  forall key, listing <$> materials (store l') !! key
              = listing <$> materials (store l) !! key.
Proof.
  cbv zeta. split; [apply moveChapter_effect|]. intros k.
  destruct (moveChapter_effect materialId url direction l)
    as [->|(key & m & Hm & ->)]; [reflexivity|].
  cbn [withMaterial store materials]. destruct (String.eqb_spec key k) as [->|Hne].
  - rewrite lookup_insert_eq, Hm. cbn [fmap option_fmap option_map]. f_equal. unfold listing.
    cbn [withChapters chapters].
    rewrite (normalizeChapters_id _ (normalizeChapters_numbered _)). reflexivity.
  - rewrite lookup_insert_ne by exact Hne. reflexivity.
Qed.

Lemma inject_Z_succ (z : Z) : (inject_Z z + 1)%Q = inject_Z (z + 1).
Proof. unfold Qplus, inject_Z. cbn. f_equal. lia. Qed.

Lemma maxNumber_numbered (l : list chapter) : forall k,
  numbered k l ->
  fold_right maxNumber NegInf (map orderOf l)
  = match l with
    | [] => NegInf
    | _ => Fin (inject_Z (Z.of_nat (k + length l)))
    end.
Proof.
  induction l as [|c l IH]; intros k H; [reflexivity|].
  destruct H as [Hc H]. cbn [map fold_right]. rewrite (IH _ H).
  rewrite (orderOf_ofZ c (Z.of_nat k + 1) ltac:(lia) Hc).
  destruct l as [|c' l].
  - cbn. do 2 f_equal. lia.
  - cbn [maxNumber length].
    replace (Qle_bool _ _) with true.
    + do 2 f_equal. lia.
    + symmetry. apply Qle_bool_iff. unfold Qle. cbn. lia.
Qed.

Lemma nextChapterOrder_numbered (m : material) :
  numbered 0 (chapters m) ->
  Worker.nextChapterOrder stringToNumber m
  = Fin (inject_Z (Z.of_nat (length (chapters m)) + 1)).
Proof.
  intros H. unfold Worker.nextChapterOrder.
  assert (Hmax := maxNumber_numbered _ 0 H).
  destruct (chapters m) as [|c cs] eqn:E; [reflexivity|].
  cbn [map] in *. rewrite Hmax. cbn [succ Nat.add]. rewrite inject_Z_succ. reflexivity.
Qed.

Lemma newChapter_props (u : string) (order : number) (page : option (gmap string value)) :
  c_url (newChapter u order page) = u /\
  c_props (newChapter u order page) !! "order"%string = Some (VNum order) /\
  exists p, c_props (newChapter u order page) !! "progress"%string = Some (ofZ p) /\
            (0 <= p <= 100)%Z.
Proof.
  unfold newChapter. cbn [c_url c_props]. split; [reflexivity|].
  destruct (truthy (VStr _)).
  - rewrite !(lookup_insert_ne _ "title"%string) by discriminate.
    rewrite lookup_insert_ne by discriminate. rewrite !lookup_insert_eq.
    split; [reflexivity|]. eexists. split; [reflexivity|apply clampProgress_range].
  - rewrite lookup_insert_ne by discriminate. rewrite !lookup_insert_eq.
    split; [reflexivity|]. eexists. split; [reflexivity|apply clampProgress_range].
Qed.

(** X9. [addChapter] for a URL that is not yet a chapter of a material whose
    chapters are numbered 1, ..., n appends the page as the last chapter,
    with the order n + 1 and a progress between 0 and 100, so that the
    chapters stay numbered in list order; every other chapter is kept as it
    is. *)
Theorem addChapter_appends_last (materialId url : value) (key u : string)
    (m : material) (l : library) :
  arguments materialId url = Some (key, u) ->
  materials (store l) !! key = Some m ->
  numbered 0 (chapters m) ->
  chapterExists m u = false ->
  exists c,
    addChapter materialId url l
    = (withMaterial l key (withChapters m (chapters m ++ [c])), Done) /\
    c_url c = u /\
    c_props c !! "order"%string = Some (ofZ (Z.of_nat (length (chapters m)) + 1)) /\
    (exists p, c_props c !! "progress"%string = Some (ofZ p) /\ (0 <= p <= 100)%Z) /\
    numbered 0 (chapters m ++ [c]) /\
    normalizeChapters (chapters m ++ [c]) = chapters m ++ [c].
Proof.
  intros Ha Hm Hn He.
  set (c := newChapter u (Worker.nextChapterOrder stringToNumber m) (pages (store l) !! u)).
  destruct (newChapter_props u (Worker.nextChapterOrder stringToNumber m)
              (pages (store l) !! u)) as (Hu & Ho & Hp).
  fold c in Hu, Ho, Hp.
  rewrite (nextChapterOrder_numbered m Hn) in Ho.
  assert (Hn' : numbered 0 (chapters m ++ [c])).
  { apply numbered_app. split; [exact Hn|]. split; [exact Ho|exact I]. }
  exists c. split; [|split; [exact Hu|split; [exact Ho|split; [exact Hp|split]]]].
  - unfold Worker.addChapter. rewrite Ha, Hm, He. reflexivity.
  - exact Hn'.
  - apply normalizeChapters_id. exact Hn'.
Qed.

(** *** Deleting a chapter *)

Lemma filter_split_length {A : Type} (p : A -> bool) (l : list A) :
  length (List.filter p l) + length (List.filter (fun x => negb (p x)) l) = length l.
Proof.
  induction l as [|x l IH]; [reflexivity|].
  cbn [List.filter]. destruct (p x); cbn [negb length]; lia.
Qed.

Lemma filter_all_iff {A : Type} (p : A -> bool) (l : list A) :
  (length (List.filter (fun x => negb (p x)) l) =? length l) = negb (existsb p l).
Proof.
  induction l as [|x l IH]; [reflexivity|].
  assert (Hle := filter_split_length p l).
  cbn [List.filter existsb length]. destruct (p x); cbn [negb orb length].
  - apply Nat.eqb_neq. lia.
  - exact IH.
Qed.

Lemma chapterExists_in (m : material) (u : string) :
  chapterExists m u = true <-> In u (map c_url (chapters m)).
Proof.
  unfold chapterExists. rewrite existsb_exists, in_map_iff. split.
  - intros (c & Hin & He). apply String.eqb_eq in He. exists c. auto.
  - intros (c & He & Hin). exists c. split; [exact Hin|]. apply String.eqb_eq. exact He.
Qed.

Lemma chapterExists_false (m : material) (u : string) :
  chapterExists m u = false <-> ~ In u (map c_url (chapters m)).
Proof.
  rewrite <- chapterExists_in. destruct (chapterExists m u); split; congruence.
Qed.

(** A list in ascending order of the keys is left as it is by the sort. *)
Lemma sortChapters_ascending (l : list chapter) :
  StronglySorted ascending l -> sortChapters l = l.
Proof.
  induction 1 as [|x l Hl IH Hx]; [reflexivity|].
  cbn [Worker.sortChapters fold_right]. fold (sortChapters l). rewrite IH.
  destruct l as [|y l]; [reflexivity|]. cbn [Worker.insertByOrder].
  apply Forall_inv in Hx. unfold ascending, notAbove in Hx. rewrite Hx. reflexivity.
Qed.

Lemma ascending_filter (p : chapter -> bool) (l : list chapter) :
  StronglySorted ascending l -> StronglySorted ascending (List.filter p l).
Proof.
  induction 1 as [|x l Hl IH Hx]; [constructor|].
  cbn [List.filter]. destruct (p x); [|exact IH].
  constructor; [exact IH|]. apply List.Forall_forall. intros y Hy.
  apply filter_In in Hy as [Hy _]. revert y Hy. apply List.Forall_forall. exact Hx.
Qed.

Lemma numbered_from (l : list chapter) : forall k,
  numbered k l ->
  Forall (fun c => exists j : Z, (Z.of_nat k + 1 <= j)%Z /\ orderOf c = Fin (inject_Z j)) l.
Proof.
  induction l as [|c l IH]; intros k H; [constructor|].
  destruct H as [Hc H]. constructor.
  - exists (Z.of_nat k + 1)%Z. split; [lia|]. apply orderOf_ofZ; [lia|exact Hc].
  - eapply List.Forall_impl; [|exact (IH _ H)].
    intros x (j & Hj & Hx). exists j. split; [lia|exact Hx].
Qed.

(** A numbered list is in ascending order. *)
Lemma numbered_ascending (l : list chapter) : forall k,
  numbered k l -> StronglySorted ascending l.
Proof.
  induction l as [|c l IH]; intros k H; [constructor|].
  assert (Hall := numbered_from _ _ (proj2 H)). destruct H as [Hc H].
  constructor; [exact (IH _ H)|].
  eapply List.Forall_impl; [|exact Hall].
  intros x (j & Hj & Hx). unfold ascending, notAbove.
  rewrite (orderOf_ofZ c (Z.of_nat k + 1) ltac:(lia) Hc), Hx, notAbove_inject.
  destruct (Z.leb_spec (Z.of_nat k + 1) j); [reflexivity|lia].
Qed.

(** X10. [deleteChapter] for a URL that is a chapter of the material removes
    every chapter at that URL and keeps the others, each with its URL and
    all its properties but [order], in the order of their keys, which is
    the order they were stored in when the chapters were numbered; it
    numbers them 1, 2, ... in that order. It removes from the quotes of the
    material exactly those saved on that URL, keeping the others in their
    order; the count it answers is the number of quotes removed, and the
    pages are left as they are. For a URL that is no chapter of the
    material it answers [chapter_not_found]. *)
Theorem deleteChapter_removes (materialId url : value) (key u : string)
    (m : material) (l : library) :
  arguments materialId url = Some (key, u) ->
  materials (store l) !! key = Some m ->
  let quotes := default [] (bookmarks l !! key) in
  let kept := List.filter (fun c => negb (String.eqb (c_url c) u)) (chapters m) in
  let l' := fst (deleteChapter materialId url l) in
  if chapterExists m u then
    exists m' quotes',
      materials (store l') !! key = Some m' /\
      bookmarks l' !! key = Some quotes' /\
      snd (deleteChapter materialId url l) = Removed (length quotes - length quotes') /\
      chapterExists m' u = false /\
      Permutation (map c_url (chapters m'))
        (List.filter (fun v => negb (String.eqb v u)) (map c_url (chapters m))) /\
      numbered 0 (chapters m') /\
      m_props m' = m_props m /\
      map unordered (chapters m') = map unordered (sortChapters kept) /\
      (numbered 0 (chapters m) -> map unordered (chapters m') = map unordered kept) /\
      (forall k, k <> key ->
         materials (store l') !! k = materials (store l) !! k /\
         bookmarks l' !! k = bookmarks l !! k) /\
      quotes' = List.filter (fun b => negb (savedOn normalizeUrl u b)) quotes /\
      pages (store l') = pages (store l)
  else deleteChapter materialId url l = (l, Failed "chapter_not_found").
Proof.
  intros Ha Hm quotes kept l'. subst l'. unfold Worker.deleteChapter.
  rewrite Ha, Hm. cbv zeta. rewrite filter_all_iff.
  fold (chapterExists m u). destruct (chapterExists m u) eqn:He; cbn [negb];
    [|reflexivity].
  fold kept.
  assert (Hperm : Permutation (map c_url (normalizeChapters kept))
                    (List.filter (fun v => negb (String.eqb v u)) (map c_url (chapters m)))).
  { rewrite normalizeChapters_urls. unfold kept.
    rewrite List.filter_map_swap. reflexivity. }
  assert (Hun : map unordered (normalizeChapters kept) = map unordered (sortChapters kept))
    by apply renumber_unordered.
  eexists _, _. cbn [fst snd store bookmarks withMaterial materials pages].
  split; [apply lookup_insert_eq|]. split; [apply lookup_insert_eq|].
  split; [|split; [|split; [exact Hperm|split;
    [apply normalizeChapters_numbered|split; [reflexivity|split; [exact Hun|split;
      [|split; [|split; reflexivity]]]]]]]].
  - f_equal. fold quotes.
    assert (H := filter_split_length (savedOn normalizeUrl u) quotes). lia.
  - apply chapterExists_false. cbn [withChapters chapters]. intros Hin.
    apply (Permutation_in _ Hperm) in Hin. apply filter_In in Hin as [_ Hne].
    rewrite String.eqb_refl in Hne. discriminate.
  - intros Hnum. cbn [withChapters chapters]. rewrite Hun. f_equal.
    apply sortChapters_ascending, ascending_filter, (numbered_ascending _ 0), Hnum.
  - intros k Hk. split; apply lookup_insert_ne; congruence.
Qed.

(** *** The numbering of the chapters *)

(** The chapters of a material have distinct URLs and carry the orders
    1, 2, ... in list order. *)
Definition chaptersOk (m : material) : Prop :=
  numbered 0 (chapters m) /\ List.NoDup (map c_url (chapters m)).

Definition wellNumbered (l : library) : Prop :=
  forall key m, materials (store l) !! key = Some m -> chaptersOk m.

Lemma chaptersOk_normalize (m : material) (cs : list chapter) :
  List.NoDup (map c_url cs) -> chaptersOk (withChapters m (normalizeChapters cs)).
Proof.
  intros H. split; cbn [withChapters chapters].
  - apply normalizeChapters_numbered.
  - apply (Permutation_NoDup (Permutation_sym (normalizeChapters_urls cs))). exact H.
Qed.

Lemma wellNumbered_withMaterial (l : library) (key : string) (m : material) :
  wellNumbered l -> chaptersOk m -> wellNumbered (withMaterial l key m).
Proof.
  intros Hl Hm k m'. cbn [withMaterial store materials].
  destruct (String.eqb_spec key k) as [->|Hne].
  - rewrite lookup_insert_eq. intros [= <-]. exact Hm.
  - rewrite lookup_insert_ne by exact Hne. apply Hl.
Qed.

Lemma syncChapter_order (pgs : gmap string (gmap string value)) (c : chapter) :
  c_url (syncChapter pgs c) = c_url c /\
  c_props (syncChapter pgs c) !! "order"%string = c_props c !! "order"%string.
Proof.
  unfold syncChapter. cbn [c_url c_props]. split; [reflexivity|].
  apply lookup_insert_ne. discriminate.
Qed.

Lemma numbered_syncChapter pgs (l : list chapter) : forall k,
  numbered k l -> numbered k (map (syncChapter pgs) l).
Proof.
  induction l as [|c l IH]; intros k H; [exact I|].
  destruct H as [Hc H]. cbn [map numbered]. split; [|apply IH; exact H].
  rewrite (proj2 (syncChapter_order pgs c)). exact Hc.
Qed.

Lemma chaptersOk_update (m : material) pgs :
  chaptersOk m -> chaptersOk (updateMaterialChapterProgressFromPages m pgs).
Proof.
  intros [Hn Hd]. unfold updateMaterialChapterProgressFromPages.
  destruct (chapters m) as [|c cs] eqn:E; [split; rewrite E; assumption|].
  split; cbn [chapters].
  - apply numbered_syncChapter. exact Hn.
  - rewrite map_map.
    rewrite (map_ext _ c_url (fun c => proj1 (syncChapter_order pgs c))). exact Hd.
Qed.

Lemma pageProgress_wellNumbered now msg (l : library) :
  wellNumbered l ->
  wellNumbered (fst (onStore (pageProgress normalizeUrl now msg) l)).
Proof.
  intros Hl k m'. unfold onStore, pageProgress. cbn [fst store].
  destruct (normalizeUrl (msg_url msg)) as [u|]; [|apply Hl].
  cbn [fst materials]. rewrite lookup_fmap.
  destruct (materials (store l) !! k) as [m|] eqn:Em; cbn; [|discriminate].
  intros [= <-]. destruct (hasChapter u m).
  - apply chaptersOk_update. exact (Hl k m Em).
  - exact (Hl k m Em).
Qed.

Lemma appendChapter_ok (m : material) (u : string) pgs :
  chaptersOk m -> chapterExists m u = false ->
  chaptersOk (appendChapter stringToNumber m u pgs).
Proof.
  intros [Hn Hd] He. unfold appendChapter.
  rewrite (nextChapterOrder_numbered m Hn).
  destruct (newChapter_props u (Fin (inject_Z (Z.of_nat (length (chapters m)) + 1)))
              (pgs !! u)) as (Hu & Ho & _).
  split; cbn [withChapters chapters].
  - apply numbered_app. split; [exact Hn|]. split; [exact Ho|exact I].
  - rewrite map_app. cbn [map]. rewrite Hu.
    apply (Permutation_NoDup (Permutation_cons_append _ u)). constructor; [|exact Hd].
    apply chapterExists_false. exact He.
Qed.

Lemma renamed_urls (u title : string) (cs : list chapter) :
  map c_url (map (fun c => if String.eqb (c_url c) u then retitle title c else c) cs)
  = map c_url cs.
Proof.
  rewrite map_map. apply map_ext. intros c. destruct (String.eqb (c_url c) u); reflexivity.
Qed.

Lemma handle_wellNumbered (now : Z) (r : request) (l : library) :
  wellNumbered l ->
  wellNumbered (fst (handle normalizeUrl now stringToNumber numberToString r l)).
Proof.
  intros Hl. destruct r; cbn [handle].
  - destruct (onStore _ l) as [l' res] eqn:E.
    assert (H := pageProgress_wellNumbered now msg l Hl). rewrite E in H. exact H.
  - unfold onStore, setPageStatus.
    destruct (normalizeUrl url); [destruct (validStatus status)|]; exact Hl.
  - unfold onStore, setIgnoreScrollProgress. destruct (normalizeUrl url); exact Hl.
  - unfold onStore, setPageFinished. destruct (normalizeUrl url); exact Hl.
  - unfold createMaterial. destruct (normalizeUrl indexUrl); [|exact Hl].
    destruct (truthy kind && negb _); [exact Hl|]. cbn [fst store].
    apply wellNumbered_withMaterial; [exact Hl|]. split; constructor.
  - unfold deleteMaterial. destruct (truthy materialId); [|exact Hl].
    destruct (materials (store l) !! _); [|exact Hl].
    intros k m0. cbn [fst store materials]. intros H.
    apply lookup_delete_Some in H as [_ H]. exact (Hl k m0 H).
  - unfold Worker.addChapter.
    destruct (arguments _ _) as [[key u]|]; [|exact Hl].
    destruct (materials (store l) !! key) as [m|] eqn:Em; [|exact Hl].
    destruct (chapterExists m u) eqn:He; [exact Hl|]. cbn [fst].
    apply wellNumbered_withMaterial; [exact Hl|].
    apply appendChapter_ok; [exact (Hl key m Em)|exact He].
  - unfold Worker.deleteChapter.
    destruct (arguments _ _) as [[key u]|]; [|exact Hl].
    destruct (materials (store l) !! key) as [m|] eqn:Em; [|exact Hl].
    cbv zeta. destruct (_ =? _); [exact Hl|]. cbn [fst store].
    apply (wellNumbered_withMaterial l key); [exact Hl|].
    apply chaptersOk_normalize.
    assert (Hf : map c_url (List.filter (fun c => negb (String.eqb (c_url c) u)) (chapters m))
                 = List.filter (fun v => negb (String.eqb v u)) (map c_url (chapters m)))
      by (symmetry; apply List.filter_map_swap).
    rewrite Hf. apply List.NoDup_filter. exact (proj2 (Hl key m Em)).
  - unfold renameChapter.
    destruct (Worker.arguments _ _ _ _) as [[key u]|]; [|exact Hl].
    destruct (materials (store l) !! key) as [m|] eqn:Em; [|exact Hl].
    cbv zeta. destruct (existsb _ _); [|exact Hl]. cbn [fst].
    apply wellNumbered_withMaterial; [exact Hl|].
    apply chaptersOk_normalize. rewrite renamed_urls. exact (proj2 (Hl key m Em)).
  - destruct (moveChapter_effect materialId url direction l)
      as [->|(key & m & Hm & ->)]; [exact Hl|].
    apply wellNumbered_withMaterial; [exact Hl|].
    apply chaptersOk_normalize. exact (proj2 (Hl key m Hm)).
Qed.

(** The empty store. *)
Definition emptyLibrary : library :=
  {| store := {| materials := ∅; pages := ∅; collections := ∅ |}; bookmarks := ∅ |}.

(** X11. The numbering of the chapters is an invariant of the listener:
    when the chapters of every material have distinct URLs and carry the
    orders 1, 2, ... in list order, as in the empty store, they still do
    after any sequence of [pageProgress], page, material and chapter
    messages. *)
Theorem chapters_stay_numbered (rs : list (Z * request)) (l : library) :
  wellNumbered l ->
  wellNumbered (run normalizeUrl stringToNumber numberToString rs l).
Proof.
  revert l. induction rs as [|r rs IH]; intros l Hl; [exact Hl|].
  unfold run. cbn [fold_left]. apply IH. apply handle_wellNumbered. exact Hl.
Qed.

(** *** The material a URL belongs to *)

Lemma insertByPrefix_head (x : string * string) (l : list (string * string)) :
  head (insertByPrefix x l)
  = Some (match l with
          | [] => x
          | y :: _ => if String.length (snd x) <? String.length (snd y) then y else x
          end).
Proof.
  destruct l as [|y l]; [reflexivity|]. cbn [insertByPrefix].
  destruct (_ <? _); reflexivity.
Qed.

(** The first candidate after the sort is one of the longest prefix. *)
Lemma longest_first (l : list (string * string)) (x : string * string) :
  head (fold_right insertByPrefix [] l) = Some x ->
  In x l /\ forall y, In y l -> String.length (snd y) <= String.length (snd x).
Proof.
  revert x. induction l as [|z l IH]; intros x; [discriminate|].
  cbn [fold_right]. rewrite insertByPrefix_head.
  destruct (fold_right insertByPrefix [] l) as [|y s] eqn:E.
  - intros [= <-]. destruct l as [|z' l].
    + split; [left; reflexivity|]. intros y [<-|[]]. lia.
    + exfalso. cbn [fold_right] in E.
      assert (H := insertByPrefix_head z' (fold_right insertByPrefix [] l)).
      rewrite E in H. discriminate H.
  - destruct (IH y eq_refl) as [Hin Hmax].
    destruct (Nat.ltb_spec (String.length (snd z)) (String.length (snd y))) as [Hlt|Hge];
      intros [= <-].
    + split; [right; exact Hin|]. intros w [<-|Hw]; [lia|apply Hmax; exact Hw].
    + split; [left; reflexivity|]. intros w [<-|Hw]; [lia|].
      specialize (Hmax w Hw). lia.
Qed.

Lemma in_matching (entries : list (string * material)) (url : string)
    (materialId prefix : string) :
  In (materialId, prefix) (matching normalizeUrl entries url) <->
  exists m,
    In (materialId, m) entries /\
    getMaterialUrlScopePrefix normalizeUrl (indexUrlOf m) = Some prefix /\
    prefix <> EmptyString /\ url <> EmptyString /\ String.prefix prefix url = true.
Proof.
  unfold matching. rewrite <- list_elem_of_In, list_elem_of_omap. split.
  - intros ([k m] & Hin & H). apply list_elem_of_In in Hin. cbn [fst snd] in H.
    destruct (getMaterialUrlScopePrefix normalizeUrl (indexUrlOf m)) as [p|] eqn:Ep;
      [|discriminate].
    destruct (truthy (VStr p) && isUrlUnderPrefix url p) eqn:Et; [|discriminate].
    injection H as <- <-. exists m. split; [exact Hin|]. split; [exact Ep|].
    apply andb_true_iff in Et as [Hp Hu]. unfold isUrlUnderPrefix in Hu.
    apply andb_true_iff in Hu as [Hu Hpre]. apply andb_true_iff in Hu as [Hu _].
    cbn in Hp, Hu. apply negb_true_iff in Hp, Hu.
    apply String.eqb_neq in Hp, Hu. auto.
  - intros (m & Hin & Hs & Hp & Hu & Hpre). exists (materialId, m).
    split; [apply list_elem_of_In; exact Hin|]. cbn [fst snd]. rewrite Hs.
    unfold isUrlUnderPrefix. rewrite Hpre. cbn.
    apply String.eqb_neq in Hp, Hu. rewrite Hp, Hu. reflexivity.
Qed.

(** X12. The material that [findMatchingMaterial] returns for a URL has an
    index URL that is a prefix of the URL, and no material with such an
    index URL has a longer one. It returns none when no material has such
    an index URL, and otherwise only if a material has the empty id. *)
Theorem findMatchingMaterial_longest_prefix (entries : list (string * material))
    (url : string) :
  match findMatchingMaterial normalizeUrl entries url with
  | Some materialId =>
      exists m prefix,
        In (materialId, m) entries /\
        getMaterialUrlScopePrefix normalizeUrl (indexUrlOf m) = Some prefix /\
        String.prefix prefix url = true /\
        forall materialId' m' prefix',
          In (materialId', m') entries ->
          getMaterialUrlScopePrefix normalizeUrl (indexUrlOf m') = Some prefix' ->
          prefix' <> EmptyString -> String.prefix prefix' url = true ->
          String.length prefix' <= String.length prefix
  | None =>
      matching normalizeUrl entries url = [] \/
      exists m, In (EmptyString, m) entries
  end.
Proof.
  unfold findMatchingMaterial.
  destruct (fold_right insertByPrefix [] (matching normalizeUrl entries url))
    as [|[materialId prefix] rest] eqn:E.
  - left. destruct (matching normalizeUrl entries url) as [|x l]; [reflexivity|].
    exfalso. cbn [fold_right] in E.
    assert (H := insertByPrefix_head x (fold_right insertByPrefix [] l)).
    rewrite E in H. discriminate H.
  - destruct (longest_first (matching normalizeUrl entries url) (materialId, prefix))
      as [Hin Hmax]; [rewrite E; reflexivity|].
    apply in_matching in Hin as (m & Hin & Hs & Hp & Hu & Hpre).
    destruct (truthy (VStr materialId)) eqn:Et.
    + exists m, prefix. split; [exact Hin|]. split; [exact Hs|]. split; [exact Hpre|].
      intros k' m' p' Hin' Hs' Hp' Hpre'.
      apply (Hmax (k', p')). apply in_matching. exists m'. auto.
    + right. exists m. cbn in Et. apply negb_false_iff, String.eqb_eq in Et.
      rewrite <- Et. exact Hin.
Qed.

(** *** Renaming a chapter, creating and deleting a material *)

Lemma numbered_retitled (u title : string) (l : list chapter) : forall k,
  numbered k l ->
  numbered k (map (fun c => if String.eqb (c_url c) u then retitle title c else c) l).
Proof.
  induction l as [|c l IH]; intros k H; [exact I|].
  destruct H as [Hc H]. cbn [map numbered]. split; [|apply IH; exact H].
  destruct (String.eqb (c_url c) u); [|exact Hc].
  unfold retitle. cbn [c_props]. destruct (truthy (VStr title)).
  - rewrite lookup_insert_ne by discriminate. exact Hc.
  - rewrite lookup_delete_ne by discriminate. exact Hc.
Qed.

(** X13. [renameChapter] for a URL that is a chapter of the material sets
    the title of every chapter at that URL to the trimmed new title, or
    deletes it when the trimmed title is empty; it keeps every other
    property and every other chapter, and stores the chapters normalized,
    which for chapters numbered 1, 2, ... in list order keeps their order.
    For a URL that is no chapter of the material it answers
    [chapter_not_found]. *)
Theorem renameChapter_retitles (materialId url title : value) (key u : string)
    (m : material) (l : library) :
  arguments materialId url = Some (key, u) ->
  materials (store l) !! key = Some m ->
  let renamed :=
    map (fun c => if String.eqb (c_url c) u then retitle (trimmedString title) c else c)
        (chapters m) in
  if chapterExists m u then
    Worker.renameChapter normalizeUrl stringToNumber numberToString materialId url title l
    = (withMaterial l key (withChapters m (normalizeChapters renamed)), Done) /\
    (numbered 0 (chapters m) -> normalizeChapters renamed = renamed) /\
    Forall2 (fun c c' =>
               c_url c' = c_url c /\
               (forall k, k <> "title"%string -> c_props c' !! k = c_props c !! k) /\
               c_props c' !! "title"%string
               = if String.eqb (c_url c) u
                 then (if String.eqb (trimmedString title) EmptyString then None
                       else Some (VStr (trimmedString title)))
                 else c_props c !! "title"%string)
            (chapters m) renamed
  else
    Worker.renameChapter normalizeUrl stringToNumber numberToString materialId url title l
    = (l, Failed "chapter_not_found").
Proof.
  intros Ha Hm renamed. unfold Worker.renameChapter. rewrite Ha, Hm. cbv zeta.
  fold (chapterExists m u). destruct (chapterExists m u); [|reflexivity].
  split; [reflexivity|]. split.
  - intros Hn. apply normalizeChapters_id. apply numbered_retitled. exact Hn.
  - unfold renamed. induction (chapters m) as [|c cs IH]; [constructor|].
    cbn [map]. constructor; [|exact IH].
    destruct (String.eqb (c_url c) u); [|auto].
    unfold retitle. cbn [c_url c_props truthy].
    destruct (String.eqb (trimmedString title) EmptyString); cbn [negb].
    + split; [reflexivity|]. split; [|apply lookup_delete_eq].
      intros k Hk. apply lookup_delete_ne. congruence.
    + split; [reflexivity|]. split; [|apply lookup_insert_eq].
      intros k Hk. apply lookup_insert_ne. congruence.
Qed.

(** X14. [createMaterial] with a valid index URL and a kind that is missing
    or one of ["multi"] and ["single"] stores, under the new id, a material
    without chapters and quotes, with the normalized index URL, a title that
    is not empty and a kind that is ["multi"] or ["single"]; and when the id
    was not in use, [deleteMaterial] for it gives back the store as it was
    before. Otherwise [createMaterial] answers an error. *)
Theorem material_round_trip (newId : string) (indexUrl title kind : value)
    (l : library) :
  newId <> EmptyString ->
  materials (store l) !! newId = None ->
  bookmarks l !! newId = None ->
  match createMaterial normalizeUrl newId indexUrl title kind l with
  | (l1, Created materialId) =>
      materialId = newId /\
      (exists m u t k,
         materials (store l1) !! newId = Some m /\
         chapters m = [] /\ bookmarks l1 !! newId = Some [] /\
         normalizeUrl indexUrl = Some u /\
         m_props m !! "indexUrl"%string = Some (VStr u) /\
         m_props m !! "title"%string = Some (VStr t) /\ t <> EmptyString /\
         m_props m !! "kind"%string = Some (VStr k) /\
         (k = "multi"%string \/ k = "single"%string)) /\
      deleteMaterial numberToString (VStr newId) l1 = (l, Done)
  | (l1, r) => l1 = l /\ exists e, r = Failed e
  end.
Proof.
  intros Hid Hm Hb. unfold createMaterial.
  destruct (normalizeUrl indexUrl) as [u|] eqn:Eu; [|split; [reflexivity|eauto]].
  cbv zeta.
  destruct (truthy kind && negb _) eqn:Ek; [split; [reflexivity|eauto]|].
  assert (Ht : exists t, (if truthy (VStr (trimmedString title))
                          then VStr (trimmedString title)
                          else VStr "Untitled material") = VStr t /\ t <> EmptyString).
  { destruct (truthy (VStr (trimmedString title))) eqn:Et.
    - exists (trimmedString title). split; [reflexivity|].
      cbn in Et. apply negb_true_iff, String.eqb_neq in Et. exact Et.
    - exists "Untitled material"%string. split; [reflexivity|discriminate]. }
  assert (Hk : exists k, (if truthy kind then kind else VStr "multi") = VStr k /\
                         (k = "multi"%string \/ k = "single"%string)).
  { destruct (truthy kind) eqn:Et; [|exists "multi"%string; auto].
    cbn [andb] in Ek. apply negb_false_iff in Ek.
    destruct kind as [| | | |s]; try discriminate Ek. exists s. split; [reflexivity|].
    cbn in Ek. destruct (String.eqb_spec s "multi"); [auto|].
    destruct (String.eqb_spec s "single"); [auto|discriminate Ek]. }
  destruct Ht as (t & Het & Ht). destruct Hk as (k & Hek & Hk). rewrite Het, Hek.
  split; [reflexivity|]. split.
  - eexists _, u, t, k. cbn [store withMaterial materials bookmarks].
    rewrite !lookup_insert_eq. split; [reflexivity|]. cbn [chapters m_props].
    split; [reflexivity|]. split; [reflexivity|]. split; [reflexivity|].
    rewrite (lookup_insert_ne _ "kind"%string "indexUrl"%string) by discriminate.
    rewrite lookup_insert_eq. split; [reflexivity|].
    rewrite (lookup_insert_ne _ "kind"%string "title"%string) by discriminate.
    rewrite (lookup_insert_ne _ "indexUrl"%string "title"%string) by discriminate.
    rewrite !lookup_insert_eq. auto.
  - unfold deleteMaterial. cbn [truthy propertyKey].
    apply String.eqb_neq in Hid. rewrite Hid. cbn [negb].
    cbn [store withMaterial materials bookmarks pages collections].
    rewrite lookup_insert_eq. rewrite !delete_insert_id by assumption.
    destruct l as [[ms ps cs] bs]. reflexivity.
Qed.

End Chapters.

(** *** Examples *)

(** A book of two chapters with one quote on each, and a third page read
    to 40 percent. *)
Definition chapterAt (u : string) (order progress : Z) : chapter :=
  {| c_url := u;
     c_props := <["progress"%string := ofZ progress]> (<["order"%string := ofZ order]> ∅) |}.

Definition demoBook : material :=
  {| chapters := [chapterAt "https://example.org/a" 1 100;
                  chapterAt "https://example.org/b" 2 30];
     m_props := <["indexUrl"%string := VStr "https://example.org/"]> ∅ |}.

Definition quoteOn (u text : string) : gmap string value :=
  <["url"%string := VStr u]> (<["text"%string := VStr text]> ∅).

Definition demoLibrary : library :=
  {| store := {| materials := <["m1"%string := demoBook]> ∅;
                 pages := <["https://example.org/c"%string :=
                              <["progress"%string := ofZ 40]> ∅]> ∅;
                 collections := ∅ |};
     bookmarks := <["m1"%string := [quoteOn "https://example.org/a" "first";
                                    quoteOn "https://example.org/b" "second";
                                    quoteOn "https://example.org/a#x" "third"]]> ∅ |}.

(** The platform functions of the examples: URLs are taken as normalized
    up to their fragment, which the examples cut off where they have one. *)
Definition demoUrl (v : value) : option string :=
  match v with
  | VStr s => Some (if String.eqb s "https://example.org/a#x"
                    then "https://example.org/a"%string else s)
  | _ => None
  end.

Definition demoNumber (s : string) : number := NaN.

Definition demoKey (n : number) : string := "0"%string.

Lemma addChapter_appends_last_witness :
  exists c,
    fst (Worker.addChapter demoUrl demoNumber demoKey
           (VStr "m1") (VStr "https://example.org/c") demoLibrary)
    = withMaterial demoLibrary "m1" (withChapters demoBook (chapters demoBook ++ [c])) /\
    c_url c = "https://example.org/c"%string /\
    c_props c !! "order"%string = Some (ofZ 3).
Proof.
  destruct (addChapter_appends_last demoNumber demoUrl demoKey
              (VStr "m1") (VStr "https://example.org/c") "m1" "https://example.org/c"
              demoBook demoLibrary eq_refl eq_refl
              (conj eq_refl (conj eq_refl I)) eq_refl)
    as (c & Hadd & Hu & Ho & _).
  exists c. rewrite Hadd. split; [reflexivity|]. split; [exact Hu|exact Ho].
Defined.

Lemma deleteChapter_removes_witness :
  let request := Worker.deleteChapter demoUrl demoNumber demoKey
                   (VStr "m1") (VStr "https://example.org/a") demoLibrary in
  snd request = Removed 2 /\
  bookmarks (fst request) !! "m1"%string
  = Some [quoteOn "https://example.org/b" "second"] /\
  exists m', materials (store (fst request)) !! "m1"%string = Some m' /\
             numbered 0 (chapters m') /\
             Permutation (map c_url (chapters m')) ["https://example.org/b"%string].
Proof.
  intros request.
  assert (H := deleteChapter_removes demoNumber demoUrl demoKey
                 (VStr "m1") (VStr "https://example.org/a") "m1" "https://example.org/a"
                 demoBook demoLibrary eq_refl eq_refl).
  cbv zeta in H.
  destruct (chapterExists demoBook "https://example.org/a") eqn:E in H;
    [|vm_compute in E; discriminate E].
  destruct H as (m' & quotes' & Hm & Hq & Hr & _ & Hp & Hn & _ & _ & _ & _ & Hq' & _).
  fold request in Hm, Hq, Hr. rewrite Hq' in Hq, Hr.
  split; [rewrite Hr; reflexivity|]. split; [rewrite Hq; reflexivity|].
  exists m'. split; [exact Hm|]. split; [exact Hn|exact Hp].
Defined.

Lemma chapters_stay_numbered_witness :
  wellNumbered emptyLibrary /\
  wellNumbered
    (run demoUrl demoNumber demoKey
       [(1700000000%Z, CreateMaterial "m1" (VStr "https://example.org/") (VStr "Book") VNull);
        (1700000001%Z, AddChapter (VStr "m1") (VStr "https://example.org/a"));
        (1700000002%Z, AddChapter (VStr "m1") (VStr "https://example.org/b"));
        (1700000003%Z, MoveChapter (VStr "m1") (VStr "https://example.org/b") (VStr "up"));
        (1700000004%Z, DeleteChapter (VStr "m1") (VStr "https://example.org/a"))]
       emptyLibrary).
Proof.
  assert (H : wellNumbered emptyLibrary).
  { intros key m Hm. cbn in Hm. rewrite lookup_empty in Hm. discriminate Hm. }
  split; [exact H|].
  exact (chapters_stay_numbered demoNumber demoUrl demoKey _ emptyLibrary H).
Defined.

Lemma renameChapter_retitles_witness :
  let request :=
    Worker.renameChapter demoUrl demoNumber demoKey
      (VStr "m1") (VStr "https://example.org/b") (VStr "  Second part ") demoLibrary in
  snd request = Done /\
  (fun m => map (fun c => c_props c !! "title"%string) (chapters m))
    <$> materials (store (fst request)) !! "m1"%string
  = Some [None; Some (VStr "Second part")].
Proof.
  intros request.
  assert (H := renameChapter_retitles demoNumber demoUrl demoKey
                 (VStr "m1") (VStr "https://example.org/b") (VStr "  Second part ")
                 "m1" "https://example.org/b" demoBook demoLibrary eq_refl eq_refl).
  cbv zeta in H.
  destruct (chapterExists demoBook "https://example.org/b") eqn:E in H;
    [|vm_compute in E; discriminate E].
  destruct H as (Heq & Hnorm & _). fold request in Heq. rewrite Heq.
  rewrite (Hnorm (conj eq_refl (conj eq_refl I))). split; reflexivity.
Defined.

Lemma material_round_trip_witness :
  "m2"%string <> EmptyString /\
  materials (store demoLibrary) !! "m2"%string = None /\
  bookmarks demoLibrary !! "m2"%string = None /\
  deleteMaterial demoKey (VStr "m2")
    (fst (createMaterial demoUrl "m2" (VStr "https://example.org/two") (VStr " Two ")
            VUndefined demoLibrary))
  = (demoLibrary, Done).
Proof.
  assert (Hid : "m2"%string <> EmptyString) by discriminate.
  split; [exact Hid|]. split; [reflexivity|]. split; [reflexivity|].
  assert (H := material_round_trip demoUrl demoKey "m2" (VStr "https://example.org/two")
                 (VStr " Two ") VUndefined demoLibrary Hid eq_refl eq_refl).
  assert (E : snd (createMaterial demoUrl "m2" (VStr "https://example.org/two")
                     (VStr " Two ") VUndefined demoLibrary) = Created "m2")
    by reflexivity.
  destruct (createMaterial demoUrl "m2" (VStr "https://example.org/two") (VStr " Two ")
              VUndefined demoLibrary) as [l1 r].
  cbn [fst snd] in *. subst r. exact (proj2 (proj2 H)).
Defined.

(** Moving the second chapter of the book up leaves it second. *)
Example moveChapter_up_stays :
  (fun m => map c_url (chapters m))
    <$> materials (store (fst (Worker.moveChapter demoUrl demoNumber demoKey
                                 (VStr "m1") (VStr "https://example.org/b") (VStr "up")
                                 demoLibrary))) !! "m1"%string
  = Some ["https://example.org/a"; "https://example.org/b"]%string.
Proof. reflexivity. Qed.

End WorkerSpec.



(** ** The progress that is reported *)

Module TrackerSpec.
Import Js Double DoubleSpec Background BackgroundSpec Progress ProgressSpec Worker WorkerSpec
  Tracker.

(** X15. [clampProgress] is a clamp to the percents: its value is an
    integer from 0 to 100 whatever it is given, 0 for all that is not a
    number, for NaN and for -Infinity, the integer itself for an integer
    from 0 to 100, and it is monotone on the finite numbers. *)
Theorem clampProgress_clamps :
  (forall v, (0 <= clampProgress v <= 100)%Z) /\
  (forall v, (forall q, v <> VNum (Fin q)) -> v <> VNum PosInf -> clampProgress v = 0%Z) /\
  (forall z, (0 <= z <= 100)%Z -> clampProgress (ofZ z) = z) /\
  (forall q1 q2, (q1 <= q2)%Q ->
     (clampProgress (VNum (Fin q1)) <= clampProgress (VNum (Fin q2)))%Z).
Proof.
  split; [exact clampProgress_range|]. split; [|split].
  - intros v Hq Hinf. destruct v as [| | |[q| | |]|]; try reflexivity.
    + exfalso. exact (Hq q eq_refl).
    + congruence.
  - exact clampProgress_ofZ.
  - intros q1 q2 H. unfold clampProgress. assert (Hr := round_mono q1 q2 H). lia.
Qed.

Local Open Scope Q_scope.

(** X16. The percent computed from the scroll position is 0 at the top of
    the page (and on a page that does not scroll), 100 once the position
    has reached the scroll range, and never decreases when the position
    grows on a page of the same scroll range. *)
Theorem progress_follows_scroll (l1 l2 : layout) :
  (scrollTop l1 <= 0 -> computeScrollProgressPercent l1 = 0%Z) /\
  (leq (denominator l1) (Fin (scrollTop l1)) -> computeScrollProgressPercent l1 = 100%Z) /\
  (same (denominator l1) (denominator l2) -> scrollTop l1 <= scrollTop l2 ->
   (computeScrollProgressPercent l1 <= computeScrollProgressPercent l2)%Z).
Proof.
  unfold computeScrollProgressPercent. cbv zeta. split; [|split].
  - intros Htop.
    assert (H : leq (mul (div (Fin (scrollTop l1)) (denominator l1)) (Fin 100)) (Fin 0)).
    { replace (Fin 0) with (mul (Fin 0) (Fin 100)) by reflexivity.
      apply times100_leq.
      destruct (denominator_cases l1) as [(d & -> & Hd)| ->].
      - rewrite (div_finite _ d Hd). apply double_sign.
        apply Qle_shift_div_r; lra.
      - cbn. lra. }
    apply clampProgress_leq in H. change (clampProgress (VNum (Fin 0))) with 0%Z in H.
    assert (H0 : (0 <= clampProgress (VNum (mul (div (Fin (scrollTop l1)) (denominator l1)) (Fin 100))))%Z).
    { destruct (mul _ _) as [x| | |]; cbn [clampProgress]; lia. }
    lia.
  - intros Htop. destruct (denominator_cases l1) as [(d & Hden & Hd)|Hden];
      rewrite Hden in *; cbn [leq] in Htop; [|tauto].
    rewrite (div_finite _ d Hd).
    assert (H1 : leq (Fin (inject_Z 1)) (double (scrollTop l1 / d))).
    { apply double_above; [lia|]. change (inject_Z 1) with 1.
      apply Qle_shift_div_l; lra. }
    assert (H : leq (Fin (inject_Z 100)) (mul (double (scrollTop l1 / d)) (Fin 100))).
    { destruct (double (scrollTop l1 / d)) as [y| | |]; cbn [leq] in H1; try tauto.
      cbn [mul]. apply double_above; [lia|]. change (inject_Z 1) with 1 in H1.
      change (inject_Z 100) with 100. lra. }
    apply clampProgress_leq in H.
    change (clampProgress (VNum (Fin (inject_Z 100)))) with 100%Z in H.
    assert (H0 : (clampProgress (VNum (mul (double (scrollTop l1 / d)) (Fin 100))) <= 100)%Z).
    { destruct (mul _ _) as [x| | |]; cbn [clampProgress]; lia. }
    lia.
  - intros Hsame Htop. apply clampProgress_leq, times100_leq.
    destruct (denominator_cases l1) as [(d1 & H1 & Hd1)|H1];
      destruct (denominator_cases l2) as [(d2 & H2 & Hd2)|H2];
      rewrite H1, H2 in *; cbn [same] in Hsame; try tauto.
    + rewrite (div_finite _ d1 Hd1), (div_finite _ d2 Hd2).
      apply double_mono, quotient_le; assumption.
    + cbn. lra.
Qed.

Local Close Scope Q_scope.

(** *** The throttle *)

(** Each percent of the list is from 0 to 100 and differs by 2 or more from
    the one before it, the first one from [last]. *)
Fixpoint spaced (last : Z) (ps : list Z) : Prop :=
  match ps with
  | [] => True
  | p :: ps' => (0 <= p <= 100)%Z /\ (2 <= Z.abs (p - last))%Z /\ spaced p ps'
  end.

Lemma timerFires_sent (url : option string) (l : layout) (title : string) (t : tracker) :
  match snd (timerFires url l title t) with
  | Some msg =>
      msg_progress msg = ofZ (computeScrollProgressPercent l) /\
      (2 <= Z.abs (computeScrollProgressPercent l - lastSentProgress t))%Z /\
      lastSentProgress (fst (timerFires url l title t)) = computeScrollProgressPercent l
  | None =>
      lastSentProgress (fst (timerFires url l title t)) = lastSentProgress t
  end.
Proof.
  unfold timerFires. destruct url as [u|]; [|reflexivity]. cbv zeta.
  destruct (Z.ltb_spec (Z.abs (computeScrollProgressPercent l - lastSentProgress t)) 2);
    cbn [fst snd lastSentProgress msg_progress]; [reflexivity|].
  split; [reflexivity|]. split; [lia|reflexivity].
Qed.

Lemma step_sent (t : tracker) (e : event) :
  match snd (step t e) with
  | Some msg =>
      exists p, msg_progress msg = ofZ p /\ (0 <= p <= 100)%Z /\
                (2 <= Z.abs (p - lastSentProgress t))%Z /\
                lastSentProgress (fst (step t e)) = p
  | None => lastSentProgress (fst (step t e)) = lastSentProgress t
  end.
Proof.
  destruct e as [|url l title]; cbn [step].
  - unfold scheduleSendProgress. destruct (sendTimer t); reflexivity.
  - destruct (sendTimer t); [|reflexivity].
    assert (H := timerFires_sent url l title t).
    destruct (snd (timerFires url l title t)) as [msg|]; [|exact H].
    destruct H as (Hm & Hd & Hl). exists (computeScrollProgressPercent l).
    split; [exact Hm|]. split; [|split; assumption].
    apply clampProgress_range.
Qed.

Lemma last_cons {A : Type} (l : list A) : forall x d, List.last (x :: l) d = List.last l x.
Proof.
  induction l as [|y l IH]; intros x d; [reflexivity|].
  change (List.last (y :: l) d = List.last (y :: l) x). rewrite !IH. reflexivity.
Qed.

(** X17. The progress reports of the content script are throttled by value:
    whatever the sequence of scroll events and timers, every percent that is
    sent differs by 2 or more from the one sent before it, and the first
    one from the initial -1, so that a report of 0 is never the first one;
    the tracker remembers the last percent sent. *)
Theorem reports_are_spaced (es : list event) (t : tracker) :
  exists ps,
    map msg_progress (snd (run es t)) = map ofZ ps /\
    spaced (lastSentProgress t) ps /\
    lastSentProgress (fst (run es t)) = List.last ps (lastSentProgress t) /\
    (lastSentProgress t = (-1)%Z -> forall p ps', ps = p :: ps' -> (1 <= p)%Z).
Proof.
  assert (Hfirst : forall last ps, spaced last ps -> last = (-1)%Z ->
                     forall p ps', ps = p :: ps' -> (1 <= p)%Z).
  { intros last ps Hs -> p ps' ->. destruct Hs as (Hp & Hd & _). lia. }
  revert t. induction es as [|e es IH]; intros t.
  - exists []. cbn. split; [reflexivity|]. split; [exact I|]. split; [reflexivity|].
    intros _ p ps' H. discriminate H.
  - cbn [run]. assert (Hstep := step_sent t e).
    destruct (step t e) as [t' sent] eqn:Es. cbn [fst snd] in Hstep.
    destruct (IH t') as (ps & Hmap & Hsp & Hlast & _).
    destruct (run es t') as [t'' rest] eqn:Er. cbn [fst snd] in *.
    destruct sent as [msg|].
    + destruct Hstep as (p & Hm & Hp & Hd & Hl). rewrite Hl in Hsp, Hlast.
      exists (p :: ps). cbn [map]. rewrite Hm, Hmap.
      assert (Hsp' : spaced (lastSentProgress t) (p :: ps)) by (cbn; auto).
      split; [reflexivity|]. split; [exact Hsp'|]. split; [|exact (Hfirst _ _ Hsp')].
      rewrite Hlast. symmetry. apply last_cons.
    + rewrite Hstep in Hsp, Hlast. exists ps.
      split; [exact Hmap|]. split; [exact Hsp|]. split; [exact Hlast|exact (Hfirst _ _ Hsp)].
Qed.

(** X18. When the timer fires on a page with a URL, the timer is cleared
    and, afterwards, the percent the tracker remembers is within 1 of the
    percent of the page. A message is sent exactly when the percent differs
    by 2 or more from the one remembered; it carries the percent of the
    page, and the worker stores that very percent for the page unless the
    page ignores the scroll position. *)
Theorem timer_reports_progress (normalizeUrl : value -> option string) (now : Z)
    (u : string) (l : layout) (title : string) (t : tracker) (d : data) :
  normalizeUrl (VStr u) = Some u ->
  let p := computeScrollProgressPercent l in
  let t' := fst (timerFires (Some u) l title t) in
  sendTimer t' = false /\
  (Z.abs (p - lastSentProgress t') <= 1)%Z /\
  match snd (timerFires (Some u) l title t) with
  | Some msg =>
      (2 <= Z.abs (p - lastSentProgress t))%Z /\
      lastSentProgress t' = p /\
      (ignoresScroll (default ∅ (pages d !! u)) = false ->
       property "progress" (fst (pageProgress normalizeUrl now msg d)) u = Some (ofZ p))
  | None =>
      (Z.abs (p - lastSentProgress t) < 2)%Z /\
      lastSentProgress t' = lastSentProgress t
  end.
Proof.
  intros Hu p t'. subst t'. unfold timerFires. cbv zeta. fold p.
  destruct (Z.ltb_spec (Z.abs (p - lastSentProgress t)) 2) as [Hlt|Hge];
    cbn [fst snd sendTimer lastSentProgress].
  - split; [reflexivity|]. split; [lia|]. split; [exact Hlt|reflexivity].
  - split; [reflexivity|]. split; [lia|]. split; [exact Hge|]. split; [reflexivity|].
    intros Hi. unfold property.
    rewrite (pageProgress_pages normalizeUrl now _ d u) by exact Hu.
    rewrite lookup_insert_eq. cbn [mbind option_bind].
    rewrite nextRecord_progress, Hi. cbn [msg_progress].
    rewrite (clampProgress_ofZ p (clampProgress_range _)).
    reflexivity.
Qed.

(** *** Examples *)

(** Half way down a page 2400 pixels high in a window of 800 pixels. *)
Definition halfWay : layout :=
  {| scrollY := 800; docScrollTop := 800;
     scrollHeight := 2400; innerHeight := 800; clientHeight := 785 |}.

Lemma timer_reports_progress_witness :
  demoNormalize (VStr "https://example.org/c") = Some "https://example.org/c"%string /\
  exists msg,
    snd (timerFires (Some "https://example.org/c"%string) halfWay "C" start) = Some msg /\
    property "progress" (fst (pageProgress demoNormalize 1700000000 msg demoData))
      "https://example.org/c" = Some (ofZ 50).
Proof.
  split; [reflexivity|].
  assert (H := timer_reports_progress demoNormalize 1700000000 "https://example.org/c"
                 halfWay "C" start demoData eq_refl).
  cbv zeta in H. destruct H as (_ & _ & H).
  destruct (snd (timerFires (Some "https://example.org/c"%string) halfWay "C" start))
    as [msg|] eqn:E; [|vm_compute in E; discriminate E].
  exists msg. split; [reflexivity|]. destruct H as (_ & _ & H). exact (H eq_refl).
Defined.

(** A page opened at its top and left there reports nothing; scrolled half
    way down, then by less than 2 percent, it reports 50 once. *)
Example quiet_at_the_top :
  map msg_progress
    (snd (run [Scheduled; TimerFired (Some "u"%string) tallPage "T";
               Scheduled; Scheduled; TimerFired (Some "u"%string) halfWay "T";
               Scheduled;
               TimerFired (Some "u"%string)
                 {| scrollY := 816; docScrollTop := 816;
                    scrollHeight := 2400; innerHeight := 800; clientHeight := 785 |} "T"]
            start))
  = [ofZ 50].
Proof. reflexivity. Qed.

End TrackerSpec.



(** ** From the selection to the highlight *)

Module CaptureSpec.
Import Text TextSpec Locator LocatorSpec Tracker.

(** *** The Locator finds what is there *)

Lemma scored_first (needleLower lower : text) (k : nat) :
  needleLower <> [] -> occursAt needleLower lower k ->
  scored needleLower 250 lower 0 <> [].
Proof.
  intros Hne Hocc. change 250 with (S 249). cbn [scored].
  destruct (indexOf lower needleLower 0) as [idx|] eqn:E; [discriminate|].
  exfalso. exact (indexOf_none _ _ _ Hne E k ltac:(lia) Hocc).
Qed.

Lemma candidates_found (e : entry) (nodes : list textNode) (n k : nat) (nd : textNode) :
  searched e ->
  nth_error nodes n = Some nd ->
  (N.of_nat n < 25000)%N ->
  skippable nd = false ->
  occursAt (toLowerCase (trim (text_ e))) (toLowerCase (nodeValue nd)) k ->
  candidates e nodes <> [].
Proof.
  intros Hs Hn Hcap Hskip Hocc.
  assert (Hlen : length (toLowerCase (trim (text_ e))) = length (trim (text_ e)))
    by apply toLowerCase_length.
  assert (Hne : toLowerCase (trim (text_ e)) <> []).
  { intros H. rewrite H in Hlen. unfold searched in Hs. cbn in Hlen. lia. }
  assert (Hb := occursAt_bound _ _ _ Hne Hocc). rewrite !toLowerCase_length in Hb.
  destruct (nth_error_split _ _ Hn) as (front & back & -> & Hfront).
  unfold candidates. rewrite candidatesFrom_app. cbn [Nat.add]. rewrite Hfront.
  cbn [candidatesFrom].
  destruct (N.ltb_spec 25000 (N.of_nat (S n))) as [Hgt|_]; [lia|].
  unfold nodeCandidates. rewrite Hskip. cbn [orb].
  destruct (Nat.ltb_spec (length (nodeValue nd)) 3) as [Hshort|_];
    [unfold searched in Hs; lia|].
  intros H. apply app_eq_nil in H as [_ H]. apply app_eq_nil in H as [H _].
  apply map_eq_nil in H. exact (scored_first _ _ k Hne Hocc H).
Qed.

Lemma findBest_found (e : entry) (nodes : list textNode) (n k : nat) (nd : textNode) :
  searched e ->
  nth_error nodes n = Some nd ->
  (N.of_nat n < 25000)%N ->
  skippable nd = false ->
  occursAt (toLowerCase (trim (text_ e))) (toLowerCase (nodeValue nd)) k ->
  exists m, findBestMatchInDocument e nodes = Some m.
Proof.
  intros Hs Hn Hcap Hskip Hocc.
  rewrite (findBest_pick e nodes Hs).
  assert (Hwf := candidatesFrom_wellScored (trim (text_ e)) (toLowerCase (trim (text_ e)))
                   (toLowerCase (contextBefore e)) (toLowerCase (contextAfter e)) 0 nodes).
  fold (candidates e nodes) in Hwf.
  assert (Hne := candidates_found e nodes n k nd Hs Hn Hcap Hskip Hocc).
  destruct (pick_first_max _ _ (candidates e nodes) None (-1) Hwf)
    as [[_ Hall]|(l1 & c & l2 & _ & Hres & _)].
  - exfalso. destruct (candidates e nodes) as [|c l]; [congruence|].
    apply Forall_inv in Hall. apply Forall_inv in Hwf.
    destruct Hwf as [[Hc _] _]. lia.
  - exists (c_found c). exact Hres.
Qed.

Lemma findBest_only (e : entry) (nodes : list textNode) (n k : nat) (nd : textNode) :
  searched e ->
  nth_error nodes n = Some nd ->
  (N.of_nat n < 25000)%N ->
  skippable nd = false ->
  occursAt (toLowerCase (trim (text_ e))) (toLowerCase (nodeValue nd)) k ->
  (forall n' nd' k',
      nth_error nodes n' = Some nd' -> skippable nd' = false ->
      occursAt (toLowerCase (trim (text_ e))) (toLowerCase (nodeValue nd')) k' ->
      n' = n /\ k' = k) ->
  findBestMatchInDocument e nodes
  = Some {| m_node := n; m_start := k; m_end := k + length (trim (text_ e)) |}.
Proof.
  intros Hs Hn Hcap Hskip Hocc Honly.
  destruct (findBest_found e nodes n k nd Hs Hn Hcap Hskip Hocc) as [m Hm]. rewrite Hm.
  destruct (findBest_sound e nodes m Hm) as (nd' & Hn' & Hskip' & Hocc' & Hend).
  destruct (Honly _ _ _ Hn' Hskip' Hocc') as [Hnode Hstart].
  destruct m as [mn ms me]. cbn in *. subst. reflexivity.
Qed.

(** X19. The Locator finds what is there: when the trimmed text of a quote
    of three or more code units occurs, up to case, in a text node that is
    not skipped, among the first 25,000 text nodes, a match is returned;
    and when that occurrence is the only one in the text nodes that are not
    skipped, it is the match, whatever the contexts of the quote are. *)
Theorem occurring_quote_is_found (e : entry) (nodes : list textNode) (n k : nat)
    (nd : textNode) :
  searched e ->
  nth_error nodes n = Some nd ->
  (N.of_nat n < 25000)%N ->
  skippable nd = false ->
  occursAt (toLowerCase (trim (text_ e))) (toLowerCase (nodeValue nd)) k ->
  (exists m, findBestMatchInDocument e nodes = Some m) /\
  ((forall n' nd' k',
      nth_error nodes n' = Some nd' -> skippable nd' = false ->
      occursAt (toLowerCase (trim (text_ e))) (toLowerCase (nodeValue nd')) k' ->
      n' = n /\ k' = k) ->
   findBestMatchInDocument e nodes
   = Some {| m_node := n; m_start := k; m_end := k + length (trim (text_ e)) |}).
Proof.
  intros Hs Hn Hcap Hskip Hocc. split.
  - exact (findBest_found e nodes n k nd Hs Hn Hcap Hskip Hocc).
  - exact (findBest_only e nodes n k nd Hs Hn Hcap Hskip Hocc).
Qed.

(** *** The selection *)

(** X20. The payload captured from a selection has a trimmed text; its
    context before is made of the code units of the start container just
    before the start of the selection, 120 of them or all there are, and
    its context after of the code units of the end container just after
    the end of the selection, 120 of them or all there are; a boundary
    point that is not in a text node gives an empty context. When there is
    no selection, or only white space is selected, the text is empty, and
    so are the contexts. *)
Theorem captured_contexts (sel : option selection) :
  let p := getSelectedPayload sel in
  trim (text_ p) = text_ p /\
  length (contextBefore p) <= 120 /\
  length (contextAfter p) <= 120 /\
  (text_ p = [] -> contextBefore p = [] /\ contextAfter p = []) /\
  (sel = None -> text_ p = []) /\
  (forall s, sel = Some s ->
     text_ p = trim (selectedText s) /\
     (startContainer (firstRange s) = None -> contextBefore p = []) /\
     (endContainer (firstRange s) = None -> contextAfter p = [])) /\
  (text_ p <> [] ->
   forall s, sel = Some s ->
     text_ p = trim (selectedText s) /\
     (forall v, startContainer (firstRange s) = Some v ->
        contextBefore p
        = skipn (startOffset (firstRange s) - 120) (firstn (startOffset (firstRange s)) v)) /\
     (forall v, endContainer (firstRange s) = Some v ->
        contextAfter p = firstn 120 (skipn (endOffset (firstRange s)) v))).
Proof.
  cbv zeta. unfold getSelectedPayload. destruct sel as [s|].
  2: { cbn. split; [reflexivity|]. split; [lia|]. split; [lia|].
       split; [intros _; split; reflexivity|]. split; [reflexivity|].
       split; [intros s H; discriminate H|]. intros H. congruence. }
  destruct (isEmpty (trim (selectedText s))) eqn:E.
  { apply isEmpty_true in E. cbn. split; [reflexivity|]. split; [lia|]. split; [lia|].
    split; [intros _; split; reflexivity|]. split; [intros H; discriminate H|].
    split; [|intros H; congruence].
    intros s' [= <-]. rewrite E. repeat split; reflexivity. }
  cbn [text_ contextBefore contextAfter].
  split; [apply trim_trim|]. split; [|split; [|split; [|split; [|split]]]].
  - destruct (startContainer (firstRange s)) as [v|]; [|cbn; lia].
    unfold slice. rewrite length_firstn. lia.
  - destruct (endContainer (firstRange s)) as [v|]; [|cbn; lia].
    unfold slice. rewrite length_firstn. lia.
  - intros H. rewrite H in E. discriminate E.
  - intros H. discriminate H.
  - intros s' [= <-]. split; [reflexivity|]. split; intros ->; reflexivity.
  - intros _ s' [= <-]. split; [reflexivity|]. split.
    + intros v ->. unfold slice. symmetry. apply skipn_firstn_comm.
    + intros v ->. unfold slice.
      set (b := endOffset (firstRange s)).
      destruct (Nat.le_ge_cases (b + 120) (length v)) as [H|H].
      * rewrite Nat.min_r by lia. f_equal. lia.
      * rewrite Nat.min_l by lia.
        rewrite !firstn_all2; [reflexivity| |]; rewrite length_skipn; lia.
Qed.

(** The white space at the start of the selection. *)
Definition leading (v : text) (s e : nat) : nat :=
  length (slice v s e) - length (trimStart (slice v s e)).

Lemma occursAt_lower (needle v : text) (k : nat) :
  occursAt needle v k -> occursAt (toLowerCase needle) (toLowerCase v) k.
Proof.
  unfold occursAt, toLowerCase. intros H.
  rewrite length_map, skipn_map, firstn_map, H. reflexivity.
Qed.

Lemma trimmed_selection_occurs (v : text) (s e : nat) :
  s <= e <= length v ->
  occursAt (trim (slice v s e)) v (s + leading v s e).
Proof.
  intros Hse. unfold occursAt, leading.
  destruct (trim_split (slice v s e)) as (w1 & w2 & Hsplit & Hlen & _).
  rewrite <- Hlen. set (T := trim (slice v s e)) in *. clearbody T.
  assert (Hv : skipn s v = slice v s e ++ skipn e v).
  { unfold slice. rewrite <- (firstn_skipn (e - s) (skipn s v)) at 1.
    rewrite skipn_skipn. replace (e - s + s) with e by lia. reflexivity. }
  rewrite Nat.add_comm, <- skipn_skipn, Hv, Hsplit.
  rewrite <- app_assoc, skipn_app, skipn_all, Nat.sub_diag. cbn [app].
  rewrite skipn_O, <- app_assoc, firstn_app, firstn_all, Nat.sub_diag, firstn_O.
  apply app_nil_r.
Qed.

(** X21. On a page of Latin-1 text, a quote captured from a selection is
    located where it was selected, when the string of the selection is the
    text of one text node between two offsets (a selection inside a text
    node whose white space is shown as it is): if the text node is not
    skipped and is among the first 25,000, the trimmed selection has three
    code units or more and occurs, up to case, nowhere else in the text
    nodes that are not skipped, the Locator returns for the captured
    payload the selected range without the white space at its two ends. *)
Theorem captured_quote_is_located (nodes : list textNode) (n : nat) (nd : textNode)
    (sel : selection) (s e : nat) :
  nth_error nodes n = Some nd ->
  (N.of_nat n < 25000)%N ->
  skippable nd = false ->
  s <= e <= length (nodeValue nd) ->
  selectedText sel = slice (nodeValue nd) s e ->
  let payload := getSelectedPayload (Some sel) in
  let start := s + leading (nodeValue nd) s e in
  3 <= length (trim (selectedText sel)) ->
  (forall n' nd' k',
      nth_error nodes n' = Some nd' -> skippable nd' = false ->
      occursAt (toLowerCase (trim (selectedText sel)))
        (toLowerCase (nodeValue nd')) k' ->
      n' = n /\ k' = start) ->
  findBestMatchInDocument payload nodes
  = Some {| m_node := n; m_start := start; m_end := start + length (text_ payload) |} /\
  slice (nodeValue nd) start (start + length (text_ payload)) = text_ payload /\
  text_ payload = trim (selectedText sel).
Proof.
  intros Hn Hcap Hskip Hse Hsel payload start Hlong Honly.
  assert (Htext : text_ payload = trim (selectedText sel)).
  { unfold payload, getSelectedPayload.
    destruct (trim (selectedText sel)) as [|c r] eqn:E; [cbn in Hlong; lia|].
    reflexivity. }
  rewrite Hsel in *.
  assert (Hocc := trimmed_selection_occurs (nodeValue nd) s e Hse). fold start in Hocc.
  split; [|split; [|exact Htext]].
  - rewrite <- (trim_trim (slice (nodeValue nd) s e)), <- Htext in Honly.
    assert (Hs : searched payload).
    { unfold searched. rewrite Htext, trim_trim. exact Hlong. }
    rewrite (findBest_only payload nodes n start nd Hs Hn Hcap Hskip).
    + rewrite Htext, trim_trim. reflexivity.
    + rewrite Htext, trim_trim. apply occursAt_lower. exact Hocc.
    + exact Honly.
  - rewrite Htext. unfold slice at 1.
    replace (start + length (trim (slice (nodeValue nd) s e)) - start)
      with (length (trim (slice (nodeValue nd) s e))) by lia.
    exact Hocc.
Qed.

(** *** Examples *)

Definition sayPage : list textNode :=
  [{| skippable := false; nodeValue := lit "say hello world today" |}].

Lemma sayPage_only (n' : nat) (nd' : textNode) (k' : nat) :
  nth_error sayPage n' = Some nd' -> skippable nd' = false ->
  occursAt (toLowerCase (lit "hello world")) (toLowerCase (nodeValue nd')) k' ->
  n' = 0 /\ k' = 4.
Proof.
  intros Hn _ Hocc. destruct n' as [|[|n']]; try discriminate Hn.
  injection Hn as <-. split; [reflexivity|].
  apply positions_spec in Hocc; [|discriminate].
  vm_compute in Hocc. destruct Hocc as [<-|[]]. reflexivity.
Qed.

Lemma occurring_quote_is_found_witness :
  searched helloEntry /\
  findBestMatchInDocument helloEntry sayPage
  = Some {| m_node := 0; m_start := 4; m_end := 15 |}.
Proof.
  assert (Hs : searched helloEntry) by (vm_compute; lia).
  split; [exact Hs|].
  exact (proj2 (occurring_quote_is_found helloEntry sayPage 0 4
                  {| skippable := false; nodeValue := lit "say hello world today" |}
                  Hs eq_refl eq_refl eq_refl eq_refl) sayPage_only).
Defined.

(** The words "hello world" with the space before and after them, selected
    in a text node. *)
Definition helloSelection : selection :=
  {| selectedText := lit " hello world ";
     firstRange := {| startContainer := Some (lit "say hello world today");
                      startOffset := 3;
                      endContainer := Some (lit "say hello world today");
                      endOffset := 16 |} |}.

Lemma captured_quote_is_located_witness :
  let payload := getSelectedPayload (Some helloSelection) in
  text_ payload = lit "hello world" /\
  contextBefore payload = lit "say" /\
  contextAfter payload = lit "today" /\
  findBestMatchInDocument payload sayPage
  = Some {| m_node := 0; m_start := 4; m_end := 15 |}.
Proof.
  intros payload. split; [reflexivity|]. split; [reflexivity|]. split; [reflexivity|].
  exact (proj1 (captured_quote_is_located sayPage 0
                  {| skippable := false; nodeValue := lit "say hello world today" |}
                  helloSelection 3 16 eq_refl eq_refl eq_refl ltac:(cbn; lia) eq_refl
                  ltac:(vm_compute; lia) sayPage_only)).
Defined.

End CaptureSpec.



(** ** The text of the page *)

Module PageSpec.
Import Text TextSpec Locator LocatorSpec Dom DomSpec Highlighter HighlighterSpec CaptureSpec.

(** [document.body.textContent]. *)
Definition pageText (d : document) : text := flat_map textContent d.

Lemma pageText_app (l1 l2 : list node) : pageText (l1 ++ l2) = pageText l1 ++ pageText l2.
Proof. apply flat_map_app. Qed.

Lemma pageText_piece (b : text) :
  pageText (if isEmpty b then [] else [TextNode b]) = b.
Proof. destruct b; cbn; rewrite ?app_nil_r; reflexivity. Qed.

Lemma wrapTextMatch_text (s e : nat) (qid v : text) :
  s <= e -> pageText (wrapTextMatch s e qid v) = v.
Proof.
  intros H. unfold wrapTextMatch. cbv zeta.
  rewrite pageText_app, pageText_piece.
  change (pageText (?n :: ?l)) with (textContent n ++ pageText l).
  rewrite textContent_span, pageText_piece. apply slices_join. exact H.
Qed.

Lemma wrapsAt_text (v : text) (frag cs cs' : list node) :
  wrapsAt v frag cs cs' -> pageText frag = v -> pageText cs' = pageText cs.
Proof.
  intros Hw Hf. induction Hw as [l1 l2|l1 a gs gs' l2 Hb Hw IH].
  - rewrite !pageText_app, Hf. reflexivity.
  - rewrite !pageText_app. f_equal.
    change (pageText (?n :: ?l)) with (textContent n ++ pageText l). f_equal.
    exact IH.
Qed.

Lemma normalizeTexts_text (cs : list node) : pageText (normalizeTexts cs) = pageText cs.
Proof.
  induction cs as [|[v|a gs] rest IH]; [reflexivity| |].
  - cbn [normalizeTexts].
    change (pageText (TextNode v :: rest)) with (v ++ pageText rest). rewrite <- IH.
    destruct (normalizeTexts rest) as [|[w|a gs] rest'].
    + destruct v; cbn; rewrite ?app_nil_r; reflexivity.
    + change (pageText (TextNode ?x :: ?l)) with (x ++ pageText l).
      rewrite app_assoc. reflexivity.
    + destruct v; reflexivity.
  - cbn [normalizeTexts].
    change (pageText (?n :: ?l)) with (textContent n ++ pageText l).
    rewrite IH. reflexivity.
Qed.

Lemma clearNode_text (n : node) : forall norm, textContent (clearNode norm n) = textContent n.
Proof.
  induction n as [v|a cs IH] using node_ind'; intros norm; [reflexivity|].
  rewrite clearNode_elem. destruct (isMarker a); [reflexivity|].
  cbn [textContent]. fold (pageText (clearList norm cs)). fold (pageText cs).
  unfold clearList. cbv zeta.
  assert (Hmap : forall b, pageText (map (clearNode b) cs) = pageText cs).
  { intros b. induction IH as [|c cs Hc _ IHcs]; [reflexivity|].
    cbn [map]. change (pageText (?n :: ?l)) with (textContent n ++ pageText l).
    rewrite Hc, IHcs. reflexivity. }
  destruct (norm || existsb isMarkerNode cs); [rewrite normalizeTexts_text|]; apply Hmap.
Qed.

Lemma clearHighlights_text (d : document) : pageText (clearHighlights d) = pageText d.
Proof.
  unfold clearHighlights. cbv zeta.
  assert (Hmap : forall b, pageText (map (clearNode b) d) = pageText d).
  { intros b. induction d as [|c cs IH]; [reflexivity|].
    cbn [map]. change (pageText (?n :: ?l)) with (textContent n ++ pageText l).
    rewrite clearNode_text, IH. reflexivity. }
  destruct (existsb isMarkerNode d); [rewrite normalizeTexts_text|]; apply Hmap.
Qed.

Lemma highlightEntry_text (e : entry) (d : document) :
  pageText (fst (highlightEntry e d)) = pageText d.
Proof.
  destruct (highlightEntry_effect e d) as [->|(v & s & Hw & _)]; [reflexivity|].
  apply (wrapsAt_text _ _ _ _ Hw). apply wrapTextMatch_text. lia.
Qed.

Lemma highlightAll_text (entries : list entry) : forall d,
  pageText (highlightAll entries d) = pageText d.
Proof.
  induction entries as [|e entries IH]; intros d; [reflexivity|].
  cbn [highlightAll fold_left]. fold (highlightAll entries (fst (highlightEntry e d))).
  rewrite IH. apply highlightEntry_text.
Qed.

Lemma applyHighlights_text (quotes : list entry) (d : document) :
  pageText (applyHighlights quotes d) = pageText d.
Proof.
  unfold applyHighlights. fold (highlightAll (normalized quotes) (clearHighlights d)).
  rewrite highlightAll_text. apply clearHighlights_text.
Qed.

Lemma refreshHighlights_text url res (st : page) :
  pageText (dom (refreshHighlights url res st)) = pageText (dom st).
Proof.
  unfold refreshHighlights. destruct url as [u|]; [|reflexivity].
  destruct res as [quotes|]; [|reflexivity].
  destruct (_ && _); [reflexivity|]. apply applyHighlights_text.
Qed.

(** X22. Highlighting never changes the text of the page: after
    [clearHighlights], [highlightEntry], [applyHighlights],
    [refreshHighlights] and [scrollToQuote] the text content of the
    document is what it was, whatever the quotes. *)
Theorem highlighting_keeps_the_text (d : document) (e : entry) (quotes : list entry)
    (url : option text) (res : option (list entry)) (st : page) :
  pageText (clearHighlights d) = pageText d /\
  pageText (fst (highlightEntry e d)) = pageText d /\
  pageText (applyHighlights quotes d) = pageText d /\
  pageText (dom (refreshHighlights url res st)) = pageText (dom st) /\
  pageText (dom (fst (scrollToQuote url res e st))) = pageText (dom st).
Proof.
  split; [apply clearHighlights_text|]. split; [apply highlightEntry_text|].
  split; [apply applyHighlights_text|]. split; [apply refreshHighlights_text|].
  unfold scrollToQuote. cbv zeta.
  destruct (isEmpty (trim (text_ e))); [reflexivity|].
  assert (Hlast : forall st1 : page,
            pageText (dom st1) = pageText (dom st) ->
            pageText (dom (fst (let '(d', el3) := highlightEntry e (dom st1) in
                                ({| lastHighlightUrl := lastHighlightUrl st1;
                                    lastHighlightSignature := lastHighlightSignature st1;
                                    dom := d' |}, el3)))) = pageText (dom st)).
  { intros st1 H1. assert (Ht := highlightEntry_text e (dom st1)).
    destruct (highlightEntry e (dom st1)) as [d' el3]. cbn [fst dom] in *. congruence. }
  destruct (if isEmpty (id e) then None else findHighlightSpanById (id e) (dom st))
    as [el|].
  - reflexivity.
  - assert (H1 := refreshHighlights_text url res st).
    destruct (if isEmpty (id e) then None
              else findHighlightSpanById (id e) (dom (refreshHighlights url res st)))
      as [el|]; [exact H1|].
    destruct (findHighlightSpanForText _ _) as [el|]; [exact H1|].
    apply Hlast. exact H1.
Qed.

(** X23. [clearHighlights] leaves no marker, nested ones included, and
    leaves a document without markers as it is. On a document without
    markers whose text nodes are normalized (none empty, no two adjacent),
    highlighting any quotes and clearing again gives back the document
    itself. *)
Theorem clearHighlights_restores (quotes : list entry) (d : document) :
  markers (clearHighlights d) = [] /\
  (markers d = [] -> clearHighlights d = d) /\
  (markers d = [] -> normalDoc d = true ->
   clearHighlights (applyHighlights quotes d) = d).
Proof.
  split; [|split].
  - rewrite clearHighlights_clearList. apply clearList_markers.
  - intros H. rewrite clearHighlights_clearList. apply clearList_id. exact H.
  - intros Hm Hn.
    assert (Hid : clearHighlights d = d).
    { rewrite clearHighlights_clearList. apply clearList_id. exact Hm. }
    unfold applyHighlights. fold (highlightAll (normalized quotes) (clearHighlights d)).
    rewrite Hid. rewrite highlightAll_clear; [exact Hid|]. rewrite Hid. exact Hn.
Qed.

(** *** Common prefixes and suffixes *)

Lemma commonPrefixLength_prefix (a b : text) :
  firstn (commonPrefixLength a b) a = firstn (commonPrefixLength a b) b.
Proof.
  revert b. induction a as [|x a IH]; intros [|y b]; try reflexivity.
  cbn [commonPrefixLength]. destruct (Ascii.eqb_spec x y) as [->|Hne]; [|reflexivity].
  cbn [firstn]. f_equal. apply IH.
Qed.

Lemma commonPrefixLength_stops (a b : text) :
  nth_error a (commonPrefixLength a b) <> nth_error b (commonPrefixLength a b) \/
  commonPrefixLength a b = length a \/ commonPrefixLength a b = length b.
Proof.
  revert b. induction a as [|x a IH]; intros [|y b]; cbn; auto.
  destruct (Ascii.eqb_spec x y) as [->|Hne].
  - destruct (IH b) as [H|[H|H]]; auto.
  - left. cbn. congruence.
Qed.

Lemma commonPrefixLength_comm (a b : text) :
  commonPrefixLength a b = commonPrefixLength b a.
Proof.
  revert b. induction a as [|x a IH]; intros [|y b]; try reflexivity.
  cbn. rewrite (Ascii.eqb_sym x y). destruct (Ascii.eqb y x); [|reflexivity].
  f_equal. apply IH.
Qed.

Lemma commonPrefixLength_le_l (a b : text) : commonPrefixLength a b <= length a.
Proof. rewrite commonPrefixLength_comm. apply commonPrefixLength_le_r. Qed.

(** X24. [commonPrefixLength(a, b)] is the length of the longest common
    prefix of the two strings: the strings agree on that many code units
    from the start, and then differ or one of them ends. In the same way
    [commonSuffixLength(a, b)] is the length of their longest common
    suffix. Both are symmetric. *)
Theorem common_lengths (a b : text) :
  let p := commonPrefixLength a b in
  let s := commonSuffixLength a b in
  (p <= length a /\ p <= length b /\
   firstn p a = firstn p b /\
   (nth_error a p <> nth_error b p \/ p = length a \/ p = length b) /\
   commonPrefixLength b a = p) /\
  (s <= length a /\ s <= length b /\
   skipn (length a - s) a = skipn (length b - s) b /\
   (nth_error (rev a) s <> nth_error (rev b) s \/ s = length a \/ s = length b) /\
   commonSuffixLength b a = s).
Proof.
  cbv zeta. split.
  - split; [apply commonPrefixLength_le_l|]. split; [apply commonPrefixLength_le_r|].
    split; [apply commonPrefixLength_prefix|]. split; [apply commonPrefixLength_stops|].
    apply commonPrefixLength_comm.
  - unfold commonSuffixLength.
    assert (Hl := commonPrefixLength_le_l (rev a) (rev b)).
    assert (Hr := commonPrefixLength_le_r (rev a) (rev b)).
    rewrite length_rev in Hl, Hr.
    split; [exact Hl|]. split; [exact Hr|]. split; [|split].
    + assert (H := commonPrefixLength_prefix (rev a) (rev b)).
      set (n := commonPrefixLength (rev a) (rev b)) in *.
      apply (f_equal (@rev ascii)) in H.
      rewrite !firstn_rev, !rev_involutive in H. exact H.
    + rewrite <- (length_rev a), <- (length_rev b). apply commonPrefixLength_stops.
    + apply commonPrefixLength_comm.
Qed.

(** *** The element that [highlightEntry] returns *)

Lemma isSpace_lowerChar (c : ascii) : isSpace (lowerChar c) = isSpace c.
Proof. destruct c as [[] [] [] [] [] [] [] []]; reflexivity. Qed.

Lemma trimStart_lower (s : text) : trimStart (toLowerCase s) = toLowerCase (trimStart s).
Proof.
  induction s as [|c s IH]; [reflexivity|].
  cbn. rewrite isSpace_lowerChar. destruct (isSpace c); [exact IH|reflexivity].
Qed.

Lemma toLowerCase_rev (s : text) : toLowerCase (rev s) = rev (toLowerCase s).
Proof. unfold toLowerCase. apply map_rev. Qed.

Lemma trim_lower (s : text) : trim (toLowerCase s) = toLowerCase (trim s).
Proof.
  unfold trim, trimEnd.
  rewrite trimStart_lower, <- toLowerCase_rev, trimStart_lower, toLowerCase_rev.
  reflexivity.
Qed.

Lemma highlights_app (l1 l2 : list node) :
  highlights (l1 ++ l2) = highlights l1 ++ highlights l2.
Proof. apply flat_map_app. Qed.

Lemma highlights_wrapTextMatch (s e : nat) (qid v : text) :
  highlights (wrapTextMatch s e qid v)
  = [(if isEmpty qid then None else Some qid, slice v s e)].
Proof.
  unfold wrapTextMatch. cbv zeta. rewrite highlights_app.
  assert (Hp : forall b, highlights (if isEmpty b then [] else [TextNode b]) = []).
  { intros b. destruct b; reflexivity. }
  rewrite Hp. cbn [app]. unfold highlights. cbn [flat_map highlightsOf highlightClass quoteId].
  fold (highlights (if isEmpty (slice v s e) then [] else [TextNode (slice v s e)])).
  fold (highlights (if isEmpty (sliceFrom v e) then [] else [TextNode (sliceFrom v e)])).
  rewrite !Hp, textContent_span. reflexivity.
Qed.

Lemma wrapsAt_highlights (v : text) (frag cs cs' : list node) (h : option text * text) :
  wrapsAt v frag cs cs' -> In h (highlights frag) -> In h (highlights cs').
Proof.
  intros Hw Hin. induction Hw as [l1 l2|l1 a gs gs' l2 Hb Hw IH].
  - rewrite !highlights_app. apply in_or_app. right. apply in_or_app. left. exact Hin.
  - rewrite highlights_app. apply in_or_app. right.
    unfold highlights at 1. cbn [flat_map highlightsOf].
    apply in_or_app. left. apply in_or_app. right. exact IH.
Qed.

Lemma findIndex_found {A : Type} (p : A -> bool) (l : list A) (x : A) :
  In x l -> p x = true -> findIndex p l <> None.
Proof.
  induction l as [|y l IH]; intros Hin Hp; [destruct Hin|].
  cbn. destruct (p y) eqn:E; [discriminate|].
  destruct Hin as [->|Hin]; [congruence|].
  destruct (findIndex p l); [discriminate|]. exfalso. exact (IH Hin Hp eq_refl).
Qed.

Lemma findIndex_some {A : Type} (p : A -> bool) (l : list A) (i : nat) :
  findIndex p l = Some i -> exists x, nth_error l i = Some x /\ p x = true.
Proof.
  revert i. induction l as [|y l IH]; intros i; cbn; [discriminate|].
  destruct (p y) eqn:E.
  - intros [= <-]. exists y. split; [reflexivity|exact E].
  - destruct (findIndex p l) as [j|]; cbn; [|discriminate].
    intros [= <-]. exact (IH j eq_refl).
Qed.

(** X25. On a page of Latin-1 text, [highlightEntry] returns an element
    exactly when the Locator finds a match, for an entry whose id has no
    white space at its ends. The
    element is one of the [.rc-highlight] elements of the document
    afterwards: it carries the id of the entry when the entry has one, and
    otherwise its text is the trimmed text of the entry up to case. *)
Theorem highlightEntry_returns_element (e : entry) (d : document) :
  trim (id e) = id e ->
  (snd (highlightEntry e d) = None <-> findBestMatchInDocument e (textNodes d) = None) /\
  forall el, snd (highlightEntry e d) = Some el ->
    exists h,
      nth_error (highlights (fst (highlightEntry e d))) el = Some h /\
      if isEmpty (id e)
      then toLowerCase (trim (snd h)) = toLowerCase (trim (text_ e))
      else fst h = Some (id e).
Proof.
  intros Hid.
  assert (Heff := highlightEntry_effect e d).
  unfold highlightEntry in *.
  destruct (findBestMatchInDocument e (textNodes d)) as [m|] eqn:E; cbn [fst snd] in *.
  2: { split; [split; reflexivity|]. intros el H. discriminate H. }
  set (d' := replaceIn (wrapTextMatch (m_start m) (m_end m) (id e)) (m_node m) d) in *.
  destruct Heff as [Heq|(v & s & Hw & Hlow)].
  { exfalso. apply findBest_sound in E as (nd & Hnth & Hskip & _ & _).
    assert (Hw := replaceIn_wrapsAt (wrapTextMatch (m_start m) (m_end m) (id e)) d
                    (m_node m) (nodeValue nd)).
    unfold textNodes in Hnth. rewrite Hnth in Hw. destruct nd as [sk v]. cbn in *.
    subst sk. specialize (Hw eq_refl). fold d' in Hw. rewrite Heq in Hw.
    assert (Hlen := wrapsAt_markers_length _ _ _ _ Hw).
    rewrite markers_wrapTextMatch in Hlen. cbn in Hlen. lia. }
  assert (Hin : In (if isEmpty (id e) then None else Some (id e),
                    slice v s (s + length (trim (text_ e)))) (highlights d')).
  { apply (wrapsAt_highlights _ _ _ _ _ Hw). rewrite highlights_wrapTextMatch.
    left. reflexivity. }
  destruct (isEmpty (id e)) eqn:Ee.
  - unfold findHighlightSpanForText.
    assert (Hsearched : isEmpty (toLowerCase (trim (text_ e))) = false).
    { unfold findBestMatchInDocument in E.
      destruct (trim (text_ e)) as [|c r]; [discriminate E|reflexivity]. }
    rewrite Hsearched. split.
    + split; [|discriminate]. intros Hnone. exfalso.
      eapply (findIndex_found _ _ _ Hin); [|exact Hnone]. cbn [snd].
      apply eqb_eq. rewrite <- trim_lower, Hlow, trim_lower, trim_trim. reflexivity.
    + intros el Hel. apply findIndex_some in Hel as (h & Hn & Hp).
      exists h. split; [exact Hn|]. apply eqb_eq in Hp. exact Hp.
  - unfold findHighlightSpanById. rewrite Hid, Ee. split.
    + split; [|discriminate]. intros Hnone. exfalso.
      eapply (findIndex_found _ _ _ Hin); [|exact Hnone]. cbn [fst].
      apply eqb_refl.
    + intros el Hel. apply findIndex_some in Hel as (h & Hn & Hp).
      exists h. split; [exact Hn|]. destruct (fst h) as [i|]; [|discriminate].
      apply eqb_eq in Hp. congruence.
Qed.

Lemma highlightEntry_returns_element_witness :
  trim (id (quoted "a" "foobar")) = id (quoted "a" "foobar") /\
  snd (highlightEntry (quoted "a" "foobar") (dom wholePage)) <> None.
Proof.
  split; [reflexivity|]. intros H.
  apply (proj1 (proj1 (highlightEntry_returns_element (quoted "a" "foobar")
                         (dom wholePage) eq_refl))) in H.
  vm_compute in H. discriminate H.
Defined.

(** With white space around the id the occurrence is wrapped, and no
    element is returned: the lookup trims the id, the attribute has it as
    it is. *)
Example highlightEntry_spaced_id :
  let e := quoted " a" "foobar" in
  markers (fst (highlightEntry e (dom wholePage))) = [(Some (lit " a"), lit "foobar")] /\
  snd (highlightEntry e (dom wholePage)) = None.
Proof. split; reflexivity. Qed.

(** *** What is never wrapped *)

(** The [script], [style], [textarea], [input], [select], [option] and
    [noscript] elements of a document, the outermost ones, each with all
    that is below it. *)
Fixpoint forbiddenOf (n : node) : list node :=
  match n with
  | TextNode _ => []
  | Elem a cs => if forbiddenTag a then [n] else flat_map forbiddenOf cs
  end.

Definition forbiddenParts (d : document) : list node := flat_map forbiddenOf d.

Lemma forbiddenParts_app (l1 l2 : list node) :
  forbiddenParts (l1 ++ l2) = forbiddenParts l1 ++ forbiddenParts l2.
Proof. apply flat_map_app. Qed.

Lemma forbiddenParts_wrapTextMatch (s e : nat) (qid v : text) :
  forbiddenParts (wrapTextMatch s e qid v) = [].
Proof.
  unfold wrapTextMatch. cbv zeta. rewrite forbiddenParts_app.
  assert (Hp : forall b, forbiddenParts (if isEmpty b then [] else [TextNode b]) = []).
  { intros b. destruct b; reflexivity. }
  rewrite Hp. cbn [app]. unfold forbiddenParts at 1. cbn [flat_map forbiddenOf].
  change (forbiddenTag _) with false. cbv iota.
  fold (forbiddenParts (if isEmpty (slice v s e) then [] else [TextNode (slice v s e)])).
  fold (forbiddenParts (if isEmpty (sliceFrom v e) then [] else [TextNode (sliceFrom v e)])).
  rewrite !Hp. reflexivity.
Qed.

Lemma wrapsAt_forbidden (v : text) (frag cs cs' : list node) :
  wrapsAt v frag cs cs' -> forbiddenParts frag = [] ->
  forbiddenParts cs' = forbiddenParts cs.
Proof.
  intros Hw Hf. induction Hw as [l1 l2|l1 a gs gs' l2 Hb Hw IH].
  - rewrite !forbiddenParts_app, Hf. reflexivity.
  - rewrite !forbiddenParts_app. f_equal.
    change (forbiddenParts (?n :: ?l)) with (forbiddenOf n ++ forbiddenParts l).
    f_equal. cbn [forbiddenOf].
    unfold blocks in Hb. apply orb_false_iff in Hb as [Hb _]. rewrite Hb. exact IH.
Qed.

Lemma highlightEntry_forbidden (e : entry) (d : document) :
  forbiddenParts (fst (highlightEntry e d)) = forbiddenParts d.
Proof.
  destruct (highlightEntry_effect e d) as [->|(v & s & Hw & _)]; [reflexivity|].
  apply (wrapsAt_forbidden _ _ _ _ Hw). apply forbiddenParts_wrapTextMatch.
Qed.

Lemma highlightAll_forbidden (entries : list entry) : forall d,
  forbiddenParts (highlightAll entries d) = forbiddenParts d.
Proof.
  induction entries as [|e entries IH]; intros d; [reflexivity|].
  cbn [highlightAll fold_left]. fold (highlightAll entries (fst (highlightEntry e d))).
  rewrite IH. apply highlightEntry_forbidden.
Qed.

(** X26. Wrapping never reaches into [script], [style], [textarea],
    [input], [select], [option] and [noscript] elements: [highlightEntry]
    leaves each of them, with all that is below it, exactly as it is, and
    so does [applyHighlights] on a document that has no markers yet. *)
Theorem forbidden_elements_untouched (e : entry) (quotes : list entry) (d : document) :
  forbiddenParts (fst (highlightEntry e d)) = forbiddenParts d /\
  (markers d = [] -> forbiddenParts (applyHighlights quotes d) = forbiddenParts d).
Proof.
  split; [apply highlightEntry_forbidden|]. intros Hm.
  unfold applyHighlights. fold (highlightAll (normalized quotes) (clearHighlights d)).
  rewrite highlightAll_forbidden, clearHighlights_clearList, (clearList_id d Hm).
  reflexivity.
Qed.

(** A quote that occurs in a script and in a paragraph is wrapped in the
    paragraph. *)
Example script_is_skipped :
  let d := [Elem (plainAttrs "script") [TextNode (lit "var t = 'foobar';")];
            Elem (plainAttrs "p") [TextNode (lit "a foobar")]] in
  forbiddenParts (applyHighlights [quoted "a" "foobar"] d)
  = [Elem (plainAttrs "script") [TextNode (lit "var t = 'foobar';")]] /\
  markers (applyHighlights [quoted "a" "foobar"] d) = [(Some (lit "a"), lit "foobar")].
Proof. split; reflexivity. Qed.

End PageSpec.



(** ** Escaping *)

Module PopupSpec.
Import Text Popup.

(** The code units that have a meaning in markup. *)
Definition special (c : ascii) : bool :=
  Ascii.eqb c ampersand || Ascii.eqb c lessThan || Ascii.eqb c greaterThan
  || Ascii.eqb c doubleQuote || Ascii.eqb c apostrophe.

(** What stands for one code unit in the escaped string. *)
Definition entity (c : ascii) : text :=
  if Ascii.eqb c ampersand then lit "&amp;"
  else if Ascii.eqb c lessThan then lit "&lt;"
  else if Ascii.eqb c greaterThan then lit "&gt;"
  else if Ascii.eqb c doubleQuote then lit "&quot;"
  else if Ascii.eqb c apostrophe then lit "&#39;"
  else [c].

Lemma replaceAll_flat_map (c : ascii) (by_ : text) (f : ascii -> text) (s : text) :
  replaceAll c by_ (flat_map f s) = flat_map (fun x => replaceAll c by_ (f x)) s.
Proof.
  unfold replaceAll. induction s as [|x s IH]; [reflexivity|].
  cbn [flat_map]. rewrite flat_map_app, IH. reflexivity.
Qed.

Lemma escapeHtml_one (c : ascii) : escapeHtml [c] = entity c.
Proof.
  unfold escapeHtml, entity.
  destruct (Ascii.eqb_spec c ampersand) as [->|H1]; [reflexivity|].
  destruct (Ascii.eqb_spec c lessThan) as [->|H2]; [reflexivity|].
  destruct (Ascii.eqb_spec c greaterThan) as [->|H3]; [reflexivity|].
  destruct (Ascii.eqb_spec c doubleQuote) as [->|H4]; [reflexivity|].
  destruct (Ascii.eqb_spec c apostrophe) as [->|H5]; [reflexivity|].
  unfold replaceAll. cbn [flat_map app].
  apply Ascii.eqb_neq in H1, H2, H3, H4, H5.
  rewrite H1. cbn [flat_map app]. rewrite H2. cbn [flat_map app].
  rewrite H3. cbn [flat_map app]. rewrite H4. cbn [flat_map app].
  rewrite H5. reflexivity.
Qed.

Lemma flat_map_singleton (s : text) : flat_map (fun x => [x]) s = s.
Proof. induction s as [|x s IH]; [reflexivity|]. cbn. rewrite IH. reflexivity. Qed.

Lemma escapeHtml_entities (s : text) : escapeHtml s = flat_map entity s.
Proof.
  transitivity (flat_map (fun x => escapeHtml [x]) s).
  - unfold escapeHtml.
    rewrite <- !replaceAll_flat_map, flat_map_singleton. reflexivity.
  - apply flat_map_ext. exact escapeHtml_one.
Qed.

Lemma entity_cases (c : ascii) :
  (special c = false /\ entity c = [c]) \/
  (special c = true /\
   exists x rest, entity c = ampersand :: x :: rest /\
                  forallb (fun y => negb (special y)) (x :: rest) = true /\
                  (forall c', special c' = true ->
                     forall rest', entity c' = ampersand :: x :: rest' -> c' = c)).
Proof.
  unfold entity, special.
  destruct (Ascii.eqb_spec c ampersand) as [->|H1].
  { right. split; [reflexivity|]. eexists _, _. split; [reflexivity|].
    split; [reflexivity|]. intros c' _ rest'.
    destruct (Ascii.eqb_spec c' ampersand) as [->|_]; [reflexivity|].
    destruct (Ascii.eqb c' lessThan); [discriminate|].
    destruct (Ascii.eqb c' greaterThan); [discriminate|].
    destruct (Ascii.eqb c' doubleQuote); [discriminate|].
    destruct (Ascii.eqb c' apostrophe); [discriminate|].
    intros H. discriminate H. }
  destruct (Ascii.eqb_spec c lessThan) as [->|H2].
  { right. split; [reflexivity|]. eexists _, _. split; [reflexivity|].
    split; [reflexivity|]. intros c' _ rest'.
    destruct (Ascii.eqb c' ampersand); [discriminate|].
    destruct (Ascii.eqb_spec c' lessThan) as [->|_]; [reflexivity|].
    destruct (Ascii.eqb c' greaterThan); [discriminate|].
    destruct (Ascii.eqb c' doubleQuote); [discriminate|].
    destruct (Ascii.eqb c' apostrophe); [discriminate|].
    intros H. discriminate H. }
  destruct (Ascii.eqb_spec c greaterThan) as [->|H3].
  { right. split; [reflexivity|]. eexists _, _. split; [reflexivity|].
    split; [reflexivity|]. intros c' _ rest'.
    destruct (Ascii.eqb c' ampersand); [discriminate|].
    destruct (Ascii.eqb c' lessThan); [discriminate|].
    destruct (Ascii.eqb_spec c' greaterThan) as [->|_]; [reflexivity|].
    destruct (Ascii.eqb c' doubleQuote); [discriminate|].
    destruct (Ascii.eqb c' apostrophe); [discriminate|].
    intros H. discriminate H. }
  destruct (Ascii.eqb_spec c doubleQuote) as [->|H4].
  { right. split; [reflexivity|]. eexists _, _. split; [reflexivity|].
    split; [reflexivity|]. intros c' _ rest'.
    destruct (Ascii.eqb c' ampersand); [discriminate|].
    destruct (Ascii.eqb c' lessThan); [discriminate|].
    destruct (Ascii.eqb c' greaterThan); [discriminate|].
    destruct (Ascii.eqb_spec c' doubleQuote) as [->|_]; [reflexivity|].
    destruct (Ascii.eqb c' apostrophe); [discriminate|].
    intros H. discriminate H. }
  destruct (Ascii.eqb_spec c apostrophe) as [->|H5].
  { right. split; [reflexivity|]. eexists _, _. split; [reflexivity|].
    split; [reflexivity|]. intros c' _ rest'.
    destruct (Ascii.eqb c' ampersand); [discriminate|].
    destruct (Ascii.eqb c' lessThan); [discriminate|].
    destruct (Ascii.eqb c' greaterThan); [discriminate|].
    destruct (Ascii.eqb c' doubleQuote); [discriminate|].
    destruct (Ascii.eqb_spec c' apostrophe) as [->|_]; [reflexivity|].
    intros H. discriminate H. }
  left. split; reflexivity.
Qed.

Lemma special_ampersand (c : ascii) :
  special c = false -> c <> ampersand /\ c <> lessThan /\ c <> greaterThan /\
                       c <> doubleQuote /\ c <> apostrophe.
Proof.
  unfold special. intros H.
  repeat (apply orb_false_iff in H as [H ?]).
  repeat split; apply Ascii.eqb_neq; assumption.
Qed.

Lemma entity_nonempty (c : ascii) : entity c <> [].
Proof.
  destruct (entity_cases c) as [[_ ->]|[_ (x & rest & -> & _)]]; discriminate.
Qed.

Lemma escapeHtml_injective (s : text) : forall t, escapeHtml s = escapeHtml t -> s = t.
Proof.
  induction s as [|x s IH]; intros [|y t]; rewrite !escapeHtml_entities;
    cbn [flat_map]; intros H.
  - reflexivity.
  - symmetry in H. apply app_eq_nil in H as [H _]. destruct (entity_nonempty y H).
  - apply app_eq_nil in H as [H _]. destruct (entity_nonempty x H).
  - rewrite <- !escapeHtml_entities in H.
    destruct (entity_cases x) as [[Hx Ex]|[Hx (x1 & r1 & Ex & _ & Hux)]];
      destruct (entity_cases y) as [[Hy Ey]|[Hy (y1 & r2 & Ey & _ & Huy)]];
      rewrite Ex, Ey in H; cbn [app] in H.
    + injection H as -> H. f_equal. apply IH. exact H.
    + injection H as -> _. apply special_ampersand in Hx. tauto.
    + injection H as <- _. apply special_ampersand in Hy. tauto.
    + injection H as -> H. assert (Hxy : x = y) by (apply (Huy x Hx r1); exact Ex).
      subst y. rewrite Ex in Ey. injection Ey as <-.
      apply app_inv_head in H. f_equal. apply IH. exact H.
Qed.

(** X27. [escapeHtml] replaces each of the five code units [&], [<], [>],
    the double quote and the apostrophe by its entity and keeps every other
    code unit: the result holds no [<], no [>], no double quote and no
    apostrophe, it is the string itself when the string holds none of the
    five, and two different strings are never escaped to the same string. *)
Theorem escapeHtml_is_safe (s : text) :
  escapeHtml s = flat_map entity s /\
  Forall (fun c => c <> lessThan /\ c <> greaterThan /\
                   c <> doubleQuote /\ c <> apostrophe) (escapeHtml s) /\
  (forallb (fun c => negb (special c)) s = true -> escapeHtml s = s) /\
  (forall t, escapeHtml s = escapeHtml t -> s = t).
Proof.
  split; [apply escapeHtml_entities|]. split; [|split; [|apply escapeHtml_injective]].
  - rewrite escapeHtml_entities. induction s as [|c s IH]; [constructor|].
    cbn [flat_map]. apply Forall_app. split; [|exact IH].
    destruct (entity_cases c) as [[Hc ->]|[_ (x & rest & -> & Hrest & _)]].
    + constructor; [|constructor]. apply special_ampersand in Hc. tauto.
    + constructor; [repeat split; discriminate|].
      apply List.Forall_forall. intros y Hy.
      rewrite forallb_forall in Hrest. specialize (Hrest y Hy).
      apply negb_true_iff, special_ampersand in Hrest. tauto.
  - intros H. rewrite escapeHtml_entities. induction s as [|c s IH]; [reflexivity|].
    cbn [forallb] in H. apply andb_true_iff in H as [Hc H].
    cbn [flat_map]. rewrite (IH H). apply negb_true_iff in Hc.
    destruct (entity_cases c) as [[_ ->]|[Hs _]]; [reflexivity|congruence].
Qed.

Example escapeHtml_markup :
  escapeHtml (lit "<a href='x'>R&D</a>")
  = lit "&lt;a href=&#39;x&#39;&gt;R&amp;D&lt;/a&gt;".
Proof. reflexivity. Qed.

End PopupSpec.
